(** * Content-acquisition pipeline: crawler, link ranker, robots handling, chunker

    A shallow embedding of the TypeScript sources
      - crawler.ts   (crawl, normalizeUrl, isSameDomain, getRobotsInfo,
                      isUrlAllowed; the second unit of [src/scraper/index.ts]),
      - index.ts     (scrape and its robots.txt delay floor; the first unit
                      of [src/scraper/index.ts]),
      - ranker.ts    (rankLinks, rankBatch, heuristicRank, filterByScore;
                      [src/scraper/ranker.ts]),
      - extractor.ts (extractLinksFromUrl, preFilterLinks; the second unit
                      of [src/db/index.ts]),
      - chunker.ts   (chunkDocument and its helpers;
                      [src/services/chunker.ts]).

    JavaScript strings are modelled as [string] (sequences of 8-bit
    characters, of which the ASCII range is interpreted), integer numbers
    as [Z], counts as [nat], scores as rationals [Q].  What the code obtains
    from outside the repository -- the platform URL parser, the tokenizer,
    the browser that fetches pages and the classification service -- is a
    Section variable, so that the theorems hold whatever these answer.
    Loops that the code can fail to leave take a bound on their iterations
    and answer [OutOfFuel] when it is used up.  Logging, wall-clock
    duration and the storage of pages are left out. *)

From Stdlib Require Import ZArith QArith Ascii String List Lia Bool Permutation Sorted.
From stdpp Require Import base gmap sets list strings.

Local Open Scope Z_scope.

(** ** JavaScript string primitives *)

Module JsString.

Definition LF : ascii := ascii_of_nat 10.
Definition CR : ascii := ascii_of_nat 13.
Definition SP : ascii := ascii_of_nat 32.

Definition newline : string := String LF EmptyString.
Definition blank_line : string := String LF (String LF EmptyString).

(** [\s] restricted to ASCII: TAB, LF, VT, FF, CR and SPACE. *)
Definition is_space (c : ascii) : bool :=
  let n := nat_of_ascii c in
  ((9 <=? n)%nat && (n <=? 13)%nat) || (n =? 32)%nat.

(** Line terminators: what [.] refuses and what [^]/[$] look for under
    the [m] flag. *)
Definition is_line_terminator (c : ascii) : bool :=
  Ascii.eqb c LF || Ascii.eqb c CR.

Definition is_upper (c : ascii) : bool :=
  let n := nat_of_ascii c in (65 <=? n)%nat && (n <=? 90)%nat.

Definition is_digit (c : ascii) : bool :=
  let n := nat_of_ascii c in (48 <=? n)%nat && (n <=? 57)%nat.

Definition lower_char (c : ascii) : ascii :=
  if is_upper c then ascii_of_nat (nat_of_ascii c + 32) else c.

Fixpoint toLowerCase (s : string) : string :=
  match s with
  | EmptyString => EmptyString
  | String c s' => String (lower_char c) (toLowerCase s')
  end.

Definition chars (s : string) : list ascii := list_ascii_of_string s.
Definition str (l : list ascii) : string := string_of_list_ascii l.

Fixpoint drop_spaces (l : list ascii) : list ascii :=
  match l with
  | c :: l' => if is_space c then drop_spaces l' else l
  | [] => []
  end.

(** [s.trim()] *)
Definition trim (s : string) : string :=
  str (rev (drop_spaces (rev (drop_spaces (chars s))))).

(** [s.startsWith(p)] and [s.endsWith(p)] *)
Definition startsWith (s p : string) : bool := String.prefix p s.

Definition endsWith (s p : string) : bool :=
  String.prefix (str (rev (chars p))) (str (rev (chars s))).

(** Truthiness of a string: [if (s)]. *)
Definition truthy (s : string) : bool :=
  match s with EmptyString => false | _ => true end.

(** [s.slice(from, to)] for [0 <= from] and [0 <= to]; empty when
    [to <= from]. *)
Definition slice (s : string) (from to : nat) : string :=
  str (firstn (to - from) (skipn from (chars s))).

(** [s.slice(from)] *)
Definition slice_from (s : string) (from : nat) : string :=
  str (skipn from (chars s)).

(** [s.slice(0, -1)] *)
Definition drop_last (s : string) : string :=
  str (removelast (chars s)).

(** [l.slice(-n)] on an array: its last [n] elements. *)
Definition last_n {A} (n : nat) (l : list A) : list A :=
  skipn (List.length l - n) l.

(** [l.join(sep)] *)
Definition join (sep : string) (l : list string) : string :=
  String.concat sep l.

(** [s.indexOf(c, from)] for a one-character needle. *)
Fixpoint index_from_chars (c : ascii) (l : list ascii) (pos : nat) : option nat :=
  match l with
  | [] => None
  | x :: l' => if Ascii.eqb x c then Some pos else index_from_chars c l' (S pos)
  end.

Definition indexOf_char (s : string) (c : ascii) (from : nat) : option nat :=
  index_from_chars c (skipn from (chars s)) from.

(** [s.replace(p, "")] where [s.startsWith(p)] was just checked: the first
    occurrence is the prefix. *)
Definition strip_prefix (s p : string) : string :=
  slice_from s (String.length p).

Fixpoint run_length (cls : ascii -> bool) (l : list ascii) : nat :=
  match l with
  | c :: l' => if cls c then S (run_length cls l') else O
  | [] => O
  end.

(** [s.split(re)] for a regular expression whose matches are maximal runs
    of one character class, accepted or not by [ok prev len next], where
    [prev] is the character before the run, [len] its length and [next]
    the character after it.  A run that is refused stays in the text.
    The counter says how many characters of the current run remain and
    whether the run is a separator. *)
Fixpoint split_runs_go (cls : ascii -> bool)
    (ok : option ascii -> nat -> option ascii -> bool)
    (l : list ascii) (prev : option ascii) (cur : list ascii)
    (left : nat) (sep : bool) : list string :=
  match l with
  | [] => [str (rev cur)]
  | c :: l' =>
      match left with
      | S k =>
          if sep then split_runs_go cls ok l' (Some c) cur k sep
          else split_runs_go cls ok l' (Some c) (c :: cur) k sep
      | O =>
          if cls c then
            let n := run_length cls l in
            if ok prev n (nth_error l n)
            then str (rev cur) :: split_runs_go cls ok l' (Some c) [] (pred n) true
            else split_runs_go cls ok l' (Some c) (c :: cur) (pred n) false
          else split_runs_go cls ok l' (Some c) (c :: cur) O false
      end
  end.

Definition split_runs cls ok (s : string) : list string :=
  split_runs_go cls ok (chars s) None [] O false.

(** [s.split("\n")] *)
Fixpoint split_char_go (sep : ascii) (l : list ascii) (cur : list ascii) : list string :=
  match l with
  | [] => [str (rev cur)]
  | c :: l' =>
      if Ascii.eqb c sep then str (rev cur) :: split_char_go sep l' []
      else split_char_go sep l' (c :: cur)
  end.

Definition split_char (sep : ascii) (s : string) : list string :=
  split_char_go sep (chars s) [].

(** [s.split(/\s+/)] *)
Definition split_whitespace (s : string) : list string :=
  split_runs is_space (fun _ _ _ => true) s.

(** [s.split(/\n\n+/)] *)
Definition split_blank_lines (s : string) : list string :=
  split_runs (Ascii.eqb LF) (fun _ n _ => (2 <=? n)%nat) s.

Definition is_sentence_end (c : ascii) : bool :=
  Ascii.eqb c "."%char || Ascii.eqb c "!"%char || Ascii.eqb c "?"%char.

(** [s.split(/(?<=[.!?])\s+(?=[A-Z])/g)] *)
Definition split_sentences (s : string) : list string :=
  split_runs is_space
    (fun prev _ next =>
       match prev, next with
       | Some p, Some n => is_sentence_end p && is_upper n
       | _, _ => false
       end) s.

End JsString.

(** ** Document chunker ([src/services/chunker.ts]) *)

Module Chunker.
Import JsString.

Record ChunkResult := {
  sectionTitle : string;
  content : string;
  tokenCount : nat;
  chunkIndex : nat
}.

Record MdSection := { title : string; body : string }.

Definition MAX_CHUNK_TOKENS : nat := 1000.
Definition MIN_CHUNK_TOKENS : nat := 100.
Definition OVERLAP_TOKENS : nat := 50.

(** *** Header scan: the [exec] loop of [/^(#{2,3})\s+(.+)$/gm] *)

Definition is_hash (c : ascii) : bool := Ascii.eqb c "#"%char.
Definition not_terminator (c : ascii) : bool := negb (is_line_terminator c).

(** [\s+(.+)$] after the hashes: [\s+] gives back one character at a time
    until a character that [.] accepts follows; [.+] then runs to the end
    of the line.  Returns the captured title and the length matched. *)
Fixpoint header_tail (rest : list ascii) (w : nat) : option (string * nat) :=
  match w with
  | O => None
  | S k =>
      match nth_error rest w with
      | Some c =>
          if not_terminator c then
            let m := run_length not_terminator (skipn w rest) in
            Some (str (firstn m (skipn w rest)), (w + m)%nat)
          else header_tail rest k
      | None => header_tail rest k
      end
  end.

(** One match attempt at a line start: title, level, length of the match. *)
Definition match_header_at (l : list ascii) : option (string * nat * nat) :=
  let h := run_length is_hash l in
  if ((h =? 2) || (h =? 3))%nat then
    let rest := skipn h l in
    match header_tail rest (run_length is_space rest) with
    | Some (t, len) => Some (t, h, (h + len)%nat)
    | None => None
    end
  else None.

Record HeaderMatch := { index : nat; htitle : string; level : nat }.

Fixpoint scan_headers (l : list ascii) (pos : nat) (line_start : bool)
    (inside : nat) : list HeaderMatch :=
  match l with
  | [] => []
  | c :: l' =>
      let next := is_line_terminator c in
      match inside with
      | S k => scan_headers l' (S pos) next k
      | O =>
          if line_start then
            match match_header_at l with
            | Some (t, lvl, len) =>
                {| index := pos; htitle := trim t; level := lvl |}
                  :: scan_headers l' (S pos) next (pred len)
            | None => scan_headers l' (S pos) next O
            end
          else scan_headers l' (S pos) next O
      end
  end.

Definition header_matches (markdown : string) : list HeaderMatch :=
  scan_headers (chars markdown) O true O.

(** The loop over [matches]: content of each header up to the next one. *)
Fixpoint header_sections (markdown : string) (matches : list HeaderMatch)
    : list MdSection :=
  match matches with
  | [] => []
  | currentMatch :: rest =>
      let startIndex := index currentMatch in
      let endIndex :=
        match rest with
        | nextMatch :: _ => index nextMatch
        | [] => String.length markdown
        end in
      let contentStart :=
        match indexOf_char markdown LF startIndex with
        | Some headerLineEnd => S headerLineEnd
        | None => startIndex
        end in
      let content := trim (slice markdown contentStart endIndex) in
      (if truthy content
       then [{| title := htitle currentMatch; body := content |}]
       else [])
      ++ header_sections markdown rest
  end.

Definition splitByHeaders (markdown : string) : list MdSection :=
  match header_matches markdown with
  | [] => [{| title := "Document"; body := trim markdown |}]
  | (first :: _) as matches =>
      (if (0 <? index first)%nat then
         let introContent := trim (slice markdown 0 (index first)) in
         if truthy introContent
         then [{| title := "Introduction"; body := introContent |}]
         else []
       else [])
      ++ header_sections markdown matches
  end.

Definition splitByParagraphs (text : string) : list string :=
  List.filter (fun p => (0 <? String.length p)%nat)
         (map trim (split_blank_lines text)).

Section WithTokenizer.
(** [encode(text).length] of the gpt-tokenizer package. *)
Variable countTokens : string -> nat.

(** The [for] loop of [splitByTokenCount]; [currentChunk] is kept in
    order. *)
Fixpoint splitByTokenCount_loop (words : list string)
    (chunks : list string) (currentChunk : list string)
    (currentTokens : nat) : list string * list string :=
  match words with
  | [] => (chunks, currentChunk)
  | word :: words' =>
      let wordTokens := countTokens (word +:+ " ") in
      if (MAX_CHUNK_TOKENS <? currentTokens + wordTokens)%nat
         && (0 <? List.length currentChunk)%nat
      then splitByTokenCount_loop words'
             (chunks ++ [join " " currentChunk]) [word] wordTokens
      else splitByTokenCount_loop words'
             chunks (currentChunk ++ [word]) (currentTokens + wordTokens)%nat
  end.

Definition splitByTokenCount (text : string) : list string :=
  let '(chunks, currentChunk) :=
    splitByTokenCount_loop (split_whitespace text) [] [] O in
  if (0 <? List.length currentChunk)%nat
  then chunks ++ [join " " currentChunk]
  else chunks.

(** The [for] loop over sentences of [splitOversizedParagraph]. *)
Fixpoint splitOversized_loop (sentences : list string)
    (chunks : list string) (currentChunk : string) (currentTokens : nat)
    : list string * string :=
  match sentences with
  | [] => (chunks, currentChunk)
  | sentence :: rest =>
      let sentenceTokens := countTokens sentence in
      if (MAX_CHUNK_TOKENS <? sentenceTokens)%nat then
        let chunks1 :=
          if truthy currentChunk then chunks ++ [trim currentChunk] else chunks in
        splitOversized_loop rest (chunks1 ++ splitByTokenCount sentence) "" O
      else if (MAX_CHUNK_TOKENS <? currentTokens + sentenceTokens)%nat then
        let chunks1 :=
          if truthy currentChunk then chunks ++ [trim currentChunk] else chunks in
        splitOversized_loop rest chunks1 sentence sentenceTokens
      else
        splitOversized_loop rest chunks
          (currentChunk +:+ (if truthy currentChunk then " " else "") +:+ sentence)
          (currentTokens + sentenceTokens)%nat
  end.

Definition splitOversizedParagraph (text : string) : list string :=
  let tokens := countTokens text in
  if (tokens <=? MAX_CHUNK_TOKENS)%nat then [text]
  else
    let sentences :=
      List.filter (fun s => (0 <? String.length (trim s))%nat) (split_sentences text) in
    if (1 <? List.length sentences)%nat then
      let '(chunks, currentChunk) := splitOversized_loop sentences [] "" O in
      if truthy (trim currentChunk) then chunks ++ [trim currentChunk] else chunks
    else splitByTokenCount text.

(** [mergeSmallSections]: [merged] grows at its end, and a small section
    is appended to the content of the last element. *)
Fixpoint mergeSmallSections_loop (sections : list MdSection)
    (merged : list MdSection) : list MdSection :=
  match sections with
  | [] => merged
  | section :: rest =>
      let tokens := countTokens (body section) in
      if (tokens <? MIN_CHUNK_TOKENS)%nat && (0 <? List.length merged)%nat then
        match rev merged with
        | prev :: before =>
            mergeSmallSections_loop rest
              (rev before ++
               [{| title := title prev;
                   body := body prev +:+ blank_line +:+ body section |}])
        | [] => mergeSmallSections_loop rest (merged ++ [section])
        end
      else mergeSmallSections_loop rest (merged ++ [section])
  end.

Definition mergeSmallSections (sections : list MdSection) : list MdSection :=
  mergeSmallSections_loop sections [].

Definition expandParagraphs (paragraphs : list string) : list string :=
  flat_map (fun para =>
              if (MAX_CHUNK_TOKENS <? countTokens para)%nat
              then splitOversizedParagraph para
              else [para]) paragraphs.

Definition chunk_title (title : string) (chunkNum : nat) : string :=
  if (chunkNum =? 0)%nat then title else title +:+ " (continued)".

(** The packing loop of [splitLargeSection]. *)
Fixpoint splitLargeSection_loop (title : string) (startIndex : nat)
    (paras : list string) (chunks : list ChunkResult)
    (currentChunk : string) (currentTokens chunkNum : nat)
    : list ChunkResult * string * nat :=
  match paras with
  | [] => (chunks, currentChunk, chunkNum)
  | para :: rest =>
      let paraTokens := countTokens para in
      if (MAX_CHUNK_TOKENS <? currentTokens + paraTokens)%nat
         && truthy currentChunk
      then
        let saved :=
          {| sectionTitle := chunk_title title chunkNum;
             content := trim currentChunk;
             tokenCount := currentTokens;
             chunkIndex := (startIndex + chunkNum)%nat |} in
        let words := split_whitespace currentChunk in
        let overlapWords := last_n (Nat.div OVERLAP_TOKENS 2) words in
        let seeded := join " " overlapWords +:+ blank_line +:+ para in
        splitLargeSection_loop title startIndex rest (chunks ++ [saved])
          seeded (countTokens seeded) (S chunkNum)
      else
        splitLargeSection_loop title startIndex rest chunks
          (currentChunk +:+ (if truthy currentChunk then blank_line else "") +:+ para)
          (currentTokens + paraTokens)%nat chunkNum
  end.

Definition splitLargeSection (title content : string) (startIndex : nat)
    : list ChunkResult :=
  let expandedParagraphs := expandParagraphs (splitByParagraphs content) in
  let '(chunks, currentChunk, chunkNum) :=
    splitLargeSection_loop title startIndex expandedParagraphs [] "" O O in
  if truthy (trim currentChunk) then
    chunks ++
    [{| sectionTitle := chunk_title title chunkNum;
        content := trim currentChunk;
        tokenCount := countTokens currentChunk;
        chunkIndex := (startIndex + chunkNum)%nat |}]
  else chunks.

(** Step 3 of [chunkDocument]: the loop over the merged sections. *)
Fixpoint chunkDocument_loop (sections : list MdSection)
    (chunks : list ChunkResult) (chunkIndex : nat) : list ChunkResult :=
  match sections with
  | [] => chunks
  | section :: rest =>
      let tokens := countTokens (body section) in
      if (MAX_CHUNK_TOKENS <? tokens)%nat then
        let subChunks := splitLargeSection (title section) (body section) chunkIndex in
        chunkDocument_loop rest (chunks ++ subChunks)
          (chunkIndex + List.length subChunks)%nat
      else
        chunkDocument_loop rest
          (chunks ++ [{| sectionTitle := title section;
                         content := body section;
                         tokenCount := tokens;
                         chunkIndex := chunkIndex |}])
          (S chunkIndex)
  end.

Definition chunkDocument (markdown : string) : list ChunkResult :=
  if negb (truthy markdown) || (String.length (trim markdown) =? 0)%nat then []
  else chunkDocument_loop (mergeSmallSections (splitByHeaders markdown)) [] O.

Definition getDocumentTokenCount (markdown : string) : nat :=
  countTokens markdown.
End WithTokenizer.

(** Chunks numbered from [start] on, in order. *)
Definition numbered_from (start : nat) (chunks : list ChunkResult) : Prop :=
  map chunkIndex chunks = seq start (List.length chunks).

(** A stand-in tokenizer for running the chunker: one token per
    whitespace-separated word, a lower bound on what gpt-tokenizer counts,
    whose tokens do not span two words. *)
Definition wordTokens (text : string) : nat :=
  List.length (List.filter truthy (split_whitespace text)).

End Chunker.

(** ** Regular expressions of the link filters (all carry the [i] flag) *)

Module Regex.
Import JsString.

Inductive re :=
| Nul                      (* matches nothing *)
| Eps                      (* the empty string *)
| Chr (c : ascii)          (* one character, compared case-insensitively *)
| Dot                      (* [.]: any character but a line terminator *)
| Cat (r1 r2 : re)
| Alt (r1 r2 : re)
| Star (r : re).

(** A pattern: [^] and [$] (no [m] flag) around a body. *)
Record pattern := { from_start : bool; body : re; to_end : bool }.

Fixpoint lit (s : string) : re :=
  match s with
  | EmptyString => Eps
  | String c s' => Cat (Chr c) (lit s')
  end.

Definition any : re := Star Dot.
Definition opt (r : re) : re := Alt r Eps.

Fixpoint alts (l : list string) : re :=
  match l with
  | [] => Nul
  | [s] => lit s
  | s :: l' => Alt (lit s) (alts l')
  end.

Fixpoint nullable (r : re) : bool :=
  match r with
  | Nul | Chr _ | Dot => false
  | Eps | Star _ => true
  | Cat r1 r2 => nullable r1 && nullable r2
  | Alt r1 r2 => nullable r1 || nullable r2
  end.

Definition cat (r1 r2 : re) : re :=
  match r1, r2 with
  | Nul, _ => Nul
  | _, Nul => Nul
  | Eps, _ => r2
  | _, _ => Cat r1 r2
  end.

Definition alt (r1 r2 : re) : re :=
  match r1, r2 with
  | Nul, _ => r2
  | _, Nul => r1
  | _, _ => Alt r1 r2
  end.

(** Brzozowski derivative. *)
Fixpoint deriv (x : ascii) (r : re) : re :=
  match r with
  | Nul | Eps => Nul
  | Chr c => if Ascii.eqb (lower_char x) (lower_char c) then Eps else Nul
  | Dot => if is_line_terminator x then Nul else Eps
  | Cat r1 r2 =>
      alt (cat (deriv x r1) r2) (if nullable r1 then deriv x r2 else Nul)
  | Alt r1 r2 => alt (deriv x r1) (deriv x r2)
  | Star r1 => cat (deriv x r1) (Star r1)
  end.

(** Does a match of [r] start at the head of [s]?  With [at_end] the match
    has to reach the end of [s]. *)
Fixpoint match_here (at_end : bool) (r : re) (s : string) : bool :=
  match s with
  | EmptyString => nullable r
  | String c s' => (negb at_end && nullable r) || match_here at_end (deriv c r) s'
  end.

Fixpoint search (at_end : bool) (r : re) (s : string) : bool :=
  match_here at_end r s
  || match s with
     | EmptyString => false
     | String _ s' => search at_end r s'
     end.

(** [pattern.test(s)] *)
Definition test (p : pattern) (s : string) : bool :=
  if from_start p then match_here (to_end p) (body p) s
  else search (to_end p) (body p) s.

Definition contains (r : re) : pattern :=
  {| from_start := false; body := r; to_end := false |}.
Definition at_end_of (r : re) : pattern :=
  {| from_start := false; body := r; to_end := true |}.
Definition at_start_of (r : re) : pattern :=
  {| from_start := true; body := r; to_end := false |}.

(** [l1.*l2.* ... ln] *)
Fixpoint seq_any (l : list string) : re :=
  match l with
  | [] => Eps
  | [s] => lit s
  | s :: l' => Cat (lit s) (Cat any (seq_any l'))
  end.
End Regex.

(** ** The platform [URL] class

    [new URL(s)] belongs to the runtime, not to the repository: the parser
    is a Section variable wherever the code calls it.  What the code does
    with a parsed URL (reading [hostname] and [pathname], clearing [hash],
    deleting search parameters, [toString]) is defined on the record. *)

Module Url.
Import JsString.

Record URL := {
  site : string;               (* scheme, [://], credentials, host, port *)
  hostname : string;
  pathname : string;
  query : option string;       (* without the [?]; [None] is the null query *)
  fragment : option string     (* without the [#] *)
}.

(** [u.toString()] / [u.href] *)
Definition href (u : URL) : string :=
  site u +:+ pathname u
  +:+ match query u with Some q => "?" +:+ q | None => "" end
  +:+ match fragment u with Some f => "#" +:+ f | None => "" end.

(** [u.hash = ""] *)
Definition clear_hash (u : URL) : URL :=
  {| site := site u; hostname := hostname u; pathname := pathname u;
     query := query u; fragment := None |}.

(** *** application/x-www-form-urlencoded

    A string stands for its UTF-8 bytes.  The parser percent-decodes the
    bytes of a name or value and decodes them as UTF-8, every ill-formed
    sequence giving U+FFFD; the serializer percent-encodes the UTF-8
    bytes. *)

Definition hex_value (c : ascii) : option nat :=
  let n := nat_of_ascii c in
  if is_digit c then Some (n - 48)%nat
  else if ((65 <=? n) && (n <=? 70))%nat then Some (n - 55)%nat
  else if ((97 <=? n) && (n <=? 102))%nat then Some (n - 87)%nat
  else None.

Definition hex_digit (n : nat) : ascii :=
  if (n <? 10)%nat then ascii_of_nat (48 + n) else ascii_of_nat (55 + n).

Fixpoint percent_decode (l : list ascii) : list ascii :=
  match l with
  | [] => []
  | c :: l' =>
      if Ascii.eqb c "%"%char then
        match l' with
        | a :: b :: rest =>
            match hex_value a, hex_value b with
            | Some x, Some y => ascii_of_nat (16 * x + y) :: percent_decode rest
            | _, _ => c :: percent_decode l'
            end
        | _ => c :: percent_decode l'
        end
      else c :: percent_decode l'
  end.

Definition plus_to_space (c : ascii) : ascii :=
  if Ascii.eqb c "+"%char then SP else c.

(** UTF-8 decoding with replacement, written on the bytes of the result:
    a well-formed sequence is kept, and each maximal ill-formed part
    becomes the three bytes of U+FFFD.  The byte that breaks a sequence is
    read again as the start of the next one. *)
Definition in_range (lo hi : nat) (c : ascii) : bool :=
  let n := nat_of_ascii c in ((lo <=? n) && (n <=? hi))%nat.

Definition replacement : list ascii :=
  [ascii_of_nat 239; ascii_of_nat 191; ascii_of_nat 189].

Inductive utf8_start :=
| Single
| Lead (needed lower upper : nat)
| Stray.

(** The first byte of a sequence: how many bytes must follow, and the
    range of the first of them. *)
Definition utf8_first (c : ascii) : utf8_start :=
  let n := nat_of_ascii c in
  if (n <=? 127)%nat then Single
  else if in_range 194 223 c then Lead 1 128 191
  else if in_range 224 239 c then
    Lead 2 (if (n =? 224)%nat then 160 else 128)%nat
           (if (n =? 237)%nat then 159 else 191)%nat
  else if in_range 240 244 c then
    Lead 3 (if (n =? 240)%nat then 144 else 128)%nat
           (if (n =? 244)%nat then 143 else 191)%nat
  else Stray.

Fixpoint utf8_decode (l : list ascii) : list ascii :=
  match l with
  | [] => []
  | b :: rest =>
      match utf8_first b with
      | Single => b :: utf8_decode rest
      | Stray => replacement ++ utf8_decode rest
      | Lead needed lower upper =>
          match rest with
          | [] => replacement
          | c1 :: r1 =>
              if in_range lower upper c1 then
                match needed with
                | 1%nat => b :: c1 :: utf8_decode r1
                | _ =>
                    match r1 with
                    | [] => replacement
                    | c2 :: r2 =>
                        if in_range 128 191 c2 then
                          match needed with
                          | 2%nat => b :: c1 :: c2 :: utf8_decode r2
                          | _ =>
                              match r2 with
                              | [] => replacement
                              | c3 :: r3 =>
                                  if in_range 128 191 c3
                                  then b :: c1 :: c2 :: c3 :: utf8_decode r3
                                  else replacement ++ utf8_decode r2
                              end
                          end
                        else replacement ++ utf8_decode r1
                    end
                end
              else replacement ++ utf8_decode rest
          end
      end
  end.

Definition decode_component (l : list ascii) : string :=
  str (utf8_decode (percent_decode (map plus_to_space l))).

Fixpoint break_at (c : ascii) (l : list ascii) : list ascii * option (list ascii) :=
  match l with
  | [] => ([], None)
  | x :: l' =>
      if Ascii.eqb x c then ([], Some l')
      else let '(a, b) := break_at c l' in (x :: a, b)
  end.

Definition parse_pair (piece : string) : string * string :=
  let '(name, value) := break_at "="%char (chars piece) in
  (decode_component name,
   decode_component (match value with Some v => v | None => [] end)).

Definition parse_urlencoded (q : string) : list (string * string) :=
  map parse_pair (List.filter truthy (split_char "&"%char q)).

Definition is_alnum (c : ascii) : bool :=
  let n := nat_of_ascii c in
  is_digit c || is_upper c || ((97 <=? n) && (n <=? 122))%nat.

Definition encode_byte (c : ascii) : list ascii :=
  if is_alnum c || Ascii.eqb c "*"%char || Ascii.eqb c "-"%char
     || Ascii.eqb c "."%char || Ascii.eqb c "_"%char then [c]
  else if Ascii.eqb c SP then ["+"%char]
  else let n := nat_of_ascii c in
       ["%"%char; hex_digit (n / 16); hex_digit (n mod 16)].

Definition encode_component (s : string) : string :=
  str (flat_map encode_byte (chars s)).

Definition serialize_urlencoded (l : list (string * string)) : string :=
  join "&" (map (fun '(n, v) => encode_component n +:+ "=" +:+ encode_component v) l).

(** [u.searchParams.delete(n1); ...; u.searchParams.delete(nk)]: the list
    is read from the query once, every [delete] drops the pairs of that
    name and writes the serialized list back (an empty serialization
    makes the query null). *)
Definition searchParams_delete_all (names : list string) (u : URL) : URL :=
  let params := parse_urlencoded (match query u with Some q => q | None => "" end) in
  let kept :=
    fold_left (fun l name => List.filter (fun '(n, _) => negb (String.eqb n name)) l)
              names params in
  let s := serialize_urlencoded kept in
  {| site := site u; hostname := hostname u; pathname := pathname u;
     query := match names with
              | [] => query u
              | _ => if truthy s then Some s else None
              end;
     fragment := fragment u |}.

(** *** A reference parser for plain http(s) URLs

    [scheme://host/path?query#fragment] with scheme [http] or [https]; a
    host of letters, digits, [-] and [.] whose last label starts with a
    letter (no port, no credentials, no numeric address); a path, query and
    fragment made of characters the platform parser leaves as they are, the
    path without dot segments.  On strings of this form the reference
    parser gives the record the platform parser gives.  It answers [None]
    on every other string, which is what the platform does for a string
    with no scheme at all, such as ["not a url"]; the other strings are
    outside the model.  It is used to run the code on concrete URLs. *)

Definition is_alpha (c : ascii) : bool :=
  let n := nat_of_ascii c in
  is_upper c || ((97 <=? n) && (n <=? 122))%nat.

Definition host_char (c : ascii) : bool :=
  is_alnum c || Ascii.eqb c "-"%char || Ascii.eqb c "."%char.

Definition plain_char (c : ascii) : bool :=
  is_alnum c
  || existsb (Ascii.eqb c) (chars "-._~/=&+%").

Fixpoint take_until (stop : ascii -> bool) (l : list ascii)
    : list ascii * list ascii :=
  match l with
  | [] => ([], [])
  | c :: l' =>
      if stop c then ([], l)
      else let '(a, b) := take_until stop l' in (c :: a, b)
  end.

Definition has_dot_segment (path : string) : bool :=
  existsb (fun seg =>
             existsb (String.eqb (toLowerCase seg))
                     ["."; ".."; "%2e"; ".%2e"; "%2e."; "%2e%2e"])
          (split_char "/"%char path).

Definition last_label (host : list ascii) : list ascii :=
  rev (fst (take_until (fun c => Ascii.eqb c "."%char) (rev host))).

Definition strip_scheme (s : string) : option (string * string) :=
  let low := toLowerCase (slice s 0 8) in
  if startsWith low "https://" then Some ("https://", slice_from s 8)
  else if startsWith low "http://" then Some ("http://", slice_from s 7)
  else None.

Definition parse_reference (s : string) : option URL :=
  match strip_scheme s with
  | None => None
  | Some (scheme, rest) =>
      let eqc c x := Ascii.eqb x c in
      let '(host, r1) :=
        take_until (fun x => eqc "/"%char x || eqc "?"%char x || eqc "#"%char x)
                   (chars rest) in
      let '(path, r2) := take_until (fun x => eqc "?"%char x || eqc "#"%char x) r1 in
      let '(q, r3) :=
        match r2 with
        | c :: r2' =>
            if eqc "?"%char c
            then let '(q, r) := take_until (eqc "#"%char) r2' in (Some q, r)
            else (None, r2)
        | [] => (None, [])
        end in
      let f := match r3 with _ :: f => Some f | [] => None end in
      let all_plain l := forallb plain_char l in
      if forallb host_char host
         && match last_label host with c :: _ => is_alpha c | [] => false end
         && all_plain path
         && negb (has_dot_segment (str path))
         && all_plain (match q with Some l => l | None => [] end)
         && all_plain (match f with Some l => l | None => [] end)
      then
        Some {| site := scheme +:+ toLowerCase (str host);
                hostname := toLowerCase (str host);
                pathname := match path with [] => "/" | _ => str path end;
                query := option_map str q;
                fragment := option_map str f |}
      else None
  end.
End Url.

(** ** Running code that may loop or throw *)

Module Run.
(** The result of running a loop with a bound on its iterations. *)
Inductive run (A : Type) :=
| OutOfFuel
| Threw (e : string)
| Done (a : A).
Arguments OutOfFuel {A}.
Arguments Threw {A} e.
Arguments Done {A} a.

Definition bind {A B} (m : run A) (k : A -> run B) : run B :=
  match m with
  | OutOfFuel => OutOfFuel
  | Threw e => Threw e
  | Done a => k a
  end.

(** [f] run with enough fuel always gives [r], and [r] is a result. *)
Definition settles {A} (f : nat -> run A) (r : run A) : Prop :=
  r <> OutOfFuel /\ exists n, forall m, (n <= m)%nat -> f m = r.
End Run.

(** ** Numbers used as scores *)

Module Score.
Definition Qltb (x y : Q) : bool := negb (Qle_bool y x).

(** [Math.max(a, b)] *)
Definition Q_max (a b : Q) : Q := if Qle_bool a b then b else a.

(** [l.sort((a, b) => key(b) - key(a))]: the sort is stable, an element
    goes after the elements it does not beat. *)
Fixpoint insert_desc {A} (key : A -> Q) (x : A) (l : list A) : list A :=
  match l with
  | [] => [x]
  | y :: l' => if Qltb (key x) (key y) then y :: insert_desc key x l' else x :: l
  end.

Definition sort_desc {A} (key : A -> Q) (l : list A) : list A :=
  fold_right (insert_desc key) [] l.

(** Descending order of scores. *)
Definition desc {A} (key : A -> Q) (a b : A) : Prop := (key b <= key a)%Q.

(** [l.slice(from, to)] on an array, negative indices counting from the
    end. *)
Definition clamp_index (len k : Z) : Z :=
  if k <? 0 then Z.max (len + k) 0 else Z.min k len.

Definition js_slice {A} (l : list A) (from to : Z) : list A :=
  let len := Z.of_nat (List.length l) in
  let a := clamp_index len from in
  let b := clamp_index len to in
  firstn (Z.to_nat (b - a)) (skipn (Z.to_nat a) l).

(** [l[i]] for a number [i] that is an integer. *)
Definition js_index {A} (l : list A) (i : Z) : option A :=
  if i <? 0 then None else nth_error l (Z.to_nat i).
End Score.

(** ** Link records and the pre-List.filter ([src/scraper/extractor.ts]) *)

Module Extractor.
Import JsString Regex Url.

Record LinkAttributes := {
  attr_title : option string;
  attr_rel : option string;
  attr_type : option string
}.

Record ExtractedLink := {
  url : string;
  anchorText : string;
  context : string;
  attributes : LinkAttributes
}.

Record PageContent := {
  page_url : string;
  page_title : string;
  markdown : string;
  links : list ExtractedLink
}.

Definition skipPatterns : list pattern :=
  [ at_end_of (Cat (Chr ".")
      (alts ["jpg"; "jpeg"; "png"; "gif"; "svg"; "ico"; "css"; "js";
             "woff"; "woff2"; "ttf"; "eot"]));
    at_start_of (Cat (lit "http") (Cat (opt (Chr "s")) (Cat (lit "://")
      (Cat (opt (lit "www."))
      (Cat (alts ["facebook"; "twitter"; "instagram"; "linkedin";
                  "youtube"; "tiktok"]) (Chr "."))))));
    contains (lit "/share?");
    contains (lit "/login");
    contains (lit "/signin");
    contains (lit "/signup");
    contains (lit "/cart");
    contains (lit "/search?");
    contains (lit "?utm_") ].

Definition valuableExternalPatterns : list pattern :=
  [ contains (lit ".gov/");
    contains (lit ".edu/");
    contains (lit "budget");
    contains (lit "finance");
    contains (lit "procurement");
    contains (lit "rfp");
    contains (lit "bid") ].

Section WithPlatform.
Variable URL_parse : string -> option URL.

(** What the browser answers for a URL: title, markdown and links of the
    page, or nothing on a timeout, a non-2xx status or a renderer
    error. *)
Variable fetchPage : string -> option (string * string * list ExtractedLink).

(** [extractLinksFromUrl], for a browser whose pages open and close: the
    outcome of its [try] block.  The page carries the URL it was asked
    for.  [CrawlEffects.extractLinksFromUrl_full] adds the opening and the
    closing of the page, which may throw. *)
Definition extractLinksFromUrl (u : string) : option PageContent :=
  match fetchPage u with
  | Some (t, md, ls) =>
      Some {| page_url := u; page_title := t; markdown := md; links := ls |}
  | None => None
  end.

Definition keep_link (base : URL) (link : ExtractedLink) : bool :=
  match URL_parse (url link) with
  | None => false
  | Some linkUrl =>
      if existsb (fun p => test p (url link)) skipPatterns then false
      else
        let sameDomain :=
          String.eqb (hostname linkUrl) (hostname base)
          || endsWith (hostname linkUrl) ("." +:+ hostname base)
          || endsWith (hostname base) ("." +:+ hostname linkUrl) in
        if negb sameDomain
        then existsb (fun p => test p (url link)) valuableExternalPatterns
        else true
  end.

(** [preFilterLinks]: [new URL(baseUrl)] is outside the [try]. *)
Definition preFilterLinks (ls : list ExtractedLink) (baseUrl : string)
    : Run.run (list ExtractedLink) :=
  match URL_parse baseUrl with
  | None => Run.Threw "Invalid URL"
  | Some base => Run.Done (List.filter (keep_link base) ls)
  end.
End WithPlatform.
End Extractor.

(** ** Link ranker ([src/scraper/ranker.ts]) *)

Module Ranker.
Import JsString Regex Score Extractor Run.

Inductive LinkCategory :=
| budget | finance | procurement | contact | meeting
| policy | project | department | document | other.

Record RankedLink := {
  link : ExtractedLink;        (* the spread [...link] *)
  relevanceScore : Q;
  category : LinkCategory;
  rationale : string
}.

Record RankerConfig := {
  priorityKeywords : list string;
  minRelevanceScore : Q;
  batchSize : Z
}.

(** [Partial<RankerConfig>] *)
Record RankerOverrides := {
  o_priorityKeywords : option (list string);
  o_minRelevanceScore : option Q;
  o_batchSize : option Z
}.

Definition no_overrides : RankerOverrides :=
  {| o_priorityKeywords := None; o_minRelevanceScore := None; o_batchSize := None |}.

Definition DEFAULT_CONFIG : RankerConfig :=
  {| priorityKeywords :=
       ["ACFR"; "Annual Comprehensive Financial Report"; "Budget"; "Finance";
        "Finance Director"; "CFO"; "Treasurer"; "Procurement"; "RFP";
        "Request for Proposal"; "Bid"; "Contract"; "Capital"; "Project";
        "Infrastructure"];
     minRelevanceScore := 3 # 10;
     batchSize := 50 |}.

(** [{ ...DEFAULT_CONFIG, ...config }] *)
Definition merge_ranker_config (config : RankerOverrides) : RankerConfig :=
  {| priorityKeywords :=
       match o_priorityKeywords config with Some k => k | None => priorityKeywords DEFAULT_CONFIG end;
     minRelevanceScore :=
       match o_minRelevanceScore config with Some m => m | None => minRelevanceScore DEFAULT_CONFIG end;
     batchSize :=
       match o_batchSize config with Some b => b | None => batchSize DEFAULT_CONFIG end |}.

(** One element of [RankingResponse.rankedLinks]. *)
Record Ranking := {
  r_index : Z;
  r_relevanceScore : Q;
  r_category : LinkCategory;
  r_rationale : string
}.

Definition default_ranked (l : ExtractedLink) : RankedLink :=
  {| link := l; relevanceScore := 1 # 10; category := other;
     rationale := "Error during ranking" |}.

Section WithClassifier.
(** The classification service behind [chatCompletion]: its answer to
    the prompt built from the configuration and the batch, on the
    [n]-th call of the run; [None] when the call throws. *)
Variable chatCompletion : nat -> RankerConfig -> list ExtractedLink -> option (list Ranking).

Definition rankBatch (calls : nat) (ls : list ExtractedLink) (config : RankerConfig)
    : list RankedLink :=
  match chatCompletion calls config ls with
  | Some rankedLinks =>
      omap (fun ranking =>
              match js_index ls (r_index ranking) with
              | None => None
              | Some l =>
                  Some {| link := l;
                          relevanceScore := r_relevanceScore ranking;
                          category := r_category ranking;
                          rationale := r_rationale ranking |}
              end) rankedLinks
  | None => map default_ranked ls
  end.

(** [for (let i = 0; i < links.length; i += cfg.batchSize)] *)
Fixpoint rankLinks_loop (fuel : nat) (ls : list ExtractedLink) (cfg : RankerConfig)
    (i : Z) (rankedLinks : list RankedLink) (calls : nat)
    : run (list RankedLink * nat) :=
  match fuel with
  | O => OutOfFuel
  | S fuel' =>
      if i <? Z.of_nat (List.length ls) then
        let batch := js_slice ls i (i + batchSize cfg) in
        let batchRanked := rankBatch calls batch cfg in
        rankLinks_loop fuel' ls cfg (i + batchSize cfg)
          (rankedLinks ++ batchRanked) (S calls)
      else Done (sort_desc relevanceScore rankedLinks, calls)
  end.

(** [rankLinks]; the second component counts the classifier calls made
    so far. *)
Definition rankLinks (fuel : nat) (calls : nat) (ls : list ExtractedLink)
    (config : RankerOverrides) : run (list RankedLink * nat) :=
  let cfg := merge_ranker_config config in
  if (List.length ls =? 0)%nat then Done ([], calls)
  else rankLinks_loop fuel ls cfg 0 [] calls.
End WithClassifier.

Definition highValuePatterns : list (pattern * Q) :=
  [ (contains (lit "budget"), 9 # 10);
    (contains (lit "acfr"), 95 # 100);
    (contains (seq_any ["annual"; "financial"; "report"]), 95 # 100);
    (contains (seq_any ["financial"; "report"]), 85 # 100);
    (contains (lit "finance"), 8 # 10);
    (contains (lit "treasurer"), 8 # 10);
    (contains (Alt (lit "cfo") (seq_any ["chief"; "financial"])), 85 # 100);
    (contains (lit "procurement"), 9 # 10);
    (contains (alts ["rfp"; "rfq"; "rfi"]), 95 # 100);
    (contains (alts ["bid"; "bidding"]), 85 # 100);
    (contains (lit "solicitation"), 9 # 10);
    (contains (lit "vendor"), 7 # 10);
    (contains (lit "contract"), 75 # 100);
    (contains (lit "contact"), 6 # 10);
    (contains (lit "directory"), 65 # 100);
    (contains (lit "staff"), 55 # 100);
    (contains (lit "agenda"), 7 # 10);
    (contains (lit "minutes"), 7 # 10);
    (contains (seq_any ["board"; "meeting"]), 75 # 100);
    (contains (seq_any ["council"; "meeting"]), 75 # 100);
    (at_end_of (lit ".pdf"), 5 # 10);
    (contains (lit "document"), 5 # 10);
    (contains (seq_any ["capital"; "project"]), 85 # 100);
    (contains (seq_any ["capital"; "improvement"]), 85 # 100) ].

Definition textToCheck (l : ExtractedLink) : string :=
  toLowerCase (url l +:+ " " +:+ anchorText l +:+ " " +:+ context l).

(** The inner [for] of [heuristicRank], over any weight table. *)
Definition max_weight (table : list (pattern * Q)) (text : string) : Q :=
  fold_left (fun maxScore '(p, weight) =>
               if test p text then Q_max maxScore weight else maxScore)
            table 0%Q.

(** The weights of the patterns of a table that match a text. *)
Definition matched_weights (table : list (pattern * Q)) (text : string) : list Q :=
  map snd (List.filter (fun pw => test (fst pw) text) table).

Definition heuristicScore (l : ExtractedLink) : Q :=
  max_weight highValuePatterns (textToCheck l).

Definition heuristicRank (ls : list ExtractedLink) : list ExtractedLink :=
  let scored := map (fun l => (l, heuristicScore l)) ls in
  map fst (sort_desc snd (List.filter (fun s => Qltb 0 (snd s)) scored)).

Definition filterByScore (ls : list RankedLink) (minScore : Q) : list RankedLink :=
  List.filter (fun l => Qle_bool minScore (relevanceScore l)) ls.
End Ranker.

(** ** Crawler ([src/scraper/crawler.ts]) *)

Module Crawler.
Import JsString Url Score Extractor Ranker Run.

Record CrawlerConfig := {
  maxDepth : Z;
  maxPages : Z;
  minScoreToFollow : Q;
  requestDelayMs : Z;
  concurrency : Z;
  useLlmRanking : bool;
  rankerConfig : option RankerOverrides;
  sameDomainOnly : bool
}.

(** [Partial<CrawlerConfig>] *)
Record CrawlerOverrides := {
  o_maxDepth : option Z;
  o_maxPages : option Z;
  o_minScoreToFollow : option Q;
  o_requestDelayMs : option Z;
  o_concurrency : option Z;
  o_useLlmRanking : option bool;
  o_rankerConfig : option RankerOverrides;
  o_sameDomainOnly : option bool
}.

Definition DEFAULT_CONFIG : CrawlerConfig :=
  {| maxDepth := 2; maxPages := 50; minScoreToFollow := 5 # 10;
     requestDelayMs := 1000; concurrency := 1; useLlmRanking := true;
     rankerConfig := None; sameDomainOnly := true |}.

Definition or_default {A} (o : option A) (d : A) : A :=
  match o with Some a => a | None => d end.

(** [{ ...DEFAULT_CONFIG, ...config }] *)
Definition with_defaults (config : CrawlerOverrides) : CrawlerConfig :=
  {| maxDepth := or_default (o_maxDepth config) (maxDepth DEFAULT_CONFIG);
     maxPages := or_default (o_maxPages config) (maxPages DEFAULT_CONFIG);
     minScoreToFollow :=
       or_default (o_minScoreToFollow config) (minScoreToFollow DEFAULT_CONFIG);
     requestDelayMs :=
       or_default (o_requestDelayMs config) (requestDelayMs DEFAULT_CONFIG);
     concurrency := or_default (o_concurrency config) (concurrency DEFAULT_CONFIG);
     useLlmRanking :=
       or_default (o_useLlmRanking config) (useLlmRanking DEFAULT_CONFIG);
     rankerConfig := o_rankerConfig config;
     sameDomainOnly :=
       or_default (o_sameDomainOnly config) (sameDomainOnly DEFAULT_CONFIG) |}.

(** The argument of [onProgress], one per fetch. *)
Record CrawlProgress := {
  pagesProcessed : nat;
  pagesQueued : nat;
  linksFound : nat;
  highValueLinksFound : nat;
  currentUrl : string;
  currentDepth : Z
}.

Record CrawlStats := {
  totalPagesProcessed : nat;
  totalLinksFound : nat;
  totalHighValueLinks : nat;
  stat_errors : list (string * string)
}.

Record CrawlResult := {
  result_pages : list PageContent;
  rankedLinks : list RankedLink;
  stats : CrawlStats
}.

Record QueueItem := {
  q_url : string;
  depth : Z;
  parentUrl : option string;
  score : option Q
}.

(** The variables of [crawl], with the calls it makes to the outside:
    the [onProgress] reports, the politeness sleeps and the number of
    classifier calls. *)
Record CrawlState := {
  visited : gset string;
  queue : list QueueItem;
  pages : list PageContent;
  allRankedLinks : list RankedLink;
  errors : list (string * string);
  reports : list CrawlProgress;
  sleeps : list Z;
  calls : nat
}.

(** [b.score || 0] *)
Definition score_or_zero (item : QueueItem) : Q :=
  match score item with Some s => s | None => 0%Q end.

Definition count_high_value (ls : list RankedLink) : nat :=
  List.length (List.filter (fun l => Qle_bool (7 # 10) (relevanceScore l)) ls).

(** [d.replace(/^www\./, "")] *)
Definition strip_www (d : string) : string :=
  if startsWith d "www." then slice_from d 4 else d.

Definition isSameDomain (domain1 domain2 : string) : bool :=
  if String.eqb domain1 domain2 then true
  else
    let d1 := strip_www domain1 in
    let d2 := strip_www domain2 in
    if String.eqb d1 d2 then true
    else endsWith d2 ("." +:+ d1) || endsWith d1 ("." +:+ d2).

Definition tracking_params : list string :=
  ["utm_source"; "utm_medium"; "utm_campaign"; "fbclid"; "gclid"].

Section WithWorld.
Variable URL_parse : string -> option URL.
Variable fetchPage : string -> option (string * string * list ExtractedLink).
Variable chatCompletion : nat -> RankerConfig -> list ExtractedLink -> option (list Ranking).

Definition normalizeUrl (u : string) : string :=
  match URL_parse u with
  | None => u
  | Some parsed =>
      let parsed := searchParams_delete_all tracking_params (clear_hash parsed) in
      let normalized := href parsed in
      if endsWith normalized "/" && negb (String.eqb (pathname parsed) "/")
      then drop_last normalized
      else normalized
  end.

(** The ranking branch of the loop body. *)
Definition rank_page (fuel : nat) (cfg : CrawlerConfig) (calls : nat)
    (filtered : list ExtractedLink) : run (list RankedLink * nat) :=
  if useLlmRanking cfg then
    let heuristicFiltered := heuristicRank filtered in
    if (0 <? List.length heuristicFiltered)%nat
    then rankLinks chatCompletion fuel calls heuristicFiltered
           (or_default (rankerConfig cfg) no_overrides)
    else Done ([], calls)
  else
    Done (map (fun l => {| link := l; relevanceScore := 5 # 10;
                           category := other;
                           rationale := "Heuristic match" |})
              (heuristicRank filtered), calls).

(** The items pushed for the high-value links of a page. *)
Definition new_items (vis : gset string) (item : QueueItem)
    (normalizedUrl : string) (highValue : list RankedLink) : list QueueItem :=
  map (fun l => {| q_url := url (link l);
                   depth := depth item + 1;
                   parentUrl := Some normalizedUrl;
                   score := Some (relevanceScore l) |})
      (List.filter (fun l => negb (bool_decide (normalizeUrl (url (link l)) ∈ vis)))
              highValue).

(** The part of the loop body that follows [pages.push(pageContent)]. *)
Definition process_page (fuel : nat) (cfg : CrawlerConfig) (item : QueueItem)
    (normalizedUrl : string) (pageContent : PageContent) (st : CrawlState)
    : run CrawlState :=
  let sleep_if_queued (s : CrawlState) : CrawlState :=
    {| visited := visited s; queue := queue s; pages := pages s;
       allRankedLinks := allRankedLinks s; errors := errors s;
       reports := reports s;
       sleeps := if (0 <? List.length (queue s))%nat
                 then sleeps s ++ [requestDelayMs cfg] else sleeps s;
       calls := calls s |} in
  if (depth item <? maxDepth cfg) && (0 <? List.length (links pageContent))%nat then
    bind (preFilterLinks URL_parse (links pageContent) normalizedUrl) (fun filtered =>
    bind (rank_page fuel cfg (calls st) filtered) (fun '(ranked, calls') =>
      let highValue := filterByScore ranked (minScoreToFollow cfg) in
      Done (sleep_if_queued
        {| visited := visited st;
           queue := queue st ++ new_items (visited st) item normalizedUrl highValue;
           pages := pages st;
           allRankedLinks := allRankedLinks st ++ ranked;
           errors := errors st; reports := reports st; sleeps := sleeps st;
           calls := calls' |})))
  else Done (sleep_if_queued st).

(** One iteration of the [while] loop, entered with a non-empty queue. *)
Definition crawl_iteration (fuel : nat) (cfg : CrawlerConfig) (seedDomain : string)
    (st : CrawlState) : run CrawlState :=
  match sort_desc score_or_zero (queue st) with
  | [] => Done st
  | item :: rest =>
      let st1 :=
        {| visited := visited st; queue := rest; pages := pages st;
           allRankedLinks := allRankedLinks st; errors := errors st;
           reports := reports st; sleeps := sleeps st; calls := calls st |} in
      let normalizedUrl := normalizeUrl (q_url item) in
      if bool_decide (normalizedUrl ∈ visited st) then Done st1
      else if sameDomainOnly cfg
              && match URL_parse normalizedUrl with
                 | Some u => negb (isSameDomain seedDomain (hostname u))
                 | None => true
                 end
      then Done st1
      else
        let progress :=
          {| pagesProcessed := List.length (pages st);
             pagesQueued := List.length rest;
             linksFound := List.length (allRankedLinks st);
             highValueLinksFound := count_high_value (allRankedLinks st);
             currentUrl := normalizedUrl;
             currentDepth := depth item |} in
        let st2 :=
          {| visited := {[normalizedUrl]} ∪ visited st; queue := rest;
             pages := pages st; allRankedLinks := allRankedLinks st;
             errors := errors st; reports := reports st ++ [progress];
             sleeps := sleeps st; calls := calls st |} in
        match extractLinksFromUrl fetchPage normalizedUrl with
        | None =>
            Done {| visited := visited st2; queue := queue st2; pages := pages st2;
                    allRankedLinks := allRankedLinks st2;
                    errors := errors st2 ++ [(normalizedUrl, "Failed to fetch")];
                    reports := reports st2; sleeps := sleeps st2;
                    calls := calls st2 |}
        | Some pageContent =>
            process_page fuel cfg item normalizedUrl pageContent
              {| visited := visited st2; queue := queue st2;
                 pages := pages st2 ++ [pageContent];
                 allRankedLinks := allRankedLinks st2; errors := errors st2;
                 reports := reports st2; sleeps := sleeps st2;
                 calls := calls st2 |}
        end
  end.

(** [queue.length > 0 && pages.length < cfg.maxPages] *)
Definition loop_guard (cfg : CrawlerConfig) (st : CrawlState) : bool :=
  (0 <? List.length (queue st))%nat
  && (Z.of_nat (List.length (pages st)) <? maxPages cfg).

Fixpoint crawl_loop (fuel : nat) (cfg : CrawlerConfig) (seedDomain : string)
    (st : CrawlState) : run CrawlState :=
  match fuel with
  | O => OutOfFuel
  | S fuel' =>
      if loop_guard cfg st
      then bind (crawl_iteration fuel' cfg seedDomain st)
                (crawl_loop fuel' cfg seedDomain)
      else Done st
  end.

Definition initial_state (normalizedSeed : string) : CrawlState :=
  {| visited := ∅;
     queue := [{| q_url := normalizedSeed; depth := 0;
                  parentUrl := None; score := None |}];
     pages := []; allRankedLinks := []; errors := [];
     reports := []; sleeps := []; calls := O |}.

Definition result_of (st : CrawlState) : CrawlResult :=
  {| result_pages := pages st;
     rankedLinks := allRankedLinks st;
     stats := {| totalPagesProcessed := List.length (pages st);
                 totalLinksFound := List.length (allRankedLinks st);
                 totalHighValueLinks := count_high_value (allRankedLinks st);
                 stat_errors := errors st |} |}.

(** The state in which the [while] loop of [crawl] ends;
    [new URL(normalizedSeed)] throws on a seed that does not parse.  The
    browser is taken to start and to close and the progress callback to
    return; [CrawlEffects.crawl_full] is [crawl] with the exceptions these
    may throw. *)
Definition crawl_run (fuel : nat) (seedUrl : string) (config : CrawlerOverrides)
    : run CrawlState :=
  let cfg := with_defaults config in
  let normalizedSeed := normalizeUrl seedUrl in
  match URL_parse normalizedSeed with
  | None => Threw "Invalid URL"
  | Some u => crawl_loop fuel cfg (hostname u) (initial_state normalizedSeed)
  end.

Definition crawl (fuel : nat) (seedUrl : string) (config : CrawlerOverrides)
    : run CrawlResult :=
  bind (crawl_run fuel seedUrl config) (fun st => Done (result_of st)).

(** The states the loop goes through, each at its loop head. *)
Inductive reaches (cfg : CrawlerConfig) (seedDomain : string)
    : CrawlState -> CrawlState -> Prop :=
| reaches_refl st : reaches cfg seedDomain st st
| reaches_step fuel st st1 st2 :
    reaches cfg seedDomain st st1 ->
    loop_guard cfg st1 = true ->
    crawl_iteration fuel cfg seedDomain st1 = Done st2 ->
    reaches cfg seedDomain st st2.

(** [item] is what [queue.shift()] returns in the iteration that starts
    in [st]. *)
Definition dequeues (cfg : CrawlerConfig) (st : CrawlState) (item : QueueItem) : Prop :=
  loop_guard cfg st = true /\
  exists rest, sort_desc score_or_zero (queue st) = item :: rest.
End WithWorld.
(** *** What the loop keeps true *)

Section Invariants.
Variable URL_parse : string -> option URL.
Variable cfg : CrawlerConfig.

(** What one iteration does to the state, by the way it ends. *)
Inductive iteration_effect (st st' : CrawlState) (item : QueueItem)
    (rest : list QueueItem) : Prop :=
| Skipped :
    visited st' = visited st -> queue st' = rest -> pages st' = pages st ->
    reports st' = reports st -> sleeps st' = sleeps st ->
    iteration_effect st st' item rest
| FetchFailed r :
    normalizeUrl URL_parse (q_url item) ∉ visited st ->
    visited st' = {[normalizeUrl URL_parse (q_url item)]} ∪ visited st ->
    reports st' = reports st ++ [r] ->
    currentUrl r = normalizeUrl URL_parse (q_url item) -> currentDepth r = depth item ->
    queue st' = rest -> pages st' = pages st -> sleeps st' = sleeps st ->
    iteration_effect st st' item rest
| Fetched r page new :
    normalizeUrl URL_parse (q_url item) ∉ visited st ->
    visited st' = {[normalizeUrl URL_parse (q_url item)]} ∪ visited st ->
    reports st' = reports st ++ [r] ->
    currentUrl r = normalizeUrl URL_parse (q_url item) -> currentDepth r = depth item ->
    page_url page = normalizeUrl URL_parse (q_url item) ->
    pages st' = pages st ++ [page] ->
    queue st' = rest ++ new ->
    Forall (fun it => depth it = depth item + 1 /\ depth item < maxDepth cfg) new ->
    sleeps st' = sleeps st \/ sleeps st' = sleeps st ++ [requestDelayMs cfg] ->
    iteration_effect st st' item rest.

(** Each URL is fetched at most once. *)
Definition fetch_once (st : CrawlState) : Prop :=
  List.NoDup (map page_url (pages st))
  /\ List.NoDup (map currentUrl (reports st))
  /\ (forall p, In p (pages st) -> page_url p ∈ visited st)
  /\ (forall r, In r (reports st) -> currentUrl r ∈ visited st)
  /\ (forall p, In p (pages st) -> exists u, page_url p = normalizeUrl URL_parse u).

(** Nothing is fetched deeper than [maxDepth]. *)
Definition depth_bounded (st : CrawlState) : Prop :=
  Forall (fun it => depth it <= maxDepth cfg) (queue st)
  /\ Forall (fun r => currentDepth r <= maxDepth cfg) (reports st)
  /\ (forall p, In p (pages st) ->
        exists r, In r (reports st) /\ currentUrl r = page_url p).

(** The page budget and the pace of the requests. *)
Definition within_budget (st : CrawlState) : Prop :=
  Z.of_nat (List.length (pages st)) <= maxPages cfg.

Definition paced (st : CrawlState) : Prop :=
  Forall (fun ms => ms = requestDelayMs cfg) (sleeps st).

(** Pages that may still be fetched. *)
Definition pages_left (st : CrawlState) : nat :=
  Z.to_nat (maxPages cfg - Z.of_nat (List.length (pages st))).

End Invariants.
End Crawler.

(** ** robots.txt and the scraper entry point
       ([getRobotsInfo], [isUrlAllowed] in crawler.ts; [scrape] in index.ts) *)

Module Scraper.
Import JsString Url Score Extractor Ranker Run Crawler.

(** [parseInt(s)] without a radix: optional sign, [0x] prefix for
    hexadecimal, then the longest run of digits; [None] is [NaN].  The
    value is the integer the digits denote; JavaScript returns the double
    nearest to it, which is that integer up to 2^53. *)
Definition digit_value (radix : nat) (c : ascii) : option Z :=
  match hex_value c with
  | Some v => if (v <? radix)%nat then Some (Z.of_nat v) else None
  | None => None
  end.

Fixpoint parse_digits (radix : nat) (l : list ascii) (acc : option Z) : option Z :=
  match l with
  | [] => acc
  | c :: l' =>
      match digit_value radix c with
      | Some v =>
          parse_digits radix l'
            (Some (Z.of_nat radix * match acc with Some a => a | None => 0 end + v))
      | None => acc
      end
  end.

Definition parseInt (s : string) : option Z :=
  let l := drop_spaces (chars s) in
  let '(sign, l) :=
    match l with
    | c :: l' =>
        if Ascii.eqb c "-"%char then (-1, l')
        else if Ascii.eqb c "+"%char then (1, l')
        else (1, l)
    | [] => (1, l)
    end in
  let '(radix, l) :=
    match l with
    | z :: x :: l' =>
        if Ascii.eqb z "0"%char && (Ascii.eqb x "x"%char || Ascii.eqb x "X"%char)
        then (16%nat, l') else (10%nat, l)
    | _ => (10%nat, l)
    end in
  option_map (Z.mul sign) (parse_digits radix l None).

Record RobotsInfo := {
  crawlDelay : option Z;
  disallowed : list string
}.

(** The variables of the line loop of [getRobotsInfo]. *)
Record RobotsScan := {
  scan_crawlDelay : option Z;
  scan_disallowed : list string;
  inUserAgentAll : bool
}.

Definition robots_line (st : RobotsScan) (line : string) : RobotsScan :=
  let trimmed := toLowerCase (trim line) in
  if startsWith trimmed "user-agent:" then
    let agent := trim (strip_prefix trimmed "user-agent:") in
    {| scan_crawlDelay := scan_crawlDelay st;
       scan_disallowed := scan_disallowed st;
       inUserAgentAll := String.eqb agent "*" |}
  else if inUserAgentAll st then
    if startsWith trimmed "crawl-delay:" then
      match parseInt (trim (strip_prefix trimmed "crawl-delay:")) with
      | Some delay =>
          {| scan_crawlDelay := Some (delay * 1000);
             scan_disallowed := scan_disallowed st;
             inUserAgentAll := inUserAgentAll st |}
      | None => st
      end
    else if startsWith trimmed "disallow:" then
      let path := trim (strip_prefix trimmed "disallow:") in
      if truthy path then
        {| scan_crawlDelay := scan_crawlDelay st;
           scan_disallowed := scan_disallowed st ++ [path];
           inUserAgentAll := inUserAgentAll st |}
      else st
    else st
  else st.

(** Lines that open an agent block, and lines that set a crawl delay. *)
Definition names_agent (l : string) : bool :=
  startsWith (toLowerCase (trim l)) "user-agent:".

Definition sets_delay (l : string) : bool :=
  startsWith (toLowerCase (trim l)) "crawl-delay:".

Definition scan_start : RobotsScan :=
  {| scan_crawlDelay := None; scan_disallowed := []; inUserAgentAll := false |}.

Definition scan_lines (lines : list string) : RobotsScan :=
  fold_left robots_line lines scan_start.

Definition parse_robots (text : string) : RobotsInfo :=
  let st := scan_lines (split_char LF text) in
  {| crawlDelay := scan_crawlDelay st; disallowed := scan_disallowed st |}.

Section WithNetwork.
Variable URL_parse : string -> option URL.
Variable fetchPage : string -> option (string * string * list ExtractedLink).
Variable chatCompletion : nat -> RankerConfig -> list ExtractedLink -> option (list Ranking).

(** The body of [/robots.txt] for a base URL when the request succeeds
    with an ok status; [None] when it throws, times out or is not ok. *)
Variable fetchRobots : string -> option string.

Definition getRobotsInfo (baseUrl : string) : RobotsInfo :=
  match fetchRobots baseUrl with
  | Some text => parse_robots text
  | None => {| crawlDelay := None; disallowed := [] |}
  end.

Definition isUrlAllowed (u : string) (rules : list string) : bool :=
  match URL_parse u with
  | None => false
  | Some parsed =>
      let path := pathname parsed in
      forallb (fun rule => negb (String.eqb rule "/" || startsWith path rule)) rules
  end.

(** The crawl-related part of [DEFAULT_SCRAPER_CONFIG]. *)
Definition DEFAULT_SCRAPER_CONFIG : CrawlerOverrides :=
  {| o_maxDepth := Some 2; o_maxPages := Some 20;
     o_minScoreToFollow := Some (5 # 10); o_requestDelayMs := Some 1000;
     o_concurrency := None; o_useLlmRanking := Some true;
     o_rankerConfig := None; o_sameDomainOnly := Some true |}.

Definition first_some {A} (a b : option A) : option A :=
  match a with Some _ => a | None => b end.

(** [{ ...DEFAULT_SCRAPER_CONFIG, ...config }] *)
Definition merge_scraper_config (config : CrawlerOverrides) : CrawlerOverrides :=
  let d := DEFAULT_SCRAPER_CONFIG in
  {| o_maxDepth := first_some (o_maxDepth config) (o_maxDepth d);
     o_maxPages := first_some (o_maxPages config) (o_maxPages d);
     o_minScoreToFollow := first_some (o_minScoreToFollow config) (o_minScoreToFollow d);
     o_requestDelayMs := first_some (o_requestDelayMs config) (o_requestDelayMs d);
     o_concurrency := first_some (o_concurrency config) (o_concurrency d);
     o_useLlmRanking := first_some (o_useLlmRanking config) (o_useLlmRanking d);
     o_rankerConfig := first_some (o_rankerConfig config) (o_rankerConfig d);
     o_sameDomainOnly := first_some (o_sameDomainOnly config) (o_sameDomainOnly d) |}.

(** [x || 1000] on a number that may be missing. *)
Definition or_1000 (x : option Z) : Z :=
  match x with
  | Some v => if v =? 0 then 1000 else v
  | None => 1000
  end.

(** The robots.txt check of [scrape]: [if (robotsInfo.crawlDelay)] is
    taken for a delay that is present and not zero. *)
Definition apply_robots (cfg : CrawlerOverrides) (robotsInfo : RobotsInfo)
    : CrawlerOverrides :=
  match crawlDelay robotsInfo with
  | Some d =>
      if d =? 0 then cfg
      else
        {| o_maxDepth := o_maxDepth cfg; o_maxPages := o_maxPages cfg;
           o_minScoreToFollow := o_minScoreToFollow cfg;
           o_requestDelayMs := Some (Z.max (or_1000 (o_requestDelayMs cfg)) d);
           o_concurrency := o_concurrency cfg;
           o_useLlmRanking := o_useLlmRanking cfg;
           o_rankerConfig := o_rankerConfig cfg;
           o_sameDomainOnly := o_sameDomainOnly cfg |}
  | None => cfg
  end.

(** The configuration [scrape] hands to [crawl]. *)
Definition scrape_config (seedUrl : string) (config : CrawlerOverrides)
    : CrawlerOverrides :=
  apply_robots (merge_scraper_config config) (getRobotsInfo seedUrl).

(** [scrape] up to the crawl; storing the pages is left to the
    collaborators. *)
Definition scrape_run (fuel : nat) (seedUrl : string) (config : CrawlerOverrides)
    : run CrawlState :=
  crawl_run URL_parse fetchPage chatCompletion fuel seedUrl
    (scrape_config seedUrl config).

Definition scrape (fuel : nat) (seedUrl : string) (config : CrawlerOverrides)
    : run CrawlResult :=
  bind (scrape_run fuel seedUrl config) (fun st => Done (result_of st)).
End WithNetwork.
End Scraper.

(** ** More of the ranker and the extractor

    [groupByCategory] of ranker.ts and [deduplicateLinks] of extractor.ts. *)

Module LinkTools.
Import JsString Score Extractor Ranker.

Definition category_eqb (a b : LinkCategory) : bool :=
  match a, b with
  | budget, budget | finance, finance | procurement, procurement
  | contact, contact | meeting, meeting | policy, policy
  | project, project | department, department | document, document
  | other, other => true
  | _, _ => false
  end.

(** [Record<LinkCategory, RankedLink[]>] *)
Record Groups := {
  g_budget : list RankedLink;
  g_finance : list RankedLink;
  g_procurement : list RankedLink;
  g_contact : list RankedLink;
  g_meeting : list RankedLink;
  g_policy : list RankedLink;
  g_project : list RankedLink;
  g_department : list RankedLink;
  g_document : list RankedLink;
  g_other : list RankedLink
}.

Definition empty_groups : Groups :=
  {| g_budget := []; g_finance := []; g_procurement := []; g_contact := [];
     g_meeting := []; g_policy := []; g_project := []; g_department := [];
     g_document := []; g_other := [] |}.

(** [groups[c]] *)
Definition group (c : LinkCategory) (g : Groups) : list RankedLink :=
  match c with
  | budget => g_budget g | finance => g_finance g
  | procurement => g_procurement g | contact => g_contact g
  | meeting => g_meeting g | policy => g_policy g
  | project => g_project g | department => g_department g
  | document => g_document g | other => g_other g
  end.

(** [groups[link.category].push(link)] *)
Definition push_group (g : Groups) (l : RankedLink) : Groups :=
  let add c := if category_eqb (category l) c then group c g ++ [l] else group c g in
  {| g_budget := add budget; g_finance := add finance;
     g_procurement := add procurement; g_contact := add contact;
     g_meeting := add meeting; g_policy := add policy;
     g_project := add project; g_department := add department;
     g_document := add document; g_other := add other |}.

Definition groupByCategory (ls : list RankedLink) : Groups :=
  fold_left push_group ls empty_groups.

Definition all_categories : list LinkCategory :=
  [budget; finance; procurement; contact; meeting; policy; project;
   department; document; other].

(** *** [deduplicateLinks]

    The [Map] keeps its keys in the order of their first [set]; a [set] on
    a key that is present replaces the value where it stands. *)

Definition LinkMap := list (string * ExtractedLink).

Definition map_get (k : string) (m : LinkMap) : option ExtractedLink :=
  option_map snd (find (fun p => String.eqb (fst p) k) m).

Fixpoint map_set (k : string) (v : ExtractedLink) (m : LinkMap) : LinkMap :=
  match m with
  | [] => [(k, v)]
  | (k', v') :: m' =>
      if String.eqb k' k then (k, v) :: m' else (k', v') :: map_set k v m'
  end.

Definition dedup_step (seen : LinkMap) (l : ExtractedLink) : LinkMap :=
  match map_get (url l) seen with
  | None => map_set (url l) l seen
  | Some existing =>
      if (String.length (context existing) <? String.length (context l))%nat
      then map_set (url l) l seen
      else seen
  end.

Definition deduplicateLinks (ls : list ExtractedLink) : list ExtractedLink :=
  map snd (fold_left dedup_step ls []).

(** The callback of the [map] in [rankBatch]. *)
Definition attach (batch : list ExtractedLink) (ranking : Ranking) : option RankedLink :=
  match js_index batch (r_index ranking) with
  | None => None
  | Some l =>
      Some {| link := l; relevanceScore := r_relevanceScore ranking;
              category := r_category ranking; rationale := r_rationale ranking |}
  end.

(** What the [seen] map of [deduplicateLinks] holds after the links
    [processed]. *)
Record dedup_inv (seen : LinkMap) (processed : list ExtractedLink) : Prop := {
  keys_once : List.NoDup (map fst seen);
  entries_sound : forall k v, In (k, v) seen -> url v = k /\ In v processed;
  longest_kept : forall l, In l processed ->
    exists v, map_get (url l) seen = Some v
              /\ (String.length (context l) <= String.length (context v))%nat
}.

(** The extensions of the first skip pattern. *)
Definition asset_extensions : list string :=
  ["jpg"; "jpeg"; "png"; "gif"; "svg"; "ico"; "css"; "js"; "woff"; "woff2";
   "ttf"; "eot"].
End LinkTools.

(** ** The iterations of the crawl loop, in full *)

Module CrawlTrace.
Import JsString Url Score Extractor Ranker Run Crawler.

Section Outcome.
Variable URL_parse : string -> option URL.
Variable fetchPage : string -> option (string * string * list ExtractedLink).
Variable chatCompletion : nat -> RankerConfig -> list ExtractedLink -> option (list Ranking).
Variable cfg : CrawlerConfig.
Variable seedDomain : string.

(** The domain test of the loop body lets the URL [n] through. *)
Definition on_site (n : string) : Prop :=
  sameDomainOnly cfg = true ->
  exists u, URL_parse n = Some u /\ isSameDomain seedDomain (hostname u) = true.

(** The politeness sleep at the end of an iteration that fetched a page. *)
Definition slept (st st' : CrawlState) : Prop :=
  sleeps st' = if (0 <? List.length (queue st'))%nat
               then sleeps st ++ [requestDelayMs cfg] else sleeps st.

(** The four ways through the loop body, with everything they change:
    the item is dropped before the fetch; the fetch fails; the page is
    kept without looking at its links; the links of the page are ranked. *)
Inductive iteration_outcome (fuel : nat) (st st' : CrawlState) (item : QueueItem)
    (rest : list QueueItem) : Prop :=
| Dropped :
    visited st' = visited st -> queue st' = rest -> pages st' = pages st ->
    allRankedLinks st' = allRankedLinks st -> errors st' = errors st ->
    reports st' = reports st -> sleeps st' = sleeps st -> calls st' = calls st ->
    iteration_outcome fuel st st' item rest
| Failed r :
    normalizeUrl URL_parse (q_url item) ∉ visited st ->
    on_site (normalizeUrl URL_parse (q_url item)) ->
    extractLinksFromUrl fetchPage (normalizeUrl URL_parse (q_url item)) = None ->
    visited st' = {[normalizeUrl URL_parse (q_url item)]} ∪ visited st ->
    queue st' = rest -> pages st' = pages st ->
    allRankedLinks st' = allRankedLinks st ->
    errors st' = errors st ++ [(normalizeUrl URL_parse (q_url item), "Failed to fetch")] ->
    reports st' = reports st ++ [r] ->
    currentUrl r = normalizeUrl URL_parse (q_url item) ->
    sleeps st' = sleeps st -> calls st' = calls st ->
    iteration_outcome fuel st st' item rest
| Kept r page :
    normalizeUrl URL_parse (q_url item) ∉ visited st ->
    on_site (normalizeUrl URL_parse (q_url item)) ->
    extractLinksFromUrl fetchPage (normalizeUrl URL_parse (q_url item)) = Some page ->
    (maxDepth cfg <= depth item \/ links page = []) ->
    visited st' = {[normalizeUrl URL_parse (q_url item)]} ∪ visited st ->
    queue st' = rest -> pages st' = pages st ++ [page] ->
    allRankedLinks st' = allRankedLinks st -> errors st' = errors st ->
    reports st' = reports st ++ [r] ->
    currentUrl r = normalizeUrl URL_parse (q_url item) ->
    slept st st' -> calls st' = calls st ->
    iteration_outcome fuel st st' item rest
| Followed r page filtered ranked :
    normalizeUrl URL_parse (q_url item) ∉ visited st ->
    on_site (normalizeUrl URL_parse (q_url item)) ->
    extractLinksFromUrl fetchPage (normalizeUrl URL_parse (q_url item)) = Some page ->
    depth item < maxDepth cfg ->
    preFilterLinks URL_parse (links page) (normalizeUrl URL_parse (q_url item))
      = Done filtered ->
    rank_page chatCompletion fuel cfg (calls st) filtered = Done (ranked, calls st') ->
    visited st' = {[normalizeUrl URL_parse (q_url item)]} ∪ visited st ->
    queue st' = rest ++ new_items URL_parse (visited st') item
                          (normalizeUrl URL_parse (q_url item))
                          (filterByScore ranked (minScoreToFollow cfg)) ->
    pages st' = pages st ++ [page] ->
    allRankedLinks st' = allRankedLinks st ++ ranked -> errors st' = errors st ->
    reports st' = reports st ++ [r] ->
    currentUrl r = normalizeUrl URL_parse (q_url item) ->
    slept st st' ->
    iteration_outcome fuel st st' item rest.

(** Every fetch attempt ends as one page or as one error. *)
Definition accounted (st : CrawlState) : Prop :=
  Permutation (map currentUrl (reports st))
              (map page_url (pages st) ++ map fst (errors st))
  /\ Forall (fun e => snd e = "Failed to fetch") (errors st)
  /\ (List.length (sleeps st) <= List.length (pages st))%nat.

(** Every fetch attempt was made on the seed's site. *)
Definition fenced (st : CrawlState) : Prop :=
  Forall (fun r => exists u, URL_parse (currentUrl r) = Some u
                             /\ isSameDomain seedDomain (hostname u) = true)
         (reports st).

(** Every ranked link is a link of a fetched page that went through the
    pre-filter and the heuristic. *)
Definition ranked_from_pages (st : CrawlState) : Prop :=
  Forall (fun r => exists p,
            In p (pages st) /\ In (link r) (links p)
            /\ URL_parse (url (link r)) <> None
            /\ (0 < heuristicScore (link r))%Q)
         (allRankedLinks st).

(** Every queued item but the seed comes from a ranked link of a fetched
    page whose score reaches the threshold. *)
Definition frontier_earned (seed : QueueItem) (st : CrawlState) : Prop :=
  Forall (fun it =>
            it = seed
            \/ exists r p,
                 In r (allRankedLinks st) /\ In p (pages st)
                 /\ q_url it = url (link r)
                 /\ score it = Some (relevanceScore r)
                 /\ (minScoreToFollow cfg <= relevanceScore r)%Q
                 /\ parentUrl it = Some (page_url p)
                 /\ In (link r) (links p))
         (queue st).

(** Nothing was followed: what was fetched or is still queued is one item
    at most, and no item is deeper than the seed. *)
Definition seed_only (st : CrawlState) : Prop :=
  (List.length (reports st) + List.length (queue st) <= 1)%nat
  /\ Forall (fun it => depth it = 0) (queue st).
End Outcome.
End CrawlTrace.

(** ** Properties of robots.txt lines *)

Module RobotsLines.
Import JsString Scraper.

(** Lines that open the block of every agent: [User-agent: *]. *)
Definition star_agent (l : string) : bool :=
  let trimmed := toLowerCase (trim l) in
  startsWith trimmed "user-agent:"
  && String.eqb (trim (strip_prefix trimmed "user-agent:")) "*".

(** A character that [toLowerCase] leaves as it is. *)
Definition lowered (c : ascii) : Prop := lower_char c = c.
End RobotsLines.

(** ** Groups of sections and of words *)

Module ChunkGroups.
Import JsString Chunker.

(** A section followed by the small sections merged into it. *)
Definition group_sections (g : MdSection * list MdSection) : list MdSection :=
  fst g :: snd g.

(** What [mergeSmallSections] makes of such a group: the title of the
    first section, the bodies joined by blank lines. *)
Definition merge_group (g : MdSection * list MdSection) : MdSection :=
  {| title := title (fst g);
     body := join blank_line (map body (group_sections g)) |}.

Section WithTokenizer.
Variable countTokens : string -> nat.

Definition small (s : MdSection) : Prop :=
  (countTokens (body s) < MIN_CHUNK_TOKENS)%nat.

(** The size [splitByTokenCount] gives a group of words: each word is
    counted with a space after it. *)
Definition estimate (g : list string) : nat :=
  list_sum (map (fun word => countTokens (word +:+ " ")) g).

(** A group of words that [splitByTokenCount] may close. *)
Definition fits (g : list string) : Prop :=
  g <> [] /\ ((estimate g <= MAX_CHUNK_TOKENS)%nat \/ List.length g = 1%nat).
End WithTokenizer.
End ChunkGroups.

(** ** Command line ([src/scripts/scrape.ts]) *)

Module Cli.
Import JsString Url Crawler Scraper.

(** [Partial<ScraperConfig>] as [parseArgs] fills it. *)
Record CliConfig := {
  cli_maxDepth : option Z;
  cli_maxPages : option Z;
  cli_orgId : option string;
  cli_minScoreToFollow : option Q;
  cli_requestDelayMs : option Z;
  cli_useLlmRanking : option bool;
  cli_storeInDb : option bool;
  cli_extractProjects : option bool;
  cli_generateEmbeddings : option bool;
  cli_sameDomainOnly : option bool;
  cli_verbose : option bool
}.

Definition empty_config : CliConfig :=
  {| cli_maxDepth := None; cli_maxPages := None; cli_orgId := None;
     cli_minScoreToFollow := None; cli_requestDelayMs := None;
     cli_useLlmRanking := None; cli_storeInDb := None;
     cli_extractProjects := None; cli_generateEmbeddings := None;
     cli_sameDomainOnly := None; cli_verbose := None |}.

(** [parseArgs] returns, or ends the process with [process.exit(code)]. *)
Inductive cli_outcome :=
| Exit (code : Z)
| Parsed (url : string) (config : CliConfig) (visible : bool).

(** [parseInt(args[++i]) || d]: a missing argument is [undefined], which
    [parseInt] reads as [NaN]; [NaN] and 0 are falsy. *)
Definition int_or (value : option string) (d : Z) : Z :=
  match value with
  | Some v =>
      match parseInt v with
      | Some n => if n =? 0 then d else n
      | None => d
      end
  | None => d
  end.

Section WithPlatform.
Variable URL_parse : string -> option URL.
(** [parseFloat]; [None] is [NaN]. *)
Variable parseFloat : string -> option Q.

Definition float_or (value : option string) (d : Q) : Q :=
  match value with
  | Some v =>
      match parseFloat v with
      | Some q => if Qeq_bool q 0 then d else q
      | None => d
      end
  | None => d
  end.

(** The cases of the [switch]: an option that reads the next argument, a
    flag, an unknown option, or an argument that is left alone. *)
Inductive cli_case :=
| TakesValue (set : option string -> CliConfig -> CliConfig)
| Flag (set : CliConfig * bool -> CliConfig * bool)
| UnknownOption
| Ignored.

Definition one_of (arg : string) (names : list string) : bool :=
  existsb (String.eqb arg) names.

Definition set_maxDepth (v : option string) (c : CliConfig) : CliConfig :=
  {| cli_maxDepth := Some (int_or v 2); cli_maxPages := cli_maxPages c;
     cli_orgId := cli_orgId c; cli_minScoreToFollow := cli_minScoreToFollow c;
     cli_requestDelayMs := cli_requestDelayMs c;
     cli_useLlmRanking := cli_useLlmRanking c; cli_storeInDb := cli_storeInDb c;
     cli_extractProjects := cli_extractProjects c;
     cli_generateEmbeddings := cli_generateEmbeddings c;
     cli_sameDomainOnly := cli_sameDomainOnly c; cli_verbose := cli_verbose c |}.

Definition set_maxPages (v : option string) (c : CliConfig) : CliConfig :=
  {| cli_maxDepth := cli_maxDepth c; cli_maxPages := Some (int_or v 20);
     cli_orgId := cli_orgId c; cli_minScoreToFollow := cli_minScoreToFollow c;
     cli_requestDelayMs := cli_requestDelayMs c;
     cli_useLlmRanking := cli_useLlmRanking c; cli_storeInDb := cli_storeInDb c;
     cli_extractProjects := cli_extractProjects c;
     cli_generateEmbeddings := cli_generateEmbeddings c;
     cli_sameDomainOnly := cli_sameDomainOnly c; cli_verbose := cli_verbose c |}.

Definition set_orgId (v : option string) (c : CliConfig) : CliConfig :=
  {| cli_maxDepth := cli_maxDepth c; cli_maxPages := cli_maxPages c;
     cli_orgId := v; cli_minScoreToFollow := cli_minScoreToFollow c;
     cli_requestDelayMs := cli_requestDelayMs c;
     cli_useLlmRanking := cli_useLlmRanking c; cli_storeInDb := cli_storeInDb c;
     cli_extractProjects := cli_extractProjects c;
     cli_generateEmbeddings := cli_generateEmbeddings c;
     cli_sameDomainOnly := cli_sameDomainOnly c; cli_verbose := cli_verbose c |}.

Definition set_minScore (v : option string) (c : CliConfig) : CliConfig :=
  {| cli_maxDepth := cli_maxDepth c; cli_maxPages := cli_maxPages c;
     cli_orgId := cli_orgId c;
     cli_minScoreToFollow := Some (float_or v (5 # 10));
     cli_requestDelayMs := cli_requestDelayMs c;
     cli_useLlmRanking := cli_useLlmRanking c; cli_storeInDb := cli_storeInDb c;
     cli_extractProjects := cli_extractProjects c;
     cli_generateEmbeddings := cli_generateEmbeddings c;
     cli_sameDomainOnly := cli_sameDomainOnly c; cli_verbose := cli_verbose c |}.

Definition set_delay (v : option string) (c : CliConfig) : CliConfig :=
  {| cli_maxDepth := cli_maxDepth c; cli_maxPages := cli_maxPages c;
     cli_orgId := cli_orgId c; cli_minScoreToFollow := cli_minScoreToFollow c;
     cli_requestDelayMs := Some (int_or v 1000);
     cli_useLlmRanking := cli_useLlmRanking c; cli_storeInDb := cli_storeInDb c;
     cli_extractProjects := cli_extractProjects c;
     cli_generateEmbeddings := cli_generateEmbeddings c;
     cli_sameDomainOnly := cli_sameDomainOnly c; cli_verbose := cli_verbose c |}.

Definition set_flags (llm store projects embeddings sameDomain verbose : option bool)
    (c : CliConfig) : CliConfig :=
  {| cli_maxDepth := cli_maxDepth c; cli_maxPages := cli_maxPages c;
     cli_orgId := cli_orgId c; cli_minScoreToFollow := cli_minScoreToFollow c;
     cli_requestDelayMs := cli_requestDelayMs c;
     cli_useLlmRanking := first_some llm (cli_useLlmRanking c);
     cli_storeInDb := first_some store (cli_storeInDb c);
     cli_extractProjects := first_some projects (cli_extractProjects c);
     cli_generateEmbeddings := first_some embeddings (cli_generateEmbeddings c);
     cli_sameDomainOnly := first_some sameDomain (cli_sameDomainOnly c);
     cli_verbose := first_some verbose (cli_verbose c) |}.

Definition flag (llm store projects embeddings sameDomain verbose : option bool)
    : cli_case :=
  Flag (fun '(c, visible) =>
          (set_flags llm store projects embeddings sameDomain verbose c, visible)).

Definition switch (arg : string) : cli_case :=
  if one_of arg ["--depth"; "-d"] then TakesValue set_maxDepth
  else if one_of arg ["--max-pages"; "-m"] then TakesValue set_maxPages
  else if one_of arg ["--org-id"; "-o"] then TakesValue set_orgId
  else if one_of arg ["--min-score"; "-s"] then TakesValue set_minScore
  else if one_of arg ["--delay"] then TakesValue set_delay
  else if one_of arg ["--no-llm"] then flag (Some false) None None None None None
  else if one_of arg ["--no-store"] then flag None (Some false) None None None None
  else if one_of arg ["--no-projects"] then flag None None (Some false) None None None
  else if one_of arg ["--no-embeddings"] then flag None None None (Some false) None None
  else if one_of arg ["--cross-domain"] then flag None None None None (Some false) None
  else if one_of arg ["--quiet"; "-q"] then flag None None None None None (Some false)
  else if one_of arg ["--visible"; "-v"] then Flag (fun '(c, _) => (c, true))
  else if startsWith arg "-" then UnknownOption
  else Ignored.

(** The [for] loop over the options; [None] is [process.exit(1)]. *)
Fixpoint parse_options (args : list string) (config : CliConfig) (visible : bool)
    : option (CliConfig * bool) :=
  match args with
  | [] => Some (config, visible)
  | arg :: rest =>
      match switch arg with
      | TakesValue set =>
          match rest with
          | [] => Some (set None config, visible)
          | value :: rest' => parse_options rest' (set (Some value) config) visible
          end
      | Flag set =>
          let '(config', visible') := set (config, visible) in
          parse_options rest config' visible'
      | UnknownOption => None
      | Ignored => parse_options rest config visible
      end
  end.

(** [hostname.replace(/^www\./, "").replace(/\./g, "-")] *)
Definition dots_to_dashes (s : string) : string :=
  str (map (fun c => if Ascii.eqb c "."%char then "-"%char else c) (chars s)).

Definition default_orgId (u : URL) : string :=
  dots_to_dashes (strip_www (hostname u)).

Definition parseArgs (args : list string) : cli_outcome :=
  match args with
  | [] => Exit 0
  | url :: options =>
      if one_of url ["--help"; "-h"] then Exit 0
      else
        match URL_parse url with
        | None => Exit 1
        | Some parsed =>
            match parse_options options empty_config false with
            | None => Exit 1
            | Some (config, visible) =>
                let config' :=
                  match cli_orgId config with
                  | Some (String _ _) => config
                  | _ => set_orgId (Some (default_orgId parsed)) config
                  end in
                Parsed url config' visible
            end
        end
  end.
End WithPlatform.

(** A stand-in for [parseFloat] on the inputs of the examples: it reads
    integers only. *)
Definition parseFloat_integers (s : string) : option Q :=
  option_map inject_Z (parseInt s).
End Cli.

(** ** What the command line can ask for *)

Module CliLimits.
Import Cli.

(** No number is zero and no switch is on: what every configuration built
    by [parseArgs] satisfies. *)
Definition modest (c : CliConfig) : Prop :=
  cli_maxDepth c <> Some 0
  /\ cli_maxPages c <> Some 0
  /\ cli_requestDelayMs c <> Some 0
  /\ (forall q, cli_minScoreToFollow c = Some q -> ~ (q == 0)%Q)
  /\ cli_useLlmRanking c <> Some true
  /\ cli_storeInDb c <> Some true
  /\ cli_extractProjects c <> Some true
  /\ cli_generateEmbeddings c <> Some true
  /\ cli_sameDomainOnly c <> Some true
  /\ cli_verbose c <> Some true.

Definition case_modest (k : cli_case) : Prop :=
  match k with
  | TakesValue set => forall v c, modest c -> modest (set v c)
  | Flag set => forall c visible, modest c -> modest (fst (set (c, visible)))
  | UnknownOption | Ignored => True
  end.
End CliLimits.

(** ** Pairs of a query string *)

Module QueryPairs.
Import JsString Url.

(** One [name=value] piece of [serialize_urlencoded]. *)
Definition encode_pair (p : string * string) : string :=
  encode_component (fst p) +:+ "=" +:+ encode_component (snd p).

(** A string whose bytes are well-formed UTF-8, as every JavaScript string
    without lone surrogates is: decoding leaves it as it is. *)
Definition well_formed (s : string) : Prop :=
  utf8_decode (chars s) = chars s.

Definition well_formed_pair (p : string * string) : Prop :=
  well_formed (fst p) /\ well_formed (snd p).
End QueryPairs.

(** ** The crawl with its collaborators that can throw

    [crawl] awaits [initBrowser] before anything else and [closeBrowser]
    after the loop, calls [cfg.onProgress] before each fetch, and
    [extractLinksFromUrl] opens its page ([getContext], [newPage]) before
    its [try] and closes it in the [finally]: an exception of one of these
    leaves [crawl].  The definitions of [Crawler] describe the runs in
    which none of them throws; here each of them may. *)

Module CrawlEffects.
Import JsString Url Score Extractor Ranker Run Crawler.

Section WithBrowser.
Variable URL_parse : string -> option URL.
(** What the [try] block of [extractLinksFromUrl] returns for a URL: the
    page, or [None] for [null] (no response, a status that is not ok, or
    an exception caught by the [catch]). *)
Variable fetchPage : string -> option (string * string * list ExtractedLink).
Variable chatCompletion : nat -> RankerConfig -> list ExtractedLink -> option (list Ranking).
(** The exception of each collaborator, when it throws. *)
Variable initBrowser : option string.
Variable openPage : string -> option string.
Variable closePage : string -> option string.
Variable onProgress : CrawlProgress -> option string.
Variable closeBrowser : option string.

Definition raise_or {A} (thrown : option string) (k : run A) : run A :=
  match thrown with
  | Some e => Threw e
  | None => k
  end.

(** [extractLinksFromUrl] with the page opened before the [try] and
    closed in the [finally]. *)
Definition extractLinksFromUrl_full (u : string) : run (option PageContent) :=
  raise_or (openPage u)
    (let result := extractLinksFromUrl fetchPage u in
     raise_or (closePage u) (Done result)).

(** One iteration of the [while] loop, entered with a non-empty queue. *)
Definition crawl_iteration_full (fuel : nat) (cfg : CrawlerConfig) (seedDomain : string)
    (st : CrawlState) : run CrawlState :=
  match sort_desc score_or_zero (queue st) with
  | [] => Done st
  | item :: rest =>
      let st1 :=
        {| visited := visited st; queue := rest; pages := pages st;
           allRankedLinks := allRankedLinks st; errors := errors st;
           reports := reports st; sleeps := sleeps st; calls := calls st |} in
      let normalizedUrl := normalizeUrl URL_parse (q_url item) in
      if bool_decide (normalizedUrl ∈ visited st) then Done st1
      else if sameDomainOnly cfg
              && match URL_parse normalizedUrl with
                 | Some u => negb (isSameDomain seedDomain (hostname u))
                 | None => true
                 end
      then Done st1
      else
        let progress :=
          {| pagesProcessed := List.length (pages st);
             pagesQueued := List.length rest;
             linksFound := List.length (allRankedLinks st);
             highValueLinksFound := count_high_value (allRankedLinks st);
             currentUrl := normalizedUrl;
             currentDepth := depth item |} in
        let st2 :=
          {| visited := {[normalizedUrl]} ∪ visited st; queue := rest;
             pages := pages st; allRankedLinks := allRankedLinks st;
             errors := errors st; reports := reports st ++ [progress];
             sleeps := sleeps st; calls := calls st |} in
        raise_or (onProgress progress)
          (bind (extractLinksFromUrl_full normalizedUrl) (fun fetched =>
             match fetched with
             | None =>
                 Done {| visited := visited st2; queue := queue st2; pages := pages st2;
                         allRankedLinks := allRankedLinks st2;
                         errors := errors st2 ++ [(normalizedUrl, "Failed to fetch")];
                         reports := reports st2; sleeps := sleeps st2;
                         calls := calls st2 |}
             | Some pageContent =>
                 process_page URL_parse chatCompletion fuel cfg item normalizedUrl
                   pageContent
                   {| visited := visited st2; queue := queue st2;
                      pages := pages st2 ++ [pageContent];
                      allRankedLinks := allRankedLinks st2; errors := errors st2;
                      reports := reports st2; sleeps := sleeps st2;
                      calls := calls st2 |}
             end))
  end.

Fixpoint crawl_loop_full (fuel : nat) (cfg : CrawlerConfig) (seedDomain : string)
    (st : CrawlState) : run CrawlState :=
  match fuel with
  | O => OutOfFuel
  | S fuel' =>
      if loop_guard cfg st
      then bind (crawl_iteration_full fuel' cfg seedDomain st)
                (crawl_loop_full fuel' cfg seedDomain)
      else Done st
  end.

(** [crawl]: the browser is started first, then the seed is normalized
    and parsed, the loop runs, and the browser is closed before the result
    is returned. *)
Definition crawl_full (fuel : nat) (seedUrl : string) (config : CrawlerOverrides)
    : run CrawlResult :=
  let cfg := with_defaults config in
  raise_or initBrowser
    (let normalizedSeed := normalizeUrl URL_parse seedUrl in
     match URL_parse normalizedSeed with
     | None => Threw "Invalid URL"
     | Some u =>
         bind (crawl_loop_full fuel cfg (hostname u) (initial_state normalizedSeed))
              (fun st => raise_or closeBrowser (Done (result_of st)))
     end).

(** No collaborator throws. *)
Definition quiet : Prop :=
  initBrowser = None /\ closeBrowser = None
  /\ (forall u, openPage u = None) /\ (forall u, closePage u = None)
  /\ (forall r, onProgress r = None).

(** [e] is an exception of a collaborator. *)
Definition from_collaborator (e : string) : Prop :=
  initBrowser = Some e \/ closeBrowser = Some e
  \/ (exists u, openPage u = Some e) \/ (exists u, closePage u = Some e)
  \/ (exists r, onProgress r = Some e).
End WithBrowser.
End CrawlEffects.

(** ** Concrete inputs on which the code is run *)

Module Scenarios.
Import JsString Url Score Extractor Ranker Run Crawler.

Definition words (n : nat) : string := join " " (repeat "a" n).

(** Three paragraphs of 600, 990 and 10 one-letter words. *)
Definition overlap_doc : string :=
  words 600 +:+ blank_line +:+ words 990 +:+ blank_line +:+ words 10.

Definition sample_link (u a c : string) : ExtractedLink :=
  {| url := u; anchorText := a; context := c;
     attributes := {| attr_title := None; attr_rel := None; attr_type := None |} |}.

(** A classification service that is down. *)
Definition failing_classifier
    : nat -> RankerConfig -> list ExtractedLink -> option (list Ranking) :=
  fun _ _ _ => None.

(** A classification service that finds every link of the batch relevant. *)
Definition approving_classifier
    : nat -> RankerConfig -> list ExtractedLink -> option (list Ranking) :=
  fun _ _ batch =>
    Some (map (fun i => {| r_index := Z.of_nat i; r_relevanceScore := 9 # 10;
                           r_category := budget; r_rationale := "budget page" |})
              (seq 0 (List.length batch))).

(** Two pages that link to each other. *)
Definition cycle_web (u : string) : option (string * string * list ExtractedLink) :=
  if String.eqb u "http://a.com/" then
    Some ("Home", "Welcome",
          [sample_link "http://a.com/budget" "Budget" "the annual budget"])
  else if String.eqb u "http://a.com/budget" then
    Some ("Budget", "Budget figures",
          [sample_link "http://a.com/" "Home" "back from the budget"])
  else None.

(** A home page that links to the budget page twice, once with two
    trailing slashes and once with none; the server answers for the
    budget page with and without a trailing slash. *)
Definition slash_web (u : string) : option (string * string * list ExtractedLink) :=
  if String.eqb u "http://a.com/" then
    Some ("Home", "Welcome",
          [sample_link "http://a.com/budget//" "Budget" "the annual budget";
           sample_link "http://a.com/budget" "Budget" "the annual budget"])
  else if String.eqb u "http://a.com/budget/" then Some ("Budget", "Budget figures", [])
  else if String.eqb u "http://a.com/budget" then Some ("Budget", "Budget figures", [])
  else None.

Definition no_config : CrawlerOverrides :=
  {| o_maxDepth := None; o_maxPages := None; o_minScoreToFollow := None;
     o_requestDelayMs := None; o_concurrency := None; o_useLlmRanking := None;
     o_rankerConfig := None; o_sameDomainOnly := None |}.

Definition with_maxDepth (d : Z) : CrawlerOverrides :=
  {| o_maxDepth := Some d; o_maxPages := None; o_minScoreToFollow := None;
     o_requestDelayMs := None; o_concurrency := None; o_useLlmRanking := None;
     o_rankerConfig := None; o_sameDomainOnly := None |}.

Definition with_maxPages (n : Z) : CrawlerOverrides :=
  {| o_maxDepth := None; o_maxPages := Some n; o_minScoreToFollow := None;
     o_requestDelayMs := None; o_concurrency := None; o_useLlmRanking := None;
     o_rankerConfig := None; o_sameDomainOnly := None |}.

Definition with_batchSize (n : Z) : CrawlerOverrides :=
  {| o_maxDepth := None; o_maxPages := None; o_minScoreToFollow := None;
     o_requestDelayMs := None; o_concurrency := None; o_useLlmRanking := None;
     o_rankerConfig :=
       Some {| o_priorityKeywords := None; o_minRelevanceScore := None;
               o_batchSize := Some n |};
     o_sameDomainOnly := None |}.

(** A robots.txt with a crawl delay of five seconds for every agent. *)
Definition robots_txt : string :=
  "User-agent: *" +:+ newline +:+ "Crawl-delay: 5" +:+ newline
  +:+ "Disallow: /private".

Definition robots_server (baseUrl : string) : option string := Some robots_txt.

(** A robots.txt with two blocks: five seconds for every agent, ten for
    one crawler. *)
Definition robots_two_blocks : string :=
  "User-agent: *" +:+ newline +:+ "Crawl-delay: 5" +:+ newline
  +:+ "Disallow: /private" +:+ newline
  +:+ "User-agent: bingbot" +:+ newline +:+ "Crawl-delay: 10".

Definition two_block_server (baseUrl : string) : option string :=
  Some robots_two_blocks.

Definition with_requestDelayMs (ms : Z) : CrawlerOverrides :=
  {| o_maxDepth := None; o_maxPages := None; o_minScoreToFollow := None;
     o_requestDelayMs := Some ms; o_concurrency := None; o_useLlmRanking := None;
     o_rankerConfig := None; o_sameDomainOnly := None |}.

(** The state in which a run ends, for runs that return. *)
Definition final_state (r : run CrawlState) : CrawlState :=
  match r with
  | Done st => st
  | _ => initial_state ""
  end.

Definition heuristic_only : CrawlerOverrides :=
  {| o_maxDepth := None; o_maxPages := None; o_minScoreToFollow := Some (6 # 10);
     o_requestDelayMs := None; o_concurrency := None; o_useLlmRanking := Some false;
     o_rankerConfig := None; o_sameDomainOnly := None |}.

(** A robots.txt that closes the whole site to every agent. *)
Definition forbidding_robots (baseUrl : string) : option string :=
  Some ("User-agent: *" +:+ newline +:+ "Disallow: /").

(** A site without robots.txt. *)
Definition no_robots (baseUrl : string) : option string := None.

(** A browser that fails to open a page for the budget URL. *)
Definition budget_page_fails (u : string) : option string :=
  if String.eqb u "http://a.com/budget" then Some "browser has been closed" else None.

Definition never_throws {A} (x : A) : option string := None.
End Scenarios.


(** * Properties *)

(** ** The code on small inputs *)

Module Examples.
Import JsString Chunker Regex Url Extractor Ranker Score Crawler Scraper Scenarios Run.

Example normalize_strips_tracking_and_fragment :
  normalizeUrl parse_reference "http://a.com/docs/?utm_source=x&id=7#top"
  = "http://a.com/docs/?id=7".
Proof. vm_compute. reflexivity. Qed.

Example normalize_strips_trailing_slash :
  normalizeUrl parse_reference "http://a.com/docs/#top" = "http://a.com/docs".
Proof. vm_compute. reflexivity. Qed.

Example normalize_keeps_root_slash :
  normalizeUrl parse_reference "HTTP://A.com" = "http://a.com/".
Proof. vm_compute. reflexivity. Qed.

Example normalize_keeps_unparseable :
  normalizeUrl parse_reference "not a url" = "not a url".
Proof. vm_compute. reflexivity. Qed.

Example same_domain_examples :
  (isSameDomain "www.a.com" "docs.a.com", isSameDomain "a.com" "b.com",
   isSameDomain "a.com" "xa.com") = (true, false, false).
Proof. vm_compute. reflexivity. Qed.

Definition small_doc : string :=
  "Preface" +:+ newline +:+ "## Budget" +:+ newline +:+ "Numbers." +:+ blank_line
  +:+ "More numbers." +:+ newline +:+ "### Bids" +:+ newline +:+ "Open bids.".

Example headers_split_small_doc :
  splitByHeaders small_doc
  = [{| title := "Introduction"; Chunker.body := "Preface" |};
     {| title := "Budget";
        Chunker.body := "Numbers." +:+ blank_line +:+ "More numbers." |};
     {| title := "Bids"; Chunker.body := "Open bids." |}].
Proof. vm_compute. reflexivity. Qed.

Example small_sections_merge :
  map (fun c => (sectionTitle c, tokenCount c, chunkIndex c))
      (chunkDocument wordTokens small_doc)
  = [("Introduction", 6%nat, 0%nat)].
Proof. vm_compute. reflexivity. Qed.

Example blank_document_has_no_chunk : chunkDocument wordTokens "   " = [].
Proof. vm_compute. reflexivity. Qed.

Example heuristic_order :
  map url
    (heuristicRank
       [sample_link "http://a.com/staff" "People" "";
        sample_link "http://a.com/about" "About" "who we are";
        sample_link "http://a.com/rfp" "FY2025 RFP for IT Services" "";
        sample_link "http://a.com/f.pdf" "File" "a file";
        sample_link "http://a.com/g" "G" "report.pdf"])
  = ["http://a.com/rfp"; "http://a.com/staff"; "http://a.com/g"].
Proof. vm_compute. reflexivity. Qed.

Example prefilter_examples :
  option_map (map url)
    (match preFilterLinks parse_reference
             [sample_link "http://a.com/logo.png" "" "";
              sample_link "http://www.facebook.com/a" "" "";
              sample_link "http://b.org/budget" "" "";
              sample_link "http://b.org/news" "" "";
              sample_link "http://docs.a.com/x" "" "";
              sample_link "nonsense" "" ""] "http://a.com/" with
     | Done l => Some l
     | _ => None
     end)
  = Some ["http://b.org/budget"; "http://docs.a.com/x"].
Proof. vm_compute. reflexivity. Qed.

Example parseInt_examples :
  map parseInt ["5"; " 12abc"; "-3"; "0x1F"; "abc"; ""; "+7.5"]
  = [Some 5; Some 12; Some (-3); Some 31; None; None; Some 7].
Proof. vm_compute. reflexivity. Qed.

Example robots_example :
  parse_robots robots_txt = {| crawlDelay := Some 5000; disallowed := ["/private"] |}.
Proof. vm_compute. reflexivity. Qed.

Example allowed_examples :
  (isUrlAllowed parse_reference "http://a.com/private/x" ["/private"],
   isUrlAllowed parse_reference "http://a.com/public" ["/private"],
   isUrlAllowed parse_reference "http://a.com/public" ["/"]) = (false, true, false).
Proof. vm_compute. reflexivity. Qed.

(** Scenario A of the specification: a seed page without links. *)
Example seed_without_links :
  let web u := if String.eqb u "http://a.com/"
               then Some ("Home", "Welcome", []) else None in
  match crawl parse_reference web failing_classifier 5 "http://a.com"
              (with_maxDepth 2) with
  | Done r => (List.length (result_pages r), List.length (rankedLinks r))
  | _ => (0, 0)%nat
  end = (1, 0)%nat.
Proof. vm_compute. reflexivity. Qed.
End Examples.

(** ** Chunker *)

Module ChunkerFacts.
Import JsString Chunker Scenarios.

Section Indices.
Variable countTokens : string -> nat.

Lemma numbered_from_snoc start chunks c :
  numbered_from start chunks ->
  chunkIndex c = (start + List.length chunks)%nat ->
  numbered_from start (chunks ++ [c]).
Proof.
  unfold numbered_from. intros Hn Hc.
  rewrite map_app, length_app, seq_app, Hn. simpl. now rewrite Hc.
Qed.

Lemma numbered_from_app start chunks more :
  numbered_from start chunks ->
  numbered_from (start + List.length chunks) more ->
  numbered_from start (chunks ++ more).
Proof.
  unfold numbered_from. intros Hn Hm.
  now rewrite map_app, length_app, seq_app, Hn, Hm.
Qed.

Lemma splitLargeSection_loop_numbered title start paras :
  forall chunks cur toks num chunks' cur' num',
    splitLargeSection_loop countTokens title start paras chunks cur toks num
      = (chunks', cur', num') ->
    numbered_from start chunks -> num = List.length chunks ->
    numbered_from start chunks' /\ num' = List.length chunks'.
Proof.
  induction paras as [|para rest IH]; simpl; intros chunks cur toks num chunks' cur' num' Hrun Hn Hlen.
  - inversion Hrun; subst. auto.
  - destruct ((MAX_CHUNK_TOKENS <? toks + countTokens para)%nat && truthy cur).
    + eapply IH in Hrun; [exact Hrun | |].
      * apply numbered_from_snoc; [assumption | simpl; now subst].
      * rewrite length_app. simpl. lia.
    + eapply IH in Hrun; eauto.
Qed.

Lemma splitLargeSection_numbered title text start :
  numbered_from start (splitLargeSection countTokens title text start).
Proof.
  unfold splitLargeSection.
  destruct (splitLargeSection_loop countTokens title start
              (expandParagraphs countTokens (splitByParagraphs text)) [] "" 0 0)
    as [[chunks cur] num] eqn:Hrun.
  apply splitLargeSection_loop_numbered in Hrun as [Hn Hnum];
    [| reflexivity | reflexivity].
  destruct (truthy (trim cur)); [| assumption].
  apply numbered_from_snoc; [assumption | simpl; now subst].
Qed.

Lemma chunkDocument_loop_numbered sections :
  forall chunks idx,
    numbered_from 0 chunks -> idx = List.length chunks ->
    numbered_from 0 (chunkDocument_loop countTokens sections chunks idx).
Proof.
  induction sections as [|section rest IH]; simpl; intros chunks idx Hn Hidx.
  - assumption.
  - destruct (MAX_CHUNK_TOKENS <? countTokens (body section))%nat.
    + apply IH.
      * apply numbered_from_app; [assumption |].
        simpl. subst idx. apply splitLargeSection_numbered.
      * rewrite length_app. lia.
    + apply IH.
      * apply numbered_from_snoc; [assumption | simpl; now subst].
      * rewrite length_app. simpl. lia.
Qed.

(** C4.  Whatever the tokenizer counts and whatever the markdown is, the
    [chunkIndex] values of the chunks returned by [chunkDocument] are
    0, 1, ..., n-1 in output order, n being the number of chunks: the
    numbering is dense and runs across the whole document, not per
    section. *)
Theorem chunkDocument_indices_dense (markdown : string) :
  map chunkIndex (chunkDocument countTokens markdown)
  = seq 0 (List.length (chunkDocument countTokens markdown)).
Proof.
  unfold chunkDocument.
  destruct (negb (truthy markdown) || (String.length (trim markdown) =? 0)%nat).
  - reflexivity.
  - apply chunkDocument_loop_numbered; reflexivity.
Qed.
End Indices.

(** C5, the code at the failing input.  No paragraph of [overlap_doc] is
    over the limit (600, 990 and 10 tokens), yet the second chunk, the
    continuation seeded with the 25-word tail of the first chunk and
    followed by the 990-word paragraph, is returned with [tokenCount]
    1015, above [MAX_CHUNK_TOKENS]. *)
Theorem continuation_chunk_exceeds_limit :
  Forall (fun n => (n <= MAX_CHUNK_TOKENS)%nat)
         (map wordTokens (splitByParagraphs overlap_doc))
  /\ map (fun c => (sectionTitle c, tokenCount c, chunkIndex c))
         (chunkDocument wordTokens overlap_doc)
     = [("Document", 600, 0); ("Document (continued)", 1015, 1);
        ("Document (continued)", 35, 2)]%nat
  /\ exists c,
       nth_error (chunkDocument wordTokens overlap_doc) 1 = Some c
       /\ (MAX_CHUNK_TOKENS < tokenCount c)%nat.
Proof.
  split; [| split].
  - replace (map wordTokens (splitByParagraphs overlap_doc))
      with [600; 990; 10]%nat by (vm_compute; reflexivity).
    unfold MAX_CHUNK_TOKENS. repeat constructor; lia.
  - vm_compute. reflexivity.
  - eexists. split; [vm_compute; reflexivity |].
    vm_compute. lia.
Qed.

End ChunkerFacts.

(** ** Sorting by score *)

Module ScoreFacts.
Import Score.

Lemma Qltb_lt (x y : Q) : Qltb x y = true <-> (x < y)%Q.
Proof.
  unfold Qltb. rewrite negb_true_iff. split.
  - intros H. apply Qnot_le_lt. intros Hle.
    apply Qle_bool_iff in Hle. congruence.
  - intros H. destruct (Qle_bool y x) eqn:E; [| reflexivity].
    apply Qle_bool_iff in E. exfalso. exact (Qlt_not_le _ _ H E).
Qed.

Lemma Qltb_ge (x y : Q) : Qltb x y = false <-> (y <= x)%Q.
Proof.
  unfold Qltb. rewrite negb_false_iff. apply Qle_bool_iff.
Qed.

Section Sorting.
Context {A : Type} (key : A -> Q).

Lemma insert_desc_perm x l : Permutation (insert_desc key x l) (x :: l).
Proof.
  induction l as [|y l IH]; simpl; [reflexivity |].
  destruct (Qltb (key x) (key y)); [| reflexivity].
  rewrite IH. apply perm_swap.
Qed.

Lemma sort_desc_perm l : Permutation (sort_desc key l) l.
Proof.
  induction l as [|x l IH]; simpl; [reflexivity |].
  rewrite insert_desc_perm. now constructor.
Qed.

Lemma insert_desc_sorted x l :
  StronglySorted (desc key) l -> StronglySorted (desc key) (insert_desc key x l).
Proof.
  induction 1 as [|y l Hs IH Hall]; simpl.
  - repeat constructor.
  - destruct (Qltb (key x) (key y)) eqn:E.
    + constructor; [assumption |].
      apply (Permutation_Forall (Permutation_sym (insert_desc_perm x l))).
      constructor; [| assumption].
      apply Qltb_lt in E. now apply Qlt_le_weak.
    + apply Qltb_ge in E.
      constructor; [now constructor |].
      constructor; [assumption |].
      eapply List.Forall_impl; [| exact Hall].
      intros z Hz. unfold desc in *. now apply Qle_trans with (key y).
Qed.

Lemma sort_desc_sorted l : StronglySorted (desc key) (sort_desc key l).
Proof.
  induction l as [|x l IH]; simpl; [constructor | now apply insert_desc_sorted].
Qed.

(** Elements of equal score keep their order. *)
Lemma sort_desc_constant (c : Q) l :
  Forall (fun x => key x = c) l -> sort_desc key l = l.
Proof.
  induction 1 as [|x l Hx Hall IH]; simpl; [reflexivity |].
  rewrite IH. destruct Hall as [|y l Hy Hall]; simpl; [reflexivity |].
  rewrite Hx, Hy.
  replace (Qltb c c) with false; [reflexivity |].
  symmetry. apply Qltb_ge. apply Qle_refl.
Qed.
End Sorting.

Lemma js_slice_batch {A} (l : list A) (i n : Z) :
  0 <= i -> 0 < n ->
  js_slice l i (i + n)
  = firstn (Z.to_nat n) (skipn (Z.to_nat i) l).
Proof.
  intros Hi Hn. unfold js_slice, clamp_index.
  destruct (Z.ltb_spec i 0); [lia |].
  destruct (Z.ltb_spec (i + n) 0); [lia |].
  set (len := Z.of_nat (List.length l)).
  destruct (Z.le_gt_cases len i) as [Hge | Hlt].
  - rewrite Z.min_r by lia.
    rewrite !skipn_all2 by lia. now rewrite !firstn_nil.
  - rewrite (Z.min_l i) by lia.
    destruct (Z.le_gt_cases (i + n) len).
    + rewrite Z.min_l by lia. f_equal. lia.
    + rewrite Z.min_r by lia.
      rewrite !firstn_all2; [reflexivity | |]; rewrite length_skipn; lia.
Qed.
End ScoreFacts.

(** ** Link ranker *)

Module RankerFacts.
Import JsString Regex Score Extractor Ranker Run ScoreFacts Scenarios.

Section FailOpen.
Variable chatCompletion : nat -> RankerConfig -> list ExtractedLink -> option (list Ranking).
Hypothesis always_errors : forall n cfg ls, chatCompletion n cfg ls = None.

Lemma rankBatch_default calls ls cfg :
  rankBatch chatCompletion calls ls cfg = map default_ranked ls.
Proof. unfold rankBatch. now rewrite always_errors. Qed.

Lemma rankLinks_loop_default ls cfg :
  0 < batchSize cfg ->
  forall fuel i acc calls,
    0 <= i ->
    (Z.to_nat (Z.of_nat (List.length ls) - i) < fuel)%nat ->
    exists calls',
      rankLinks_loop chatCompletion fuel ls cfg i acc calls
      = Done (sort_desc relevanceScore
                (acc ++ map default_ranked (skipn (Z.to_nat i) ls)), calls').
Proof.
  intros Hbs. induction fuel as [|fuel IH]; intros i acc calls Hi Hfuel; [lia |].
  simpl. destruct (Z.ltb_spec i (Z.of_nat (List.length ls))) as [Hlt | Hge].
  - rewrite rankBatch_default, js_slice_batch by lia.
    destruct (IH (i + batchSize cfg)
                 (acc ++ map default_ranked
                    (firstn (Z.to_nat (batchSize cfg)) (skipn (Z.to_nat i) ls)))
                 (S calls)) as [calls' Hrun]; [lia | lia |].
    exists calls'. rewrite Hrun.
    rewrite <- app_assoc, <- map_app, Z2Nat.inj_add by lia.
    now rewrite Nat.add_comm, <- skipn_skipn, firstn_skipn.
  - exists calls. now rewrite skipn_all2, app_nil_r by lia.
Qed.
End FailOpen.

(** With a batch size of zero the index of the batch loop never moves:
    on a non-empty list no bound on the iterations is enough. *)
Lemma rankLinks_loop_zero_batch chatCompletion ls cfg :
  batchSize cfg = 0 -> ls <> [] ->
  forall fuel acc calls,
    rankLinks_loop chatCompletion fuel ls cfg 0 acc calls = OutOfFuel.
Proof.
  intros Hbs Hne. induction fuel as [|fuel IH]; intros acc calls; [reflexivity |].
  cbn [rankLinks_loop]. rewrite Hbs. cbn [Z.add].
  destruct (Z.ltb_spec 0 (Z.of_nat (List.length ls))) as [_ | Hge]; [apply IH |].
  destruct ls; [congruence | simpl in Hge; lia].
Qed.

(** C6.  If every call of the classification service fails, then for every
    non-empty list of links (and a batch size of at least one, as in the
    default configuration) [rankLinks] returns normally -- it does not
    throw -- with exactly one entry per input link, in the order given, each
    with the fixed score 0.1 and the category [other]. *)
Theorem rankLinks_fail_open
    (chatCompletion : nat -> RankerConfig -> list ExtractedLink -> option (list Ranking))
    (ls : list ExtractedLink) (config : RankerOverrides) (calls fuel : nat) :
  (forall n cfg batch, chatCompletion n cfg batch = None) ->
  ls <> [] ->
  0 < batchSize (merge_ranker_config config) ->
  (List.length ls < fuel)%nat ->
  exists out calls',
    rankLinks chatCompletion fuel calls ls config = Done (out, calls')
    /\ map link out = ls
    /\ Forall (fun r => relevanceScore r = 1 # 10 /\ category r = other) out.
Proof.
  intros Herr Hne Hbs Hfuel. unfold rankLinks.
  destruct ls as [|l ls']; [congruence |]. cbn [List.length Nat.eqb].
  destruct (rankLinks_loop_default chatCompletion Herr (l :: ls')
              (merge_ranker_config config) Hbs fuel 0 [] calls) as [calls' Hrun];
    [lia | lia |].
  exists (map default_ranked (l :: ls')), calls'. split; [| split].
  - rewrite Hrun. cbn [Z.to_nat skipn app]. do 2 f_equal.
    apply sort_desc_constant with (c := 1 # 10).
    apply List.Forall_forall. intros r Hr. apply in_map_iff in Hr as (x & <- & _).
    reflexivity.
  - rewrite map_map. cbn [default_ranked link]. apply map_id.
  - apply List.Forall_forall. intros r Hr. apply in_map_iff in Hr as (x & <- & _).
    split; reflexivity.
Qed.

Lemma rankLinks_fail_open_witness :
  exists out calls',
    rankLinks failing_classifier 3 0
      [sample_link "http://a.com/budget" "Budget" "see the budget";
       sample_link "http://a.com/bids" "Bids" "open bids"] no_overrides
    = Done (out, calls')
    /\ map link out
       = [sample_link "http://a.com/budget" "Budget" "see the budget";
          sample_link "http://a.com/bids" "Bids" "open bids"]
    /\ Forall (fun r => relevanceScore r = 1 # 10 /\ category r = other) out.
Proof.
  apply rankLinks_fail_open.
  - intros n cfg batch. reflexivity.
  - discriminate.
  - reflexivity.
  - simpl. lia.
Defined.

(** *** The heuristic stage *)

Lemma toLowerCase_app a b :
  toLowerCase (a +:+ b) = toLowerCase a +:+ toLowerCase b.
Proof. induction a as [|c a IH]; simpl; [reflexivity | now rewrite IH]. Qed.

Lemma match_here_nullable r s : nullable r = true -> match_here false r s = true.
Proof. intros H. destruct s; simpl; [assumption | now rewrite H]. Qed.

Lemma match_here_step r c s :
  match_here false (deriv c r) s = true -> match_here false r (String c s) = true.
Proof. intros H. cbn [match_here]. rewrite H. apply orb_true_r. Qed.

Lemma search_here e r s : match_here e r s = true -> search e r s = true.
Proof. intros H. destruct s; cbn [search]; rewrite H; reflexivity. Qed.

Lemma search_skip e r c s : search e r s = true -> search e r (String c s) = true.
Proof. intros H. cbn [search]. rewrite H. apply orb_true_r. Qed.

Lemma search_app e r a b : search e r b = true -> search e r (a +:+ b) = true.
Proof. intros H. induction a as [|c a IH]; [assumption | now apply search_skip]. Qed.


Lemma max_weight_fold table text :
  forall acc,
    fold_left (fun maxScore '(p, weight) =>
                 if test p text then Q_max maxScore weight else maxScore) table acc
    = fold_left Q_max (matched_weights table text) acc.
Proof.
  unfold matched_weights.
  induction table as [|[p w] table IH]; intros acc; simpl; [reflexivity |].
  destruct (test p text); simpl; apply IH.
Qed.

Lemma Q_max_cases a b :
  (a <= Q_max a b)%Q /\ (b <= Q_max a b)%Q /\ (Q_max a b = a \/ Q_max a b = b).
Proof.
  unfold Q_max. destruct (Qle_bool a b) eqn:E.
  - apply Qle_bool_iff in E. repeat split; auto using Qle_refl.
  - repeat split; auto using Qle_refl.
    apply Qlt_le_weak, Qltb_lt. unfold Qltb. now rewrite E.
Qed.

Lemma fold_Q_max_spec ws :
  forall acc,
    let r := fold_left Q_max ws acc in
    (acc <= r)%Q /\ Forall (fun w => (w <= r)%Q) ws /\ (r = acc \/ In r ws).
Proof.
  induction ws as [|w ws IH]; intros acc; simpl.
  - repeat split; auto using Qle_refl.
  - destruct (IH (Q_max acc w)) as (Hacc & Hall & Hin).
    destruct (Q_max_cases acc w) as (Ha & Hw & Hor).
    repeat split.
    + eapply Qle_trans; eassumption.
    + constructor; [eapply Qle_trans; eassumption | assumption].
    + destruct Hin as [-> | Hin]; [| now auto].
      destruct Hor as [-> | ->]; auto.
Qed.

Lemma positive_weights :
  Forall (fun w => (0 < w)%Q) (map snd highValuePatterns).
Proof. simpl. repeat constructor. Qed.

Lemma top_weight w :
  In w (map snd highValuePatterns) -> (95 # 100 <= w)%Q -> w = 95 # 100.
Proof.
  simpl. intros Hin Hle.
  repeat (destruct Hin as [<- | Hin];
          [first [reflexivity | exfalso; unfold Qle in Hle; simpl in Hle; lia] |]).
  contradiction.
Qed.

Lemma matched_weights_in table text w :
  In w (matched_weights table text) -> In w (map snd table).
Proof.
  unfold matched_weights. rewrite !in_map_iff.
  intros (pw & <- & Hin). apply filter_In in Hin as [Hin _]. eauto.
Qed.

Lemma matched_weights_nil table text :
  matched_weights table text = []
  <-> existsb (fun pw => test (fst pw) text) table = false.
Proof.
  unfold matched_weights.
  induction table as [|[p w] table IH]; simpl; [tauto |].
  destruct (test p text); simpl; [split; discriminate | exact IH].
Qed.

(** The score of a link is the greatest matched weight, 0 when nothing
    matches. *)
Lemma heuristicScore_spec l :
  let ws := matched_weights highValuePatterns (textToCheck l) in
  Forall (fun w => (w <= heuristicScore l)%Q) ws
  /\ (ws = [] -> heuristicScore l = 0%Q)
  /\ (ws <> [] -> In (heuristicScore l) ws).
Proof.
  unfold heuristicScore, max_weight. rewrite max_weight_fold.
  set (ws := matched_weights highValuePatterns (textToCheck l)).
  destruct (fold_Q_max_spec ws 0%Q) as (H0 & Hall & Hin). cbv zeta in *.
  repeat split; [assumption | now intros -> |].
  intros Hne. destruct Hin as [Heq | Hin]; [| assumption].
  destruct ws as [|w ws'] eqn:Hws; [congruence |]. exfalso.
  assert (Hpos : (0 < w)%Q).
  { pose proof positive_weights as Hp. rewrite List.Forall_forall in Hp.
    apply Hp. apply (matched_weights_in highValuePatterns (textToCheck l)).
    fold ws. rewrite Hws. now left. }
  inversion Hall as [|? ? Hw _]; subst. rewrite Heq in Hw.
  exact (Qlt_not_le _ _ Hpos Hw).
Qed.

Lemma heuristicScore_positive l :
  Qltb 0 (heuristicScore l)
  = existsb (fun pw => test (fst pw) (textToCheck l)) highValuePatterns.
Proof.
  destruct (heuristicScore_spec l) as (_ & Hnil & Hin).
  destruct (existsb _ highValuePatterns) eqn:E.
  - apply Qltb_lt.
    assert (Hne : matched_weights highValuePatterns (textToCheck l) <> []).
    { intros Hn. apply matched_weights_nil in Hn. congruence. }
    specialize (Hin Hne). apply matched_weights_in in Hin.
    pose proof positive_weights as Hp. rewrite List.Forall_forall in Hp. auto.
  - apply matched_weights_nil in E. rewrite (Hnil E). reflexivity.
Qed.

Lemma scored_survivors ls :
  map fst (List.filter (fun s : ExtractedLink * Q => Qltb 0 (snd s))
             (map (fun l => (l, heuristicScore l)) ls))
  = List.filter (fun l => Qltb 0 (heuristicScore l)) ls.
Proof.
  induction ls as [|l ls IH]; [reflexivity |].
  cbn [map List.filter snd].
  destruct (Qltb 0 (heuristicScore l)); cbn [map fst]; now rewrite IH.
Qed.

Lemma sorted_links (ps : list (ExtractedLink * Q)) :
  Forall (fun p => snd p = heuristicScore (fst p)) ps ->
  StronglySorted (desc snd) ps ->
  StronglySorted (desc heuristicScore) (map fst ps).
Proof.
  intros Hps Hs. induction Hs as [|p ps Hs IH Hall]; simpl; [constructor |].
  inversion Hps as [|? ? Hp Hps']; subst.
  constructor; [now apply IH |].
  apply List.Forall_forall. intros l Hl. apply in_map_iff in Hl as (q & <- & Hq).
  rewrite List.Forall_forall in Hall, Hps'.
  specialize (Hall q Hq). unfold desc in *. now rewrite <- Hp, <- (Hps' q Hq).
Qed.

Lemma rfp_anchor_matches u c :
  test (contains (alts ["rfp"; "rfq"; "rfi"]))
       (toLowerCase (u +:+ " " +:+ "FY2025 RFP for IT Services" +:+ " " +:+ c))
  = true.
Proof.
  rewrite toLowerCase_app. unfold test, contains; cbn [from_start body to_end].
  apply search_app. cbn [append toLowerCase].
  do 8 apply search_skip. apply search_here.
  do 3 apply match_here_step. apply match_here_nullable. reflexivity.
Qed.

(** C8.  [heuristicRank] keeps exactly the links whose text (URL, anchor and
    context, lower-cased) matches a pattern of the weight table and drops
    the others; it returns them by descending score; the score of a link
    is the greatest weight among the patterns it matches; and a link with
    the anchor text "FY2025 RFP for IT Services" scores 0.95, the weight of
    the rfp/rfq/rfi pattern, whatever its URL and context.  The function
    takes no classifier: it is defined outside the section that has one. *)
Theorem heuristicRank_spec :
  (forall ls,
      Permutation (heuristicRank ls)
        (List.filter
           (fun l => existsb (fun pw => test (fst pw) (textToCheck l)) highValuePatterns)
           ls)
      /\ StronglySorted (fun a b => (heuristicScore b <= heuristicScore a)%Q)
           (heuristicRank ls))
  /\ (forall l,
        let ws := matched_weights highValuePatterns (textToCheck l) in
        Forall (fun w => (w <= heuristicScore l)%Q) ws
        /\ (ws = [] -> heuristicScore l = 0%Q)
        /\ (ws <> [] -> In (heuristicScore l) ws))
  /\ (forall u c attrs,
        heuristicScore {| url := u; anchorText := "FY2025 RFP for IT Services";
                          context := c; attributes := attrs |} = 95 # 100).
Proof.
  split; [| split].
  - intros ls. unfold heuristicRank. split.
    + rewrite (Permutation_map fst (sort_desc_perm snd _)), scored_survivors.
      erewrite filter_ext; [reflexivity |].
      intros l. apply heuristicScore_positive.
    + apply sorted_links; [| apply sort_desc_sorted].
      apply (Permutation_Forall (Permutation_sym (sort_desc_perm snd _))).
      apply List.Forall_forall. intros p Hp.
      apply filter_In in Hp as [Hp _]. apply in_map_iff in Hp as (l & <- & _).
      reflexivity.
  - apply heuristicScore_spec.
  - intros u c attrs.
    set (l := {| url := u; anchorText := "FY2025 RFP for IT Services";
                 context := c; attributes := attrs |}).
    destruct (heuristicScore_spec l) as (Hall & _ & Hin). cbv zeta in *.
    assert (Hrfp : In (95 # 100) (matched_weights highValuePatterns (textToCheck l))).
    { unfold matched_weights. apply in_map_iff.
      exists (contains (alts ["rfp"; "rfq"; "rfi"]), 95 # 100). split; [reflexivity |].
      apply filter_In. split; [simpl; tauto |].
      apply rfp_anchor_matches. }
    apply top_weight.
    + apply (matched_weights_in highValuePatterns (textToCheck l)).
      apply Hin. intros Hn. rewrite Hn in Hrfp. contradiction.
    + rewrite List.Forall_forall in Hall. now apply Hall.
Qed.

End RankerFacts.

(** ** Loops that end *)

Module RunFacts.
Import Run.


Lemma settles_const {A} (r : run A) : r <> OutOfFuel -> settles (fun _ => r) r.
Proof. intros H. split; [assumption |]. exists O. reflexivity. Qed.

Lemma settles_bind {A B} (f : nat -> run A) (g : nat -> A -> run B) a r :
  settles f (Done a) -> settles (fun m => g m a) r ->
  settles (fun m => bind (f m) (g m)) r.
Proof.
  intros [_ [n1 H1]] [Hr [n2 H2]]. split; [assumption |].
  exists (Nat.max n1 n2). intros m Hm.
  rewrite H1 by lia. cbn [bind]. apply H2. lia.
Qed.

Lemma settles_bind_threw {A B} (f : nat -> run A) (g : nat -> A -> run B) e :
  settles f (Threw e) -> settles (fun m => bind (f m) (g m)) (Threw e).
Proof.
  intros [_ [n1 H1]]. split; [discriminate |].
  exists n1. intros m Hm. now rewrite H1.
Qed.

Lemma settles_ext {A} (f g : nat -> run A) r :
  (forall m, f m = g m) -> settles f r -> settles g r.
Proof.
  intros Hfg [Hr [n H]]. split; [assumption |].
  exists n. intros m Hm. rewrite <- Hfg. now apply H.
Qed.

Lemma settles_unique {A} (f : nat -> run A) r1 r2 :
  settles f r1 -> settles f r2 -> r1 = r2.
Proof.
  intros [_ [n1 H1]] [_ [n2 H2]].
  rewrite <- (H1 (Nat.max n1 n2)), <- (H2 (Nat.max n1 n2)) by lia. reflexivity.
Qed.
End RunFacts.

(** ** Crawler *)

Module CrawlerFacts.
Import JsString Url Score Extractor Ranker Run Crawler ScoreFacts.

Section Loop.
Variable URL_parse : string -> option URL.
Variable fetchPage : string -> option (string * string * list ExtractedLink).
Variable chatCompletion : nat -> RankerConfig -> list ExtractedLink -> option (list Ranking).
Variable cfg : CrawlerConfig.
Variable seedDomain : string.

Abbreviation normalize := (normalizeUrl URL_parse).
Abbreviation iteration fuel := (crawl_iteration URL_parse fetchPage chatCompletion fuel cfg seedDomain).
Abbreviation loop fuel := (crawl_loop URL_parse fetchPage chatCompletion fuel cfg seedDomain).
Abbreviation reachable := (reaches URL_parse fetchPage chatCompletion cfg seedDomain).
Abbreviation iteration_effect := (Crawler.iteration_effect URL_parse cfg).
Abbreviation fetch_once := (Crawler.fetch_once URL_parse).
Abbreviation depth_bounded := (Crawler.depth_bounded cfg).
Abbreviation within_budget := (Crawler.within_budget cfg).
Abbreviation paced := (Crawler.paced cfg).
Abbreviation pages_left := (Crawler.pages_left cfg).


Lemma new_items_depth vis item n highValue :
  Forall (fun it => depth it = depth item + 1)
         (new_items URL_parse vis item n highValue).
Proof.
  unfold new_items. apply List.Forall_forall. intros it Hit.
  apply in_map_iff in Hit as (l & <- & _). reflexivity.
Qed.

Lemma process_page_effect fuel item n page st st' :
  process_page URL_parse chatCompletion fuel cfg item n page st = Done st' ->
  visited st' = visited st /\ pages st' = pages st /\ reports st' = reports st
  /\ (exists new,
        queue st' = queue st ++ new
        /\ Forall (fun it => depth it = depth item + 1 /\ depth item < maxDepth cfg) new)
  /\ (sleeps st' = sleeps st \/ sleeps st' = sleeps st ++ [requestDelayMs cfg]).
Proof.
  unfold process_page.
  destruct ((depth item <? maxDepth cfg) && (0 <? List.length (links page))%nat) eqn:Hdeep.
  - apply andb_true_iff in Hdeep as [Hdepth _]. apply Z.ltb_lt in Hdepth.
    destruct (preFilterLinks URL_parse (links page) n) as [| |filtered];
      cbn [bind]; intros Hst; try discriminate Hst.
    destruct (rank_page chatCompletion fuel cfg (calls st) filtered)
      as [| |[ranked calls']]; cbn [bind] in Hst; try discriminate Hst. inversion Hst; subst st'; clear Hst.
    cbn [visited pages reports queue sleeps]. do 3 (split; [reflexivity |]). split.
    + eexists. split; [reflexivity |].
      eapply List.Forall_impl; [| apply new_items_depth]. cbv beta. intros; now split.
    + match goal with |- context [if ?b then _ else _] => destruct b end; auto.
  - intros Hst. inversion Hst; subst st'; clear Hst.
    cbn [visited pages reports queue sleeps]. do 3 (split; [reflexivity |]). split.
    + exists []. rewrite app_nil_r. split; [reflexivity | constructor].
    + match goal with |- context [if ?b then _ else _] => destruct b end; auto.
Qed.

Lemma extractLinksFromUrl_url n page :
  extractLinksFromUrl fetchPage n = Some page -> page_url page = n.
Proof.
  unfold extractLinksFromUrl. destruct (fetchPage n) as [[[t md] ls]|]; [| discriminate].
  intros H. now inversion H.
Qed.

Lemma crawl_iteration_effect fuel st st' :
  iteration fuel st = Done st' ->
  queue st <> [] ->
  exists item rest,
    sort_desc score_or_zero (queue st) = item :: rest
    /\ iteration_effect st st' item rest.
Proof.
  unfold crawl_iteration. intros Hrun Hq.
  destruct (sort_desc score_or_zero (queue st)) as [|item rest] eqn:Hsort.
  { exfalso. apply Hq. apply Permutation_nil.
    rewrite <- Hsort. apply sort_desc_perm. }
  exists item, rest. split; [reflexivity |].
  destruct (bool_decide (normalize (q_url item) ∈ visited st)) eqn:Hvis.
  { inversion Hrun; subst st'. now apply Skipped. }
  apply bool_decide_eq_false in Hvis.
  destruct (sameDomainOnly cfg && _).
  { inversion Hrun; subst st'. now apply Skipped. }
  destruct (extractLinksFromUrl fetchPage (normalize (q_url item))) as [page|] eqn:Hfetch.
  - apply process_page_effect in Hrun as (Hv & Hp & Hr & (new & Hnew & Hdepth) & Hs).
    cbn [visited pages reports queue sleeps] in *.
    eapply Fetched; eauto using extractLinksFromUrl_url.
  - inversion Hrun; subst st'.
    eapply FetchFailed; cbn [visited pages reports queue sleeps]; eauto.
Qed.

Lemma loop_guard_queue st : loop_guard cfg st = true -> queue st <> [].
Proof.
  unfold loop_guard. intros H Hq. rewrite Hq in H. discriminate.
Qed.

Lemma loop_guard_budget st :
  loop_guard cfg st = true -> Z.of_nat (List.length (pages st)) < maxPages cfg.
Proof.
  unfold loop_guard. intros H. apply andb_true_iff in H as [_ H]. now apply Z.ltb_lt.
Qed.

Lemma reaches_step_first fuel st st1 st' :
  loop_guard cfg st = true ->
  iteration fuel st = Done st1 ->
  reachable st1 st' -> reachable st st'.
Proof.
  intros Hg Hit Hr. induction Hr as [|fuel' a b c Hab IH Hgb Hbc].
  - eapply reaches_step; [apply reaches_refl | eassumption | eassumption].
  - eapply reaches_step; [apply IH; assumption | eassumption | eassumption].
Qed.

(** A loop that returns went through reachable states and ends where the
    guard fails. *)
Lemma crawl_loop_reaches fuel :
  forall st st', loop fuel st = Done st' ->
                 reachable st st' /\ loop_guard cfg st' = false.
Proof.
  induction fuel as [|fuel IH]; intros st st' Hrun; [discriminate |].
  cbn [crawl_loop] in Hrun. destruct (loop_guard cfg st) eqn:Hg.
  - destruct (iteration fuel st) as [| |st1] eqn:Hit; cbn [bind] in Hrun; try discriminate.
    apply IH in Hrun as [Hr Hgf]. split; [| assumption].
    eapply reaches_step_first; eassumption.
  - inversion Hrun; subst. split; [apply reaches_refl | assumption].
Qed.

(** A property kept by every iteration holds in every reachable state. *)
Lemma reaches_invariant (P : CrawlState -> Prop) :
  (forall fuel st st', P st -> loop_guard cfg st = true ->
                       iteration fuel st = Done st' -> P st') ->
  forall st st', P st -> reachable st st' -> P st'.
Proof.
  intros Hstep st st' HP Hr. induction Hr; eauto.
Qed.

(** *** Each URL is fetched at most once *)


Lemma NoDup_snoc {A} (l : list A) (x : A) :
  List.NoDup l -> ~ In x l -> List.NoDup (l ++ [x]).
Proof.
  intros Hl Hx. apply NoDup_rev in Hl.
  rewrite <- (rev_involutive (l ++ [x])). apply NoDup_rev.
  rewrite rev_app_distr. simpl. constructor; [| assumption].
  now rewrite <- in_rev.
Qed.

Lemma fetch_once_step fuel st st' :
  fetch_once st -> loop_guard cfg st = true ->
  iteration fuel st = Done st' -> fetch_once st'.
Proof.
  intros (Hp & Hr & Hpv & Hrv & Hn) Hg Hit.
  apply crawl_iteration_effect in Hit as (item & rest & _ & Heff);
    [| now apply loop_guard_queue].
  destruct Heff as [Hv Hq Hpg Hrp Hs
                   | r Hfresh Hv Hrp Hu Hd Hq Hpg Hs
                   | r page new Hfresh Hv Hrp Hu Hd Hpu Hpg Hq Hnew Hs];
    unfold Crawler.fetch_once; rewrite ?Hv, ?Hpg, ?Hrp.
  - auto 6.
  - rewrite map_app. cbn [map]. repeat split; auto.
    + apply NoDup_snoc; [assumption |]. rewrite Hu. intros Hin.
      apply in_map_iff in Hin as (r0 & Heq & Hin). apply Hfresh.
      rewrite <- Heq. auto.
    + intros p Hin. apply elem_of_union_r. auto.
    + intros r0 Hin. apply in_app_iff in Hin as [Hin | [<- | []]].
      * apply elem_of_union_r. auto.
      * rewrite Hu. apply elem_of_union_l. now apply elem_of_singleton.
  - rewrite !map_app. cbn [map]. repeat split.
    + apply NoDup_snoc; [assumption |]. rewrite Hpu. intros Hin.
      apply in_map_iff in Hin as (p0 & Heq & Hin). apply Hfresh.
      rewrite <- Heq. auto.
    + apply NoDup_snoc; [assumption |]. rewrite Hu. intros Hin.
      apply in_map_iff in Hin as (r0 & Heq & Hin). apply Hfresh.
      rewrite <- Heq. auto.
    + intros p Hin. apply in_app_iff in Hin as [Hin | [<- | []]].
      * apply elem_of_union_r. auto.
      * rewrite Hpu. apply elem_of_union_l. now apply elem_of_singleton.
    + intros r0 Hin. apply in_app_iff in Hin as [Hin | [<- | []]].
      * apply elem_of_union_r. auto.
      * rewrite Hu. apply elem_of_union_l. now apply elem_of_singleton.
    + intros p Hin. apply in_app_iff in Hin as [Hin | [<- | []]]; eauto.
Qed.

Lemma fetch_once_initial s : fetch_once (initial_state s).
Proof.
  unfold Crawler.fetch_once, initial_state. cbn. repeat split; try constructor; contradiction.
Qed.

(** *** Depth bound *)


Lemma depth_bounded_step fuel st st' :
  depth_bounded st -> loop_guard cfg st = true ->
  iteration fuel st = Done st' -> depth_bounded st'.
Proof.
  intros (Hq & Hr & Hp) Hg Hit.
  apply crawl_iteration_effect in Hit as (item & rest & Hsort & Heff);
    [| now apply loop_guard_queue].
  assert (Hperm : Permutation (queue st) (item :: rest)).
  { rewrite <- Hsort. symmetry. apply sort_desc_perm. }
  apply (Permutation_Forall Hperm) in Hq.
  inversion Hq as [|? ? Hitem Hrest]; subst.
  destruct Heff as [Hv Hq' Hpg Hrp Hs
                   | r Hfresh Hv Hrp Hu Hd Hq' Hpg Hs
                   | r page new Hfresh Hv Hrp Hu Hd Hpu Hpg Hq' Hnew Hs];
    unfold Crawler.depth_bounded; rewrite ?Hq', ?Hpg, ?Hrp.
  - auto.
  - repeat split; [assumption | |].
    + apply Forall_app. split; [assumption |]. constructor; [lia | constructor].
    + intros p Hin. destruct (Hp p Hin) as (r0 & Hr0 & Heq).
      exists r0. split; [apply in_app_iff; now left | assumption].
  - repeat split.
    + apply Forall_app. split; [assumption |].
      eapply List.Forall_impl; [| exact Hnew]. cbv beta. intros it [-> Hlt]. lia.
    + apply Forall_app. split; [assumption |]. constructor; [lia | constructor].
    + intros p Hin. apply in_app_iff in Hin as [Hin | [<- | []]].
      * destruct (Hp p Hin) as (r0 & Hr0 & Heq).
        exists r0. split; [apply in_app_iff; now left | assumption].
      * exists r. split; [apply in_app_iff; right; now left | congruence].
Qed.

Lemma depth_bounded_initial s : 0 <= maxDepth cfg -> depth_bounded (initial_state s).
Proof.
  intros H. unfold Crawler.depth_bounded, initial_state. cbn.
  repeat split; try constructor; try (intros; contradiction); auto.
Qed.

(** *** Page budget and sleeps *)


Lemma within_budget_step fuel st st' :
  within_budget st -> loop_guard cfg st = true ->
  iteration fuel st = Done st' -> within_budget st'.
Proof.
  unfold Crawler.within_budget. intros Hb Hg Hit.
  pose proof (loop_guard_budget st Hg) as Hlt.
  apply crawl_iteration_effect in Hit as (item & rest & _ & Heff);
    [| now apply loop_guard_queue].
  destruct Heff as [Hv Hq' Hpg Hrp Hs
                   | r Hfresh Hv Hrp Hu Hd Hq' Hpg Hs
                   | r page new Hfresh Hv Hrp Hu Hd Hpu Hpg Hq' Hnew Hs];
    rewrite Hpg; try assumption.
  rewrite length_app. simpl. lia.
Qed.


Lemma paced_step fuel st st' :
  paced st -> loop_guard cfg st = true ->
  iteration fuel st = Done st' -> paced st'.
Proof.
  unfold Crawler.paced. intros Hs0 Hg Hit.
  apply crawl_iteration_effect in Hit as (item & rest & _ & Heff);
    [| now apply loop_guard_queue].
  destruct Heff as [Hv Hq' Hpg Hrp Hs
                   | r Hfresh Hv Hrp Hu Hd Hq' Hpg Hs
                   | r page new Hfresh Hv Hrp Hu Hd Hpu Hpg Hq' Hnew Hs];
    try (rewrite Hs; assumption).
  destruct Hs as [-> | ->]; [assumption |].
  apply Forall_app. split; [assumption | now repeat constructor].
Qed.
(** *** Termination *)

Abbreviation ranker_config :=
  (merge_ranker_config (or_default (rankerConfig cfg) no_overrides)).

Lemma rankLinks_loop_settles ls rcfg :
  0 < batchSize rcfg ->
  forall k i acc calls,
    0 <= i ->
    (Z.to_nat (Z.of_nat (List.length ls) - i) <= k)%nat ->
    exists r, forall m, (k < m)%nat ->
      rankLinks_loop chatCompletion m ls rcfg i acc calls = Done r.
Proof.
  intros Hbs. induction k as [|k IH]; intros i acc calls Hi Hk.
  - eexists. intros [|m] Hm; [lia |]. cbn [rankLinks_loop].
    destruct (Z.ltb_spec i (Z.of_nat (List.length ls))); [lia | reflexivity].
  - destruct (Z.ltb_spec i (Z.of_nat (List.length ls))) as [Hlt | Hge].
    + destruct (IH (i + batchSize rcfg)
                   (acc ++ rankBatch chatCompletion calls
                             (js_slice ls i (i + batchSize rcfg)) rcfg)
                   (S calls)) as [r Hr]; [lia | lia |].
      exists r. intros [|m] Hm; [lia |]. cbn [rankLinks_loop].
      destruct (Z.ltb_spec i (Z.of_nat (List.length ls))); [| lia].
      apply Hr. lia.
    + eexists. intros [|m] Hm; [lia |]. cbn [rankLinks_loop].
      destruct (Z.ltb_spec i (Z.of_nat (List.length ls))); [lia | reflexivity].
Qed.

Lemma rankLinks_settles calls ls config :
  0 < batchSize (merge_ranker_config config) ->
  exists r, settles
              (fun m => rankLinks chatCompletion m calls ls config) (Done r).
Proof.
  intros Hbs. unfold rankLinks.
  destruct (List.length ls =? 0)%nat.
  - eexists. now apply RunFacts.settles_const.
  - destruct (rankLinks_loop_settles ls _ Hbs (List.length ls) 0 [] calls)
      as [r Hr]; [lia | lia |].
    exists r. split; [discriminate |].
    exists (S (List.length ls)). intros m Hm. apply Hr. lia.
Qed.

Lemma rank_page_settles calls filtered :
  0 < batchSize ranker_config ->
  exists r, settles
              (fun m => rank_page chatCompletion m cfg calls filtered) (Done r).
Proof.
  intros Hbs. unfold rank_page. destruct (useLlmRanking cfg).
  - destruct (0 <? List.length (heuristicRank filtered))%nat.
    + now apply rankLinks_settles.
    + eexists. now apply RunFacts.settles_const.
  - eexists. now apply RunFacts.settles_const.
Qed.

Lemma process_page_settles item n page st :
  0 < batchSize ranker_config ->
  exists r, settles
              (fun m => process_page URL_parse chatCompletion m cfg item n page st) r.
Proof.
  intros Hbs. unfold process_page.
  destruct ((depth item <? maxDepth cfg) && (0 <? List.length (links page))%nat).
  - destruct (preFilterLinks URL_parse (links page) n) as [|e|filtered] eqn:Hpre.
    + unfold preFilterLinks in Hpre. destruct (URL_parse n); discriminate.
    + exists (Threw e). now apply RunFacts.settles_const.
    + cbn [bind].
      destruct (rank_page_settles (calls st) filtered Hbs) as [[ranked calls'] Hr].
      eexists. eapply (RunFacts.settles_bind _ (fun _ => _)); [exact Hr |].
      cbv beta. now apply RunFacts.settles_const.
  - eexists. now apply RunFacts.settles_const.
Qed.

Lemma crawl_iteration_settles st :
  0 < batchSize ranker_config ->
  exists r, settles (fun m => iteration m st) r.
Proof.
  intros Hbs. unfold crawl_iteration.
  destruct (sort_desc score_or_zero (queue st)) as [|item rest].
  { eexists. now apply RunFacts.settles_const. }
  destruct (bool_decide _).
  { eexists. now apply RunFacts.settles_const. }
  destruct (sameDomainOnly cfg && _).
  { eexists. now apply RunFacts.settles_const. }
  destruct (extractLinksFromUrl fetchPage _).
  - now apply process_page_settles.
  - eexists. now apply RunFacts.settles_const.
Qed.


Lemma loop_settles_unguarded st :
  loop_guard cfg st = false -> settles (fun m => loop m st) (Done st).
Proof.
  intros Hg. split; [discriminate |]. exists 1%nat.
  intros [|m] Hm; [lia |]. cbn [crawl_loop]. now rewrite Hg.
Qed.

Lemma loop_settles_step st r1 r :
  loop_guard cfg st = true ->
  settles (fun m => iteration m st) r1 ->
  match r1 with
  | Done st1 => settles (fun m => loop m st1) r
  | Threw e => r = Threw e
  | OutOfFuel => False
  end ->
  settles (fun m => loop m st) r.
Proof.
  intros Hg [Hr1 [n1 H1]] Hnext. destruct r1 as [|e|st1]; [contradiction | |].
  - subst r. split; [discriminate |]. exists (S n1).
    intros [|m] Hm; [lia |]. cbn [crawl_loop]. rewrite Hg, H1 by lia. reflexivity.
  - destruct Hnext as [Hr [n2 H2]]. split; [assumption |].
    exists (S (Nat.max n1 n2)). intros [|m] Hm; [lia |].
    cbn [crawl_loop]. rewrite Hg, H1 by lia. cbn [bind]. apply H2. lia.
Qed.

(** The loop ends: pages are bounded by the budget, and between two pages
    the queue only shrinks. *)
Lemma crawl_loop_settles :
  0 < batchSize ranker_config ->
  forall b q st,
    (pages_left st <= b)%nat -> (List.length (queue st) <= q)%nat ->
    exists r, settles (fun m => loop m st) r.
Proof.
  intros Hbs. induction b as [|b IHb].
  - intros q st Hb _. exists (Done st). apply loop_settles_unguarded.
    unfold loop_guard, Crawler.pages_left in *.
    destruct (Z.ltb_spec (Z.of_nat (List.length (pages st))) (maxPages cfg));
      [lia | apply andb_false_r].
  - induction q as [|q IHq]; intros st Hb Hq.
    + exists (Done st). apply loop_settles_unguarded.
      unfold loop_guard. destruct (queue st); [reflexivity | simpl in Hq; lia].
    + destruct (loop_guard cfg st) eqn:Hg;
        [| exists (Done st); now apply loop_settles_unguarded].
      destruct (crawl_iteration_settles st Hbs) as [r1 Hr1].
      destruct r1 as [|e|st1].
      * destruct Hr1 as [Hne _]. congruence.
      * exists (Threw e). eapply loop_settles_step; [eassumption | exact Hr1 | reflexivity].
      * assert (Hnext : exists r, settles (fun m => loop m st1) r).
        { destruct Hr1 as [_ [n1 H1]].
          pose proof (H1 n1 (Nat.le_refl _)) as Hit.
          pose proof (loop_guard_budget st Hg) as Hlt.
          apply crawl_iteration_effect in Hit as (item & rest & Hsort & Heff);
            [| now apply loop_guard_queue].
          assert (Hlen : List.length (queue st) = S (List.length rest)).
          { rewrite <- (Permutation_length (sort_desc_perm score_or_zero (queue st))).
            now rewrite Hsort. }
          destruct Heff as [Hv Hq' Hpg Hrp Hs
                           | r0 Hfresh Hv Hrp Hu Hd Hq' Hpg Hs
                           | r0 page new Hfresh Hv Hrp Hu Hd Hpu Hpg Hq' Hnew Hs].
          - apply IHq; [unfold Crawler.pages_left in *; rewrite Hpg; lia | rewrite Hq'; lia].
          - apply IHq; [unfold Crawler.pages_left in *; rewrite Hpg; lia | rewrite Hq'; lia].
          - apply (IHb (List.length (queue st1))); [| lia].
            unfold Crawler.pages_left in *. rewrite Hpg, length_app. simpl. lia. }
        destruct Hnext as [r Hr]. exists r.
        eapply loop_settles_step; [eassumption | exact Hr1 | exact Hr].
Qed.
(** *** A batch size of zero *)

Lemma rank_page_zero_batch calls filtered :
  useLlmRanking cfg = true -> batchSize ranker_config = 0 ->
  heuristicRank filtered <> [] ->
  forall fuel, rank_page chatCompletion fuel cfg calls filtered = OutOfFuel.
Proof.
  intros Hllm Hbs Hne fuel. unfold rank_page. rewrite Hllm.
  destruct (heuristicRank filtered) as [|l ls]; [congruence |].
  cbn [List.length Nat.ltb Nat.leb]. unfold rankLinks. cbn [List.length Nat.eqb].
  apply RankerFacts.rankLinks_loop_zero_batch; [assumption | discriminate].
Qed.

Lemma crawl_iteration_zero_batch st item rest page filtered :
  sort_desc score_or_zero (queue st) = item :: rest ->
  normalize (q_url item) ∉ visited st ->
  sameDomainOnly cfg
  && match URL_parse (normalize (q_url item)) with
     | Some u => negb (isSameDomain seedDomain (hostname u))
     | None => true
     end = false ->
  extractLinksFromUrl fetchPage (normalize (q_url item)) = Some page ->
  depth item < maxDepth cfg -> links page <> [] ->
  preFilterLinks URL_parse (links page) (normalize (q_url item)) = Done filtered ->
  heuristicRank filtered <> [] ->
  useLlmRanking cfg = true -> batchSize ranker_config = 0 ->
  forall fuel, iteration fuel st = OutOfFuel.
Proof.
  intros Hsort Hfresh Hdom Hfetch Hdepth Hlinks Hpre Hheur Hllm Hbs fuel.
  unfold crawl_iteration. rewrite Hsort.
  rewrite (bool_decide_eq_false_2 _ Hfresh), Hdom, Hfetch.
  unfold process_page.
  replace (depth item <? maxDepth cfg) with true by (symmetry; now apply Z.ltb_lt).
  destruct (links page) as [|l ls] eqn:Hl; [congruence |].
  cbn [List.length Nat.ltb Nat.leb andb]. rewrite Hpre. cbn [bind].
  now rewrite rank_page_zero_batch.
Qed.

Lemma crawl_loop_stuck st :
  loop_guard cfg st = true ->
  (forall fuel, iteration fuel st = OutOfFuel) ->
  forall fuel, loop fuel st = OutOfFuel.
Proof.
  intros Hg Hit [|fuel]; [reflexivity |].
  cbn [crawl_loop]. now rewrite Hg, Hit.
Qed.
End Loop.

(** C1, the code at the failing input.  The home page links to
    [http://a.com/budget//] and to [http://a.com/budget].  [normalizeUrl]
    takes one slash off the first, so the two are kept under two different
    keys of the visited set, [http://a.com/budget/] and
    [http://a.com/budget], and both are fetched: the crawl returns three
    pages, and the second and the third have the same normalized URL. *)
Theorem crawl_fetches_slash_variants_twice :
  exists st,
    crawl_run parse_reference Scenarios.slash_web Scenarios.approving_classifier
              10 "http://a.com" Scenarios.no_config = Done st
    /\ crawl parse_reference Scenarios.slash_web Scenarios.approving_classifier
              10 "http://a.com" Scenarios.no_config = Done (result_of st)
    /\ map page_url (result_pages (result_of st))
       = ["http://a.com/"; "http://a.com/budget/"; "http://a.com/budget"]
    /\ map (fun p => normalizeUrl parse_reference (page_url p))
           (result_pages (result_of st))
       = ["http://a.com/"; "http://a.com/budget"; "http://a.com/budget"]
    /\ ~ List.NoDup (map (fun p => normalizeUrl parse_reference (page_url p))
                         (result_pages (result_of st))).
Proof.
  eexists. split; [vm_compute; reflexivity |].
  split; [vm_compute; reflexivity |].
  split; [vm_compute; reflexivity |].
  assert (Hnorm : map (fun p => normalizeUrl parse_reference (page_url p))
                      (result_pages (result_of
                         (Scenarios.final_state
                            (crawl_run parse_reference Scenarios.slash_web
                               Scenarios.approving_classifier 10 "http://a.com"
                               Scenarios.no_config))))
                  = ["http://a.com/"; "http://a.com/budget"; "http://a.com/budget"])
    by (vm_compute; reflexivity).
  split; [exact Hnorm |].
  intros Hnd.
  change (List.NoDup (map (fun p => normalizeUrl parse_reference (page_url p))
                      (result_pages (result_of
                         (Scenarios.final_state
                            (crawl_run parse_reference Scenarios.slash_web
                               Scenarios.approving_classifier 10 "http://a.com"
                               Scenarios.no_config)))))) in Hnd.
  rewrite Hnorm in Hnd.
  inversion Hnd as [|? ? _ Hrest]; subst. inversion Hrest as [|? ? Hin _]; subst.
  apply Hin. now left.
Qed.

(** C2, as the code has it.  With [maxDepth >= 0], in every state the loop
    of a crawl goes through: the seed was queued at depth 0; the item
    taken from the queue has a depth of at most [maxDepth]; every fetch,
    and so every page, happened at a depth of at most [maxDepth]; and the
    links queued by an iteration all have the depth of the item plus one
    and come from an item whose depth is below [maxDepth]. *)
Theorem crawl_depth_bounded URL_parse fetchPage chatCompletion
    (seedUrl seedDomain : string) (config : CrawlerOverrides) (st : CrawlState) :
  let cfg := with_defaults config in
  let start := initial_state (normalizeUrl URL_parse seedUrl) in
  0 <= maxDepth cfg ->
  reaches URL_parse fetchPage chatCompletion cfg seedDomain start st ->
  Forall (fun it => depth it = 0) (queue start)
  /\ (forall item, dequeues cfg st item -> depth item <= maxDepth cfg)
  /\ Forall (fun r => currentDepth r <= maxDepth cfg) (reports st)
  /\ (forall p, In p (pages st) ->
        exists r, In r (reports st) /\ currentUrl r = page_url p
                  /\ currentDepth r <= maxDepth cfg)
  /\ (forall fuel st',
        loop_guard cfg st = true ->
        crawl_iteration URL_parse fetchPage chatCompletion fuel cfg seedDomain st
          = Done st' ->
        exists item rest new,
          sort_desc score_or_zero (queue st) = item :: rest
          /\ queue st' = rest ++ new
          /\ Forall (fun it => depth it = depth item + 1
                               /\ depth item < maxDepth cfg) new).
Proof.
  intros cfg start Hdepth Hreach.
  assert (Hinv : depth_bounded cfg st).
  { eapply reaches_invariant; [| apply depth_bounded_initial | exact Hreach];
      [| assumption].
    intros f a b. apply depth_bounded_step. }
  destruct Hinv as (Hq & Hr & Hp).
  split; [repeat constructor |]. split; [| split; [assumption | split]].
  - intros item [_ [rest Hsort]].
    assert (Hperm : Permutation (queue st) (item :: rest)).
    { rewrite <- Hsort. symmetry. apply sort_desc_perm. }
    apply (Permutation_Forall Hperm) in Hq. now inversion Hq.
  - intros p Hin. destruct (Hp p Hin) as (r & Hrin & Heq).
    exists r. repeat split; try assumption.
    rewrite List.Forall_forall in Hr. now apply Hr.
  - intros fuel st' Hg Hit.
    apply crawl_iteration_effect in Hit as (item & rest & Hsort & Heff);
      [| now apply (loop_guard_queue cfg)].
    exists item, rest.
    destruct Heff as [Hv Hq' Hpg Hrp Hs
                     | r Hfresh Hv Hrp Hu Hd Hq' Hpg Hs
                     | r page new Hfresh Hv Hrp Hu Hd Hpu Hpg Hq' Hnew Hs].
    + exists []. rewrite app_nil_r. repeat split; auto.
    + exists []. rewrite app_nil_r. repeat split; auto.
    + exists new. repeat split; auto.
Qed.

Lemma crawl_depth_bounded_witness :
  let cfg := with_defaults Scenarios.no_config in
  let st := Scenarios.final_state
              (crawl_run parse_reference Scenarios.cycle_web
                 Scenarios.approving_classifier 10 "http://a.com" Scenarios.no_config) in
  (forall item, dequeues cfg st item -> depth item <= maxDepth cfg)
  /\ Forall (fun r => currentDepth r <= maxDepth cfg) (reports st)
  /\ List.length (pages st) = 2%nat.
Proof.
  intros cfg st.
  destruct (crawl_depth_bounded parse_reference Scenarios.cycle_web
              Scenarios.approving_classifier "http://a.com" "a.com"
              Scenarios.no_config st) as (_ & Hdeq & Hrep & _).
  - vm_compute. discriminate.
  - apply (crawl_loop_reaches parse_reference Scenarios.cycle_web
             Scenarios.approving_classifier cfg "a.com" 10).
    vm_compute. reflexivity.
  - split; [exact Hdeq | split; [exact Hrep | vm_compute; reflexivity]].
Defined.

(** C2 as stated fails for a negative [maxDepth]: the seed is taken from
    the queue and fetched at depth 0, above [maxDepth = -1]. *)
Lemma negative_maxDepth_counterexample :
  let config := Scenarios.with_maxDepth (-1) in
  exists st r page,
    crawl_run parse_reference Scenarios.cycle_web Scenarios.approving_classifier
              10 "http://a.com" config = Done st
    /\ reports st = [r] /\ pages st = [page]
    /\ currentUrl r = page_url page
    /\ currentDepth r = 0
    /\ ~ currentDepth r <= maxDepth (with_defaults config).
Proof.
  intros config. do 3 eexists.
  split; [vm_compute; reflexivity |].
  do 4 (split; [vm_compute; reflexivity |]).
  vm_compute. intros H. apply H. reflexivity.
Qed.

(** C3, as the code has it.  With [maxPages >= 0] and a ranker batch size
    of at least one, [crawl] ends on every seed and every web, cyclic or
    not: given enough fuel the run gives one result, which is a return or
    the exception of a seed that does not parse -- never a loop.  When it
    returns, the number of pages is at most [maxPages], and the loop has
    ended with an empty queue or with exactly [maxPages] pages.  The loop
    stops at a loop head exactly when its guard fails: it returns the
    state as it is there, and otherwise runs one more iteration. *)
Theorem crawl_terminates_within_budget URL_parse fetchPage chatCompletion
    (seedUrl : string) (config : CrawlerOverrides) :
  let cfg := with_defaults config in
  0 <= maxPages cfg ->
  0 < batchSize (merge_ranker_config (or_default (rankerConfig cfg) no_overrides)) ->
  (exists out,
      settles
        (fun fuel => crawl_run URL_parse fetchPage chatCompletion fuel seedUrl config) out
      /\ settles
           (fun fuel => crawl URL_parse fetchPage chatCompletion fuel seedUrl config)
           (bind out (fun st => Done (result_of st)))
      /\ forall st, out = Done st ->
           Z.of_nat (List.length (result_pages (result_of st))) <= maxPages cfg
           /\ (queue st = []
               \/ Z.of_nat (List.length (pages st)) = maxPages cfg))
  /\ (forall fuel seedDomain st,
        (loop_guard cfg st = false ->
         crawl_loop URL_parse fetchPage chatCompletion (S fuel) cfg seedDomain st
         = Done st)
        /\ (loop_guard cfg st = true ->
            crawl_loop URL_parse fetchPage chatCompletion (S fuel) cfg seedDomain st
            = bind (crawl_iteration URL_parse fetchPage chatCompletion fuel cfg
                      seedDomain st)
                   (crawl_loop URL_parse fetchPage chatCompletion fuel cfg seedDomain)))
  /\ (forall st, loop_guard cfg st = false <->
                 (queue st = [] \/ maxPages cfg <= Z.of_nat (List.length (pages st)))).
Proof.
  intros cfg Hpages Hbs.
  assert (Hguard : forall st, loop_guard cfg st = false <->
            (queue st = [] \/ maxPages cfg <= Z.of_nat (List.length (pages st)))).
  { intros st. unfold loop_guard. rewrite andb_false_iff, Z.ltb_ge, Nat.ltb_ge.
    split; (intros [H | H]; [left | now right]).
    - destruct (queue st); [reflexivity | simpl in H; lia].
    - rewrite H. simpl. lia. }
  split; [| split; [| exact Hguard]].
  - unfold crawl, crawl_run. fold cfg.
    destruct (URL_parse (normalizeUrl URL_parse seedUrl)) as [u|].
    + set (start := initial_state (normalizeUrl URL_parse seedUrl)).
      destruct (crawl_loop_settles URL_parse fetchPage chatCompletion cfg (hostname u)
                  Hbs (pages_left cfg start) (List.length (queue start)) start) as [out Hout];
        [lia | lia |].
      exists out. split; [exact Hout | split].
      * destruct Hout as [Hne [n Hn]]. split.
        -- destruct out; [congruence | discriminate | discriminate].
        -- exists n. intros m Hm. now rewrite Hn.
      * intros st ->. destruct Hout as [_ [n Hn]].
        pose proof (Hn n (Nat.le_refl _)) as Hrun.
        apply crawl_loop_reaches in Hrun as [Hreach Hg].
        assert (Hb : within_budget cfg st).
        { eapply reaches_invariant; [| | exact Hreach].
          - intros f a b. apply within_budget_step.
          - exact Hpages. }
        unfold Crawler.within_budget in Hb. cbn [result_of result_pages].
        split; [assumption |].
        apply Hguard in Hg as [Hq | Hge]; [now left | right; lia].
    + exists (Threw "Invalid URL"). split; [| split].
      * now apply RunFacts.settles_const.
      * now apply RunFacts.settles_const.
      * discriminate.
  - intros fuel seedDomain st. cbn [crawl_loop]. split; intros ->; reflexivity.
Qed.

Lemma crawl_terminates_within_budget_witness :
  exists out,
    settles
      (fun fuel => crawl_run parse_reference Scenarios.cycle_web
                     Scenarios.approving_classifier fuel "http://a.com"
                     Scenarios.no_config) out
    /\ forall st, out = Done st ->
         Z.of_nat (List.length (result_pages (result_of st))) <= 50.
Proof.
  destruct (crawl_terminates_within_budget parse_reference Scenarios.cycle_web
              Scenarios.approving_classifier "http://a.com" Scenarios.no_config)
    as [(out & Hout & _ & Hres) _].
  - vm_compute. discriminate.
  - reflexivity.
  - exists out. split; [exact Hout |]. intros st Hst. apply (Hres st Hst).
Defined.

(** C3 as stated fails on two configurations.  With [maxPages = -1] the
    loop is not entered, the run returns no page, and 0 is not at most -1.
    With a ranker batch size of 0 the crawl of the two linked pages never
    ends: the batch loop of [rankLinks] keeps its index at 0, so no bound
    on the iterations is enough. *)
Lemma crawl_configuration_counterexample :
  (let config := Scenarios.with_maxPages (-1) in
   exists r,
     crawl parse_reference Scenarios.cycle_web Scenarios.approving_classifier
           1 "http://a.com" config = Done r
     /\ result_pages r = []
     /\ ~ Z.of_nat (List.length (result_pages r)) <= maxPages (with_defaults config))
  /\ (forall fuel,
        crawl parse_reference Scenarios.cycle_web Scenarios.approving_classifier
              fuel "http://a.com" (Scenarios.with_batchSize 0) = OutOfFuel).
Proof.
  split.
  - intros config. eexists.
    split; [vm_compute; reflexivity |].
    split; [reflexivity |].
    vm_compute. intros H. apply H. reflexivity.
  - intros fuel. unfold crawl, crawl_run.
    replace (normalizeUrl parse_reference "http://a.com") with "http://a.com/"
      by (vm_compute; reflexivity).
    replace (parse_reference "http://a.com/")
      with (Some {| site := "http://a.com"; hostname := "a.com"; pathname := "/";
                    query := None; fragment := None |})
      by (vm_compute; reflexivity).
    cbn [hostname].
    rewrite crawl_loop_stuck; [reflexivity | vm_compute; reflexivity |].
    eapply crawl_iteration_zero_batch.
    + reflexivity.
    + cbn [visited initial_state]. apply not_elem_of_empty.
    + vm_compute. reflexivity.
    + vm_compute. reflexivity.
    + vm_compute. reflexivity.
    + vm_compute. discriminate.
    + vm_compute. reflexivity.
    + vm_compute. discriminate.
    + reflexivity.
    + reflexivity.
Qed.

End CrawlerFacts.

(** ** URL normalization, robots.txt and the scraper *)

Module ScraperFacts.
Import JsString Url Score Extractor Ranker Run Crawler Scraper RobotsLines CrawlerFacts.

(** C7, the code at the failing input.  The path [/x//] loses one of its
    two trailing slashes, so the result still ends in a slash on a path
    that is not the root, and normalizing it again gives another string. *)
Theorem normalizeUrl_double_slash :
  normalizeUrl parse_reference "http://a.com/x//" = "http://a.com/x/"
  /\ normalizeUrl parse_reference (normalizeUrl parse_reference "http://a.com/x//")
     = "http://a.com/x"
  /\ normalizeUrl parse_reference (normalizeUrl parse_reference "http://a.com/x//")
     <> normalizeUrl parse_reference "http://a.com/x//".
Proof.
  split; [vm_compute; reflexivity | split; [vm_compute; reflexivity |]].
  vm_compute. discriminate.
Qed.

(** C10.  A URL that the parser refuses is reported as not allowed,
    whatever the list of disallowed paths. *)
Theorem isUrlAllowed_unparseable (URL_parse : string -> option URL)
    (u : string) (rules : list string) :
  URL_parse u = None -> isUrlAllowed URL_parse u rules = false.
Proof. intros H. unfold isUrlAllowed. now rewrite H. Qed.

Lemma isUrlAllowed_unparseable_witness :
  isUrlAllowed parse_reference "not a url" ["/private"] = false.
Proof. apply isUrlAllowed_unparseable. vm_compute. reflexivity. Defined.

(** *** The crawl delay of robots.txt *)


Lemma block_continues lines :
  forall st,
    inUserAgentAll st = true ->
    Forall (fun l => names_agent l = false) lines ->
    inUserAgentAll (fold_left robots_line lines st) = true.
Proof.
  induction lines as [|l lines IH]; intros st Hst Hall; [assumption |].
  inversion Hall as [|? ? Hl Hrest]; subst. simpl. apply IH; [| assumption].
  unfold robots_line. unfold names_agent in Hl. rewrite Hl, Hst.
  destruct (startsWith _ "crawl-delay:").
  - destruct (parseInt _); first [assumption | reflexivity].
  - destruct (startsWith _ "disallow:"); [| assumption].
    destruct (truthy _); first [assumption | reflexivity].
Qed.

Lemma delay_stays lines :
  forall st,
    Forall (fun l => sets_delay l = false) lines ->
    scan_crawlDelay (fold_left robots_line lines st) = scan_crawlDelay st.
Proof.
  induction lines as [|l lines IH]; intros st Hall; [reflexivity |].
  inversion Hall as [|? ? Hl Hrest]; subst. simpl. rewrite IH by assumption.
  unfold robots_line. unfold sets_delay in Hl. rewrite Hl.
  destruct (startsWith _ "user-agent:"); [reflexivity |].
  destruct (inUserAgentAll st); [| reflexivity].
  destruct (startsWith _ "disallow:"); [| reflexivity].
  destruct (truthy _); reflexivity.
Qed.

Lemma agent_star_line st l :
  toLowerCase (trim l) = "user-agent: *" -> inUserAgentAll (robots_line st l) = true.
Proof. intros H. unfold robots_line. rewrite H. reflexivity. Qed.

Lemma delay_five_line st l :
  toLowerCase (trim l) = "crawl-delay: 5" -> inUserAgentAll st = true ->
  scan_crawlDelay (robots_line st l) = Some 5000.
Proof. intros H Hst. unfold robots_line. rewrite H, Hst. reflexivity. Qed.

Lemma other_agent_line st l :
  names_agent l = true -> star_agent l = false ->
  inUserAgentAll (robots_line st l) = false
  /\ scan_crawlDelay (robots_line st l) = scan_crawlDelay st.
Proof.
  unfold names_agent, star_agent, robots_line. intros Hl Hstar.
  destruct (startsWith (toLowerCase (trim l)) "user-agent:"); [| discriminate].
  cbn [andb] in Hstar. cbn [inUserAgentAll scan_crawlDelay]. auto.
Qed.

Lemma other_blocks_ignored lines :
  forall st,
    inUserAgentAll st = false ->
    Forall (fun l => star_agent l = false) lines ->
    scan_crawlDelay (fold_left robots_line lines st) = scan_crawlDelay st.
Proof.
  induction lines as [|l lines IH]; intros st Hst Hall; [reflexivity |].
  inversion Hall as [|? ? Hl Hrest]; subst. cbn [fold_left].
  assert (Hstep : inUserAgentAll (robots_line st l) = false
                  /\ scan_crawlDelay (robots_line st l) = scan_crawlDelay st).
  { unfold star_agent in Hl. unfold robots_line.
    destruct (startsWith (toLowerCase (trim l)) "user-agent:").
    - cbn [andb] in Hl. cbn [inUserAgentAll scan_crawlDelay]. auto.
    - rewrite Hst. auto. }
  destruct Hstep as [Hout Hdelay]. now rewrite IH, Hdelay.
Qed.

Lemma scan_finds_delay before ua mid cd rest others :
  toLowerCase (trim ua) = "user-agent: *" ->
  toLowerCase (trim cd) = "crawl-delay: 5" ->
  Forall (fun l => names_agent l = false) mid ->
  Forall (fun l => sets_delay l = false) rest ->
  match others with
  | [] => True
  | agent :: _ => names_agent agent = true
  end ->
  Forall (fun l => star_agent l = false) others ->
  scan_crawlDelay (scan_lines (before ++ [ua] ++ mid ++ [cd] ++ rest ++ others))
  = Some 5000.
Proof.
  intros Hua Hcd Hmid Hrest Hhead Hothers. unfold scan_lines.
  replace (before ++ [ua] ++ mid ++ [cd] ++ rest ++ others)
    with ((before ++ [ua] ++ mid ++ [cd] ++ rest) ++ others)
    by (now rewrite <- !app_assoc).
  rewrite fold_left_app.
  set (st := fold_left robots_line (before ++ [ua] ++ mid ++ [cd] ++ rest) scan_start).
  assert (Hblock : scan_crawlDelay st = Some 5000).
  { subst st. rewrite !fold_left_app. rewrite delay_stays by assumption.
    cbn [fold_left]. apply delay_five_line; [assumption |].
    apply block_continues; [| assumption].
    now apply agent_star_line. }
  clearbody st.
  destruct others as [|agent others]; [exact Hblock |].
  inversion Hothers as [|? ? Hother Hmore]; subst. cbn [fold_left].
  destruct (other_agent_line st agent Hhead Hother) as [Hout Hdelay].
  rewrite other_blocks_ignored by assumption.
  now rewrite Hdelay.
Qed.

(** C9.  When robots.txt is fetched and its lines hold [Crawl-delay: 5]
    inside the [User-agent: *] block -- no other agent line between the
    two, no further crawl-delay line in the rest of that block, and after
    it only blocks of other agents, whatever delays these ask for --
    [getRobotsInfo] reports 5000 ms, [scrape] hands [crawl] the delay
    max(configured, 5000), where the configured delay is the one given or
    the default of 1000 ms, and every sleep of the crawl lasts that
    long. *)
Theorem robots_crawl_delay_floor URL_parse fetchPage chatCompletion fetchRobots
    (seedUrl text : string) (config : CrawlerOverrides)
    (before mid rest others : list string) (ua cd : string) :
  let configured := or_default (o_requestDelayMs config) 1000 in
  fetchRobots seedUrl = Some text ->
  split_char LF text = before ++ [ua] ++ mid ++ [cd] ++ rest ++ others ->
  toLowerCase (trim ua) = "user-agent: *" ->
  toLowerCase (trim cd) = "crawl-delay: 5" ->
  Forall (fun l => names_agent l = false) mid ->
  Forall (fun l => sets_delay l = false) rest ->
  match others with
  | [] => True
  | agent :: _ => names_agent agent = true
  end ->
  Forall (fun l => star_agent l = false) others ->
  crawlDelay (getRobotsInfo fetchRobots seedUrl) = Some (5 * 1000)
  /\ requestDelayMs (with_defaults (scrape_config fetchRobots seedUrl config))
     = Z.max configured 5000
  /\ forall fuel st,
       scrape_run URL_parse fetchPage chatCompletion fetchRobots fuel seedUrl config
       = Done st ->
       Forall (fun ms => ms = Z.max configured 5000) (sleeps st).
Proof.
  intros configured Hfetch Hlines Hua Hcd Hmid Hrest Hhead Hothers.
  assert (Hdelay : crawlDelay (getRobotsInfo fetchRobots seedUrl) = Some 5000).
  { unfold getRobotsInfo, parse_robots. rewrite Hfetch, Hlines.
    cbn [crawlDelay]. now apply scan_finds_delay. }
  assert (Hcfg : requestDelayMs (with_defaults (scrape_config fetchRobots seedUrl config))
                 = Z.max configured 5000).
  { unfold scrape_config, apply_robots. rewrite Hdelay.
    cbn [Z.eqb with_defaults requestDelayMs o_requestDelayMs or_default
         merge_scraper_config DEFAULT_SCRAPER_CONFIG first_some].
    subst configured. destruct (o_requestDelayMs config) as [c|]; cbn.
    - destruct (Z.eqb_spec c 0); lia.
    - reflexivity. }
  split; [exact Hdelay | split; [exact Hcfg |]].
  intros fuel st Hrun. rewrite <- Hcfg.
  unfold scrape_run, crawl_run in Hrun.
  destruct (URL_parse _) as [u|]; [| discriminate].
  apply crawl_loop_reaches in Hrun as [Hreach _].
  eapply (reaches_invariant _ _ _ _ _ (paced _)); [| | exact Hreach].
  - intros f a b. apply paced_step.
  - constructor.
Qed.

Lemma robots_crawl_delay_floor_witness :
  crawlDelay (getRobotsInfo Scenarios.two_block_server "http://a.com") = Some (5 * 1000)
  /\ requestDelayMs
       (with_defaults (scrape_config Scenarios.two_block_server "http://a.com"
                         (Scenarios.with_requestDelayMs 200)))
     = Z.max 200 5000
  /\ forall fuel st,
       scrape_run parse_reference Scenarios.cycle_web Scenarios.approving_classifier
         Scenarios.two_block_server fuel "http://a.com" (Scenarios.with_requestDelayMs 200)
       = Done st ->
       Forall (fun ms => ms = Z.max 200 5000) (sleeps st).
Proof.
  apply (robots_crawl_delay_floor parse_reference Scenarios.cycle_web
           Scenarios.approving_classifier Scenarios.two_block_server
           "http://a.com" Scenarios.robots_two_blocks (Scenarios.with_requestDelayMs 200)
           [] [] ["Disallow: /private"] ["User-agent: bingbot"; "Crawl-delay: 10"]
           "User-agent: *" "Crawl-delay: 5").
  - reflexivity.
  - vm_compute. reflexivity.
  - vm_compute. reflexivity.
  - vm_compute. reflexivity.
  - constructor.
  - repeat constructor.
  - vm_compute. reflexivity.
  - repeat constructor.
Defined.

End ScraperFacts.

(** ** More on the ranker *)

Module RankerMore.
Import JsString Regex Score Extractor Ranker Run ScoreFacts LinkTools Scenarios.

Lemma sort_desc_of_sorted {A} (key : A -> Q) (l : list A) :
  StronglySorted (desc key) l -> sort_desc key l = l.
Proof.
  induction 1 as [|x l Hs IH Hall]; [reflexivity |].
  cbn [sort_desc fold_right]. fold (sort_desc key l). rewrite IH.
  destruct Hall as [|y l' Hy _]; [reflexivity |].
  cbn [insert_desc]. unfold desc in Hy.
  apply Qltb_ge in Hy. now rewrite Hy.
Qed.

Lemma js_slice_incl {A} (l : list A) (a b : Z) x :
  In x (js_slice l a b) -> In x l.
Proof.
  unfold js_slice. intros H.
  set (a' := Z.to_nat (clamp_index (Z.of_nat (List.length l)) a)) in *.
  set (n := Z.to_nat (clamp_index (Z.of_nat (List.length l)) b
                      - clamp_index (Z.of_nat (List.length l)) a)) in *.
  rewrite <- (firstn_skipn a' l). apply in_or_app. right.
  rewrite <- (firstn_skipn n (skipn a' l)). apply in_or_app. now left.
Qed.

Lemma js_index_in {A} (l : list A) (i : Z) x : js_index l i = Some x -> In x l.
Proof.
  unfold js_index. destruct (i <? 0); [discriminate |]. apply nth_error_In.
Qed.

Section AnyClassifier.
Variable chatCompletion : nat -> RankerConfig -> list ExtractedLink -> option (list Ranking).

Lemma rankBatch_links calls batch cfg r :
  In r (rankBatch chatCompletion calls batch cfg) -> In (link r) batch.
Proof.
  unfold rankBatch. destruct (chatCompletion calls cfg batch) as [rs|].
  - intros Hin. apply list_elem_of_In, list_elem_of_omap in Hin as (ranking & _ & Hr).
    destruct (js_index batch (r_index ranking)) as [l|] eqn:Hidx; [| discriminate].
    inversion Hr; subst. cbn [link]. eapply js_index_in; eassumption.
  - intros Hin. apply in_map_iff in Hin as (l & <- & Hl). exact Hl.
Qed.

Lemma rankLinks_loop_links ls cfg :
  forall fuel i acc calls out calls',
    rankLinks_loop chatCompletion fuel ls cfg i acc calls = Done (out, calls') ->
    Forall (fun r => In (link r) ls) acc ->
    StronglySorted (desc relevanceScore) out /\ Forall (fun r => In (link r) ls) out.
Proof.
  induction fuel as [|fuel IH]; intros i acc calls out calls' Hrun Hacc; [discriminate |].
  cbn [rankLinks_loop] in Hrun.
  destruct (i <? Z.of_nat (List.length ls)).
  - eapply IH; [exact Hrun |]. apply Forall_app. split; [assumption |].
    apply List.Forall_forall. intros r Hr.
    apply rankBatch_links in Hr. eapply js_slice_incl; eassumption.
  - inversion Hrun; subst. split; [apply sort_desc_sorted |].
    apply (Permutation_Forall (Permutation_sym (sort_desc_perm relevanceScore acc))).
    assumption.
Qed.
End AnyClassifier.



End RankerMore.

(** ** Classifier answers that cover the batch *)

Module RankerComplete.
Import JsString Score Extractor Ranker Run ScoreFacts LinkTools Scenarios.

Lemma skipn_cons_nth {A} (l : list A) (k : nat) (x : A) :
  nth_error l k = Some x -> skipn k l = x :: skipn (S k) l.
Proof.
  revert l. induction k as [|k IH]; intros [|y l] H; try discriminate.
  - now inversion H.
  - cbn [nth_error] in H. cbn [skipn]. now apply IH.
Qed.

Lemma firstn_plus {A} (l : list A) (a b : nat) :
  firstn (a + b) l = firstn a l ++ firstn b (skipn a l).
Proof.
  revert l. induction a as [|a IH]; intros [|x l]; cbn; try reflexivity.
  - now rewrite firstn_nil.
  - now rewrite IH.
Qed.

Lemma attach_in_order batch :
  forall m k rs,
    map r_index rs = map Z.of_nat (seq k m) ->
    (k + m <= List.length batch)%nat ->
    map link (omap (attach batch) rs) = firstn m (skipn k batch).
Proof.
  induction m as [|m IH]; intros k rs Hidx Hlen.
  - destruct rs; [reflexivity | discriminate].
  - destruct rs as [|r rs]; [discriminate |].
    cbn [map seq] in Hidx. inversion Hidx as [[Hr Hrest]].
    destruct (nth_error batch k) as [x|] eqn:Hx;
      [| apply nth_error_None in Hx; lia].
    assert (Ha : attach batch r
                 = Some {| link := x; relevanceScore := r_relevanceScore r;
                           category := r_category r; rationale := r_rationale r |}).
    { unfold attach, js_index. rewrite Hr.
      destruct (Z.ltb_spec (Z.of_nat k) 0); [lia |]. now rewrite Nat2Z.id, Hx. }
    change (omap (attach batch) (r :: rs))
      with (match attach batch r with
            | Some y => y :: omap (attach batch) rs
            | None => omap (attach batch) rs
            end).
    rewrite Ha. cbn [map link].
    rewrite (skipn_cons_nth _ _ _ Hx). cbn [firstn]. f_equal.
    apply IH; [assumption | lia].
Qed.

Section Complete.
Variable chatCompletion : nat -> RankerConfig -> list ExtractedLink -> option (list Ranking).

(** The service answers every batch, with one ranking per index of the
    batch, in any order. *)
Hypothesis covers_batch :
  forall n cfg batch, exists rs,
    chatCompletion n cfg batch = Some rs
    /\ Permutation (map r_index rs) (map Z.of_nat (seq 0 (List.length batch))).

Lemma rankBatch_covers calls batch cfg :
  Permutation (map link (rankBatch chatCompletion calls batch cfg)) batch.
Proof.
  unfold rankBatch. destruct (covers_batch calls cfg batch) as (rs & -> & Hperm).
  apply Permutation_sym, Permutation_map_inv in Hperm as (rs' & Hidx & Hrs).
  change (Permutation (map link (omap (attach batch) rs)) batch).
  rewrite Hrs. symmetry in Hidx.
  rewrite (attach_in_order batch _ _ _ Hidx) by lia.
  cbn [skipn]. now rewrite firstn_all.
Qed.

Lemma rankLinks_loop_covers ls cfg :
  0 < batchSize cfg ->
  forall fuel i acc calls out calls',
    rankLinks_loop chatCompletion fuel ls cfg i acc calls = Done (out, calls') ->
    0 <= i ->
    Permutation (map link acc) (firstn (Z.to_nat i) ls) ->
    Permutation (map link out) ls.
Proof.
  intros Hbs. induction fuel as [|fuel IH]; intros i acc calls out calls' Hrun Hi Hacc;
    [discriminate |].
  cbn [rankLinks_loop] in Hrun.
  destruct (Z.ltb_spec i (Z.of_nat (List.length ls))) as [Hlt | Hge].
  - eapply IH; [exact Hrun | lia |].
    rewrite map_app, Z2Nat.inj_add, firstn_plus by lia.
    apply Permutation_app; [assumption |].
    rewrite rankBatch_covers. now rewrite js_slice_batch by lia.
  - inversion Hrun; subst.
    rewrite (Permutation_map link (sort_desc_perm relevanceScore acc)), Hacc.
    now rewrite firstn_all2 by lia.
Qed.
End Complete.

(** X2.  If the classification service answers every batch with exactly
    one ranking per index of the batch, in whatever order, then for every
    batch size of at least one [rankLinks] returns every input link once:
    the links of its result are a permutation of the input. *)
Theorem rankLinks_keeps_every_link
    (chatCompletion : nat -> RankerConfig -> list ExtractedLink -> option (list Ranking))
    (ls : list ExtractedLink) (config : RankerOverrides) (calls fuel : nat) :
  (forall n cfg batch, exists rs,
      chatCompletion n cfg batch = Some rs
      /\ Permutation (map r_index rs) (map Z.of_nat (seq 0 (List.length batch)))) ->
  0 < batchSize (merge_ranker_config config) ->
  (List.length ls < fuel)%nat ->
  exists out calls',
    rankLinks chatCompletion fuel calls ls config = Done (out, calls')
    /\ Permutation (map link out) ls
    /\ List.length out = List.length ls.
Proof.
  intros Hcov Hbs Hfuel. unfold rankLinks.
  destruct ls as [|l ls'].
  - exists [], calls. repeat split; constructor.
  - cbn [List.length Nat.eqb].
    destruct (CrawlerFacts.rankLinks_loop_settles chatCompletion (l :: ls')
                (merge_ranker_config config) Hbs (List.length (l :: ls')) 0 [] calls)
      as [[out calls'] Hr]; [lia | simpl; lia |].
    assert (Hperm : Permutation (map link out) (l :: ls')).
    { eapply (rankLinks_loop_covers chatCompletion Hcov);
        [exact Hbs | apply (Hr fuel Hfuel) | lia | reflexivity]. }
    exists out, calls'. split; [now apply Hr | split; [exact Hperm |]].
    rewrite <- (length_map link). exact (Permutation_length Hperm).
Qed.

Lemma rankLinks_keeps_every_link_witness :
  exists out calls',
    rankLinks approving_classifier 3 0
      [sample_link "http://a.com/budget" "Budget" "see the budget";
       sample_link "http://a.com/bids" "Bids" "open bids"] no_overrides
    = Done (out, calls')
    /\ Permutation (map link out)
         [sample_link "http://a.com/budget" "Budget" "see the budget";
          sample_link "http://a.com/bids" "Bids" "open bids"]
    /\ List.length out = 2%nat.
Proof.
  apply rankLinks_keeps_every_link.
  - intros n cfg batch. eexists. split; [reflexivity |].
    rewrite map_map. reflexivity.
  - reflexivity.
  - simpl. lia.
Defined.
End RankerComplete.

(** ** Heuristic stage, score filter and grouping *)

Module RankerTools.
Import JsString Regex Score Extractor Ranker Run ScoreFacts RankerFacts LinkTools Scenarios.

Lemma least_weight w :
  In w (map snd highValuePatterns) -> (1 # 2 <= w)%Q.
Proof.
  simpl. intros Hin.
  repeat (destruct Hin as [<- | Hin]; [unfold Qle; simpl; lia |]).
  contradiction.
Qed.

Lemma heuristicRank_perm ls :
  Permutation (heuristicRank ls)
              (List.filter (fun l => Qltb 0 (heuristicScore l)) ls).
Proof.
  unfold heuristicRank.
  now rewrite (Permutation_map fst (sort_desc_perm snd _)), scored_survivors.
Qed.

Lemma heuristicRank_survivor ls l :
  In l (heuristicRank ls) -> Qltb 0 (heuristicScore l) = true.
Proof.
  intros Hin. apply (Permutation_in _ (heuristicRank_perm ls)) in Hin.
  apply filter_In in Hin. exact (proj2 Hin).
Qed.

Lemma heuristicRank_sorted ls :
  StronglySorted (desc heuristicScore) (heuristicRank ls).
Proof.
  unfold heuristicRank. apply sorted_links; [| apply sort_desc_sorted].
  apply (Permutation_Forall (Permutation_sym (sort_desc_perm snd _))).
  apply List.Forall_forall. intros p Hp.
  apply filter_In in Hp as [Hp _]. apply in_map_iff in Hp as (l & <- & _).
  reflexivity.
Qed.

Lemma scored_sorted (ls : list ExtractedLink) :
  StronglySorted (desc heuristicScore) ls ->
  StronglySorted (desc snd) (map (fun l => (l, heuristicScore l)) ls).
Proof.
  induction 1 as [|l ls Hs IH Hall]; cbn [map]; constructor; [assumption |].
  apply List.Forall_forall. intros p Hp. apply in_map_iff in Hp as (l' & <- & Hl).
  rewrite List.Forall_forall in Hall. exact (Hall l' Hl).
Qed.

(** X3.  [heuristicRank] applied to its own result changes nothing, and
    every link it keeps scores at least 0.5, the least weight of the
    table. *)
Theorem heuristicRank_idempotent (ls : list ExtractedLink) :
  heuristicRank (heuristicRank ls) = heuristicRank ls
  /\ Forall (fun l => (1 # 2 <= heuristicScore l)%Q) (heuristicRank ls).
Proof.
  split.
  - set (out := heuristicRank ls).
    unfold heuristicRank at 1.
    rewrite forallb_filter_id.
    + rewrite RankerMore.sort_desc_of_sorted.
      * rewrite map_map. cbn [fst]. apply map_id.
      * apply scored_sorted. apply heuristicRank_sorted.
    + apply forallb_forall. intros p Hp.
      apply in_map_iff in Hp as (l & <- & Hl). cbn [snd].
      now apply (heuristicRank_survivor ls).
  - apply List.Forall_forall. intros l Hl.
    pose proof (heuristicRank_survivor ls l Hl) as Hpos.
    destruct (heuristicScore_spec l) as (_ & Hnil & Hin).
    apply least_weight.
    apply (matched_weights_in highValuePatterns (textToCheck l)).
    apply Hin. intros Hn. rewrite (Hnil Hn) in Hpos. discriminate.
Qed.

(** X4.  [filterByScore] keeps exactly the entries of at least the given
    score: a link is in the result if and only if it is in the input and
    reaches the threshold; the result of a concatenation is the
    concatenation of the results (so order and repetitions are kept); a
    list whose entries all reach the threshold is returned as it is; a
    list in descending order stays in descending order; and filtering by
    two thresholds one after the other is filtering by the greater one. *)
Theorem filterByScore_composes (ls more : list RankedLink) (a b : Q) :
  (forall l, In l (filterByScore ls a) <-> In l ls /\ (a <= relevanceScore l)%Q)
  /\ filterByScore (ls ++ more) a = filterByScore ls a ++ filterByScore more a
  /\ (Forall (fun l => (a <= relevanceScore l)%Q) ls -> filterByScore ls a = ls)
  /\ (StronglySorted (desc relevanceScore) ls ->
      StronglySorted (desc relevanceScore) (filterByScore ls a))
  /\ filterByScore (filterByScore ls a) b = filterByScore ls (Q_max a b).
Proof.
  unfold filterByScore. split; [| split; [| split; [| split]]].
  - intros l. rewrite filter_In, Qle_bool_iff. reflexivity.
  - apply List.filter_app.
  - intros Hall. apply forallb_filter_id. apply forallb_forall. intros l Hl.
    rewrite List.Forall_forall in Hall. apply Qle_bool_iff. now apply Hall.
  - intros Hs. induction Hs as [|l ls Hs IH Hall]; cbn [List.filter]; [constructor |].
    destruct (Qle_bool a (relevanceScore l)); [| assumption].
    constructor; [assumption |].
    apply List.Forall_forall. intros x Hx. apply filter_In in Hx as [Hx _].
    rewrite List.Forall_forall in Hall. auto.
  - induction ls as [|l ls IH]; [reflexivity |]. cbn [List.filter].
    assert (Hmax : Qle_bool (Q_max a b) (relevanceScore l)
                   = Qle_bool a (relevanceScore l) && Qle_bool b (relevanceScore l)).
    { destruct (Q_max_cases a b) as (Ha & Hb & _).
      apply eq_true_iff_eq. rewrite andb_true_iff, !Qle_bool_iff. split.
      - intros H. split; eapply Qle_trans; eassumption.
      - intros [H1 H2]. unfold Q_max. now destruct (Qle_bool a b). }
    rewrite Hmax.
    destruct (Qle_bool a (relevanceScore l)); cbn [List.filter andb].
    + destruct (Qle_bool b (relevanceScore l)); now rewrite IH.
    + exact IH.
Qed.

Lemma group_push c g l :
  group c (push_group g l)
  = if category_eqb (category l) c then group c g ++ [l] else group c g.
Proof. destruct c; reflexivity. Qed.

Lemma group_fold c ls :
  forall g,
    group c (fold_left push_group ls g)
    = group c g ++ List.filter (fun l => category_eqb (category l) c) ls.
Proof.
  induction ls as [|l ls IH]; intros g; cbn [fold_left List.filter].
  - now rewrite app_nil_r.
  - rewrite IH, group_push.
    destruct (category_eqb (category l) c); [now rewrite <- app_assoc | reflexivity].
Qed.

Lemma one_category (l : RankedLink) :
  List.length (List.filter (category_eqb (category l)) all_categories) = 1%nat.
Proof. destruct (category l); reflexivity. Qed.

(** X5.  [groupByCategory] puts every link in the group of its category
    and in no other: each group holds the links of that category in the
    order given, and the sizes of the ten groups add up to the number of
    links. *)
Theorem groupByCategory_partitions (ls : list RankedLink) :
  (forall c, group c (groupByCategory ls)
             = List.filter (fun l => category_eqb (category l) c) ls)
  /\ list_sum (map (fun c => List.length (group c (groupByCategory ls))) all_categories)
     = List.length ls.
Proof.
  assert (Hgroup : forall c, group c (groupByCategory ls)
             = List.filter (fun l => category_eqb (category l) c) ls).
  { intros c. unfold groupByCategory. rewrite group_fold. now destruct c. }
  split; [exact Hgroup |].
  rewrite (map_ext _ (fun c => List.length
             (List.filter (fun l => category_eqb (category l) c) ls)))
    by (intros c; now rewrite Hgroup).
  clear Hgroup. induction ls as [|l ls IH]; [reflexivity |].
  unfold all_categories, list_sum in *. cbn [map fold_right List.filter] in *.
  destruct (category l); cbn [category_eqb List.length]; lia.
Qed.
End RankerTools.

(** ** Extractor: link deduplication and the pre-filter *)

Module ExtractorFacts.
Import JsString Regex Url Score Extractor Run LinkTools RankerFacts Scenarios.

Lemma eqb_key k k' : String.eqb k' k = true <-> k' = k.
Proof. apply String.eqb_eq. Qed.

Lemma map_get_in k v m : map_get k m = Some v -> In (k, v) m.
Proof.
  unfold map_get. destruct (find _ m) as [[k' v']|] eqn:Hf; [| discriminate].
  cbn. intros H. inversion H; subst.
  apply find_some in Hf as [Hin Hk]. cbn in Hk. apply String.eqb_eq in Hk. now subst.
Qed.

Lemma map_get_none k m : map_get k m = None -> ~ In k (map fst m).
Proof.
  unfold map_get. destruct (find _ m) as [p|] eqn:Hf; [discriminate |].
  intros _ Hin. apply in_map_iff in Hin as ([k' v] & Hk & Hin). cbn in Hk. subst k'.
  pose proof (find_none _ _ Hf _ Hin) as Hn. cbn in Hn.
  now rewrite String.eqb_refl in Hn.
Qed.

Lemma map_get_set_same k v m : map_get k (map_set k v m) = Some v.
Proof.
  unfold map_get. induction m as [|[k' v'] m IH]; cbn.
  - now rewrite String.eqb_refl.
  - destruct (String.eqb k' k) eqn:E; cbn.
    + now rewrite String.eqb_refl.
    + now rewrite E.
Qed.

Lemma map_get_set_other k k0 v m :
  k0 <> k -> map_get k0 (map_set k v m) = map_get k0 m.
Proof.
  intros Hne. unfold map_get. induction m as [|[k' v'] m IH]; cbn.
  - destruct (String.eqb_spec k k0); [congruence | reflexivity].
  - destruct (String.eqb_spec k' k) as [-> | Hk]; cbn.
    + destruct (String.eqb_spec k k0); [congruence | reflexivity].
    + destruct (String.eqb k' k0); [reflexivity | exact IH].
Qed.

Lemma map_set_in k v m p : In p (map_set k v m) -> p = (k, v) \/ In p m.
Proof.
  induction m as [|[k' v'] m IH]; cbn.
  - intros [<- | []]. now left.
  - destruct (String.eqb k' k); cbn; intros [<- | Hin]; auto.
    destruct (IH Hin); auto.
Qed.

Lemma map_set_keys_present k v m :
  In k (map fst m) -> map fst (map_set k v m) = map fst m.
Proof.
  induction m as [|[k' v'] m IH]; cbn; [contradiction |].
  destruct (String.eqb_spec k' k) as [-> | Hk]; cbn; [reflexivity |].
  intros [Heq | Hin]; [congruence | now rewrite IH].
Qed.

Lemma map_set_keys_absent k v m :
  ~ In k (map fst m) -> map fst (map_set k v m) = map fst m ++ [k].
Proof.
  induction m as [|[k' v'] m IH]; cbn; [reflexivity |].
  intros Hn. destruct (String.eqb_spec k' k) as [-> | Hk]; [tauto |].
  cbn. rewrite IH; [reflexivity | tauto].
Qed.

Lemma dedup_step_inv seen processed l :
  dedup_inv seen processed -> dedup_inv (dedup_step seen l) (processed ++ [l]).
Proof.
  intros [Hk He Hl]. unfold dedup_step.
  destruct (map_get (url l) seen) as [existing|] eqn:Hget.
  - pose proof (map_get_in _ _ _ Hget) as Hin.
    assert (Hkey : In (url l) (map fst seen)).
    { apply in_map_iff. exists (url l, existing). auto. }
    destruct (Nat.ltb_spec (String.length (context existing)) (String.length (context l)))
      as [Hlt | Hge].
    + split.
      * now rewrite map_set_keys_present.
      * intros k v Hv. apply map_set_in in Hv as [Heq | Hv].
        -- inversion Heq; subst. split; [reflexivity | apply in_or_app; right; now left].
        -- destruct (He k v Hv). split; [assumption | apply in_or_app; now left].
      * intros l0 H0. destruct (String.eqb_spec (url l0) (url l)) as [Hu | Hu].
        -- rewrite Hu, map_get_set_same. eexists. split; [reflexivity |].
           apply in_app_iff in H0 as [H0 | [<- | []]]; [| lia].
           destruct (Hl l0 H0) as (v & Hv & Hle). rewrite Hu, Hget in Hv.
           inversion Hv; subst. lia.
        -- rewrite map_get_set_other by assumption.
           apply in_app_iff in H0 as [H0 | [<- | []]]; [auto | congruence].
    + split; [assumption | |].
      * intros k v Hv. destruct (He k v Hv). split; [assumption | apply in_or_app; now left].
      * intros l0 H0. apply in_app_iff in H0 as [H0 | [<- | []]]; [auto |].
        exists existing. split; [assumption | lia].
  - pose proof (map_get_none _ _ Hget) as Hfresh. split.
    + rewrite map_set_keys_absent by assumption.
      apply CrawlerFacts.NoDup_snoc; assumption.
    + intros k v Hv. apply map_set_in in Hv as [Heq | Hv].
      * inversion Heq; subst. split; [reflexivity | apply in_or_app; right; now left].
      * destruct (He k v Hv). split; [assumption | apply in_or_app; now left].
    + intros l0 H0. destruct (String.eqb_spec (url l0) (url l)) as [Hu | Hu].
      * rewrite Hu, map_get_set_same. eexists. split; [reflexivity |].
        apply in_app_iff in H0 as [H0 | [<- | []]]; [| lia].
        destruct (Hl l0 H0) as (v & Hv & _). rewrite Hu, Hget in Hv. discriminate.
      * rewrite map_get_set_other by assumption.
        apply in_app_iff in H0 as [H0 | [<- | []]]; [auto | congruence].
Qed.

Lemma dedup_fold_inv ls :
  forall seen processed,
    dedup_inv seen processed ->
    dedup_inv (fold_left dedup_step ls seen) (processed ++ ls).
Proof.
  induction ls as [|l ls IH]; intros seen processed Hinv; cbn [fold_left].
  - now rewrite app_nil_r.
  - replace (processed ++ l :: ls) with ((processed ++ [l]) ++ ls)
      by (now rewrite <- app_assoc).
    apply IH. now apply dedup_step_inv.
Qed.

(** X6.  [deduplicateLinks] returns links of its input with pairwise
    different URLs, and for every input link it returns a link of the same
    URL whose context is at least as long. *)
Theorem deduplicateLinks_spec (ls : list ExtractedLink) :
  List.NoDup (map url (deduplicateLinks ls))
  /\ (forall l, In l (deduplicateLinks ls) -> In l ls)
  /\ (forall l, In l ls ->
        exists k, In k (deduplicateLinks ls) /\ url k = url l
                  /\ (String.length (context l) <= String.length (context k))%nat).
Proof.
  unfold deduplicateLinks.
  assert (Hinv : dedup_inv (fold_left dedup_step ls []) ls).
  { apply (dedup_fold_inv ls [] []). split; [constructor | contradiction | contradiction]. }
  destruct Hinv as [Hk He Hl]. split; [| split].
  - rewrite map_map.
    rewrite (map_ext_in _ fst); [assumption |].
    intros [k v] Hin. cbn. now destruct (He k v Hin).
  - intros l Hin. apply in_map_iff in Hin as ([k v] & <- & Hin). cbn.
    now destruct (He k v Hin).
  - intros l Hin. destruct (Hl l Hin) as (v & Hv & Hle).
    apply map_get_in in Hv. exists v. split; [| split; [| assumption]].
    + apply in_map_iff. exists (url l, v). auto.
    + now destruct (He _ _ Hv).
Qed.

Lemma asset_url_skipped (u ext : string) :
  In ext asset_extensions ->
  existsb (fun p => test p (u +:+ "." +:+ ext)) skipPatterns = true.
Proof.
  intros Hext. unfold skipPatterns. cbn [existsb]. apply orb_true_iff. left.
  unfold test, at_end_of; cbn [from_start body to_end].
  apply search_app, search_here.
  cbn in Hext.
  repeat (destruct Hext as [<- | Hext]; [vm_compute; reflexivity |]).
  contradiction.
Qed.

Lemma filter_twice {A} (f : A -> bool) (l : list A) :
  List.filter f (List.filter f l) = List.filter f l.
Proof.
  induction l as [|x l IH]; [reflexivity |]. cbn [List.filter].
  destruct (f x) eqn:E; [| exact IH]. cbn [List.filter]. now rewrite E, IH.
Qed.

(** X7.  [preFilterLinks] throws exactly when the base URL does not
    parse.  Otherwise it returns, and filtering its result again changes
    nothing; every link it keeps is an input link whose URL parses; it
    keeps no link whose URL ends in one of the asset extensions (.jpg,
    .png, .css, .js and the like); it keeps every input link on the host
    of the base that matches no skip pattern; and a link it keeps whose
    host is neither the host of the base nor a sub-domain or a parent
    domain of it matches one of the patterns for valuable external
    links. *)
Theorem preFilterLinks_spec (URL_parse : string -> option URL)
    (ls : list ExtractedLink) (baseUrl : string) :
  (URL_parse baseUrl = None ->
   preFilterLinks URL_parse ls baseUrl = Threw "Invalid URL")
  /\ (forall base, URL_parse baseUrl = Some base ->
      exists out,
        preFilterLinks URL_parse ls baseUrl = Done out
        /\ preFilterLinks URL_parse out baseUrl = Done out
        /\ Forall (fun l => In l ls /\ URL_parse (url l) <> None) out
        /\ (forall l u ext, In l out -> In ext asset_extensions ->
              url l <> u +:+ "." +:+ ext)
        /\ (forall l linkUrl,
              In l ls -> URL_parse (url l) = Some linkUrl ->
              hostname linkUrl = hostname base ->
              existsb (fun p => test p (url l)) skipPatterns = false ->
              In l out)
        /\ (forall l linkUrl,
              In l out -> URL_parse (url l) = Some linkUrl ->
              hostname linkUrl <> hostname base ->
              endsWith (hostname linkUrl) ("." +:+ hostname base) = false ->
              endsWith (hostname base) ("." +:+ hostname linkUrl) = false ->
              existsb (fun p => test p (url l)) valuableExternalPatterns = true)).
Proof.
  unfold preFilterLinks. split; [now intros -> |].
  intros base ->. eexists. split; [reflexivity |].
  split; [now rewrite filter_twice |]. split; [| split; [| split]].
  - apply List.Forall_forall. intros l Hl. apply filter_In in Hl as [Hin Hkeep].
    split; [assumption |]. unfold keep_link in Hkeep.
    destruct (URL_parse (url l)); [discriminate | discriminate].
  - intros l u ext Hl Hext Hurl. apply filter_In in Hl as [_ Hkeep].
    unfold keep_link in Hkeep. destruct (URL_parse (url l)); [| discriminate].
    rewrite Hurl, (asset_url_skipped u ext Hext) in Hkeep. discriminate.
  - intros l linkUrl Hl Hparse Hhost Hskip. apply filter_In. split; [assumption |].
    unfold keep_link. rewrite Hparse, Hskip, Hhost, String.eqb_refl. reflexivity.
  - intros l linkUrl Hl Hparse Hhost Hsub Hparent. apply filter_In in Hl as [_ Hkeep].
    unfold keep_link in Hkeep. rewrite Hparse in Hkeep.
    destruct (existsb (fun p => test p (url l)) skipPatterns); [discriminate |].
    apply String.eqb_neq in Hhost. rewrite Hhost, Hsub, Hparent in Hkeep.
    exact Hkeep.
Qed.

Lemma preFilterLinks_spec_witness :
  let ls := [sample_link "http://a.com/logo.png" "" "";
             sample_link "http://a.com/budget" "Budget" "";
             sample_link "http://b.org/news" "News" "";
             sample_link "http://b.org/rfp" "RFP" ""] in
  preFilterLinks parse_reference ls "not a url" = Threw "Invalid URL"
  /\ preFilterLinks parse_reference ls "http://a.com/"
     = Done [sample_link "http://a.com/budget" "Budget" "";
             sample_link "http://b.org/rfp" "RFP" ""]
  /\ exists out,
       preFilterLinks parse_reference ls "http://a.com/" = Done out
       /\ preFilterLinks parse_reference out "http://a.com/" = Done out
       /\ Forall (fun l => In l ls /\ parse_reference (url l) <> None) out.
Proof.
  intros ls. split; [| split; [vm_compute; reflexivity |]].
  - apply (proj1 (preFilterLinks_spec parse_reference ls "not a url")).
    vm_compute. reflexivity.
  - destruct (proj2 (preFilterLinks_spec parse_reference ls "http://a.com/") _ eq_refl)
      as (out & Hrun & Hagain & Hin & _).
    exists out. auto.
Defined.
End ExtractorFacts.

(** ** Crawler: what a run accounts for *)

Module CrawlerMore.
Import JsString Url Score Extractor Ranker Run Crawler CrawlTrace ScoreFacts
       CrawlerFacts Scenarios.

Section Trace.
Variable URL_parse : string -> option URL.
Variable fetchPage : string -> option (string * string * list ExtractedLink).
Variable chatCompletion : nat -> RankerConfig -> list ExtractedLink -> option (list Ranking).
Variable cfg : CrawlerConfig.
Variable seedDomain : string.

Abbreviation step fuel := (crawl_iteration URL_parse fetchPage chatCompletion fuel cfg seedDomain).
Abbreviation outcome := (iteration_outcome URL_parse fetchPage chatCompletion cfg seedDomain).
Abbreviation reached := (reaches URL_parse fetchPage chatCompletion cfg seedDomain).

Lemma crawl_iteration_outcome fuel st st' item rest :
  sort_desc score_or_zero (queue st) = item :: rest ->
  step fuel st = Done st' ->
  outcome fuel st st' item rest.
Proof.
  unfold crawl_iteration. intros Hsort Hrun. rewrite Hsort in Hrun.
  destruct (bool_decide (normalizeUrl URL_parse (q_url item) ∈ visited st)) eqn:Hvis.
  { inversion Hrun; subst st'. now apply Dropped. }
  apply bool_decide_eq_false in Hvis.
  destruct (sameDomainOnly cfg && _) eqn:Hdom.
  { inversion Hrun; subst st'. now apply Dropped. }
  assert (Hsite : on_site URL_parse cfg seedDomain (normalizeUrl URL_parse (q_url item))).
  { intros Hsd. rewrite Hsd in Hdom. cbn [andb] in Hdom.
    destruct (URL_parse (normalizeUrl URL_parse (q_url item))) as [u|]; [| discriminate].
    exists u. split; [reflexivity |]. now apply negb_false_iff in Hdom. }
  destruct (extractLinksFromUrl fetchPage (normalizeUrl URL_parse (q_url item)))
    as [page|] eqn:Hfetch.
  - unfold process_page in Hrun.
    destruct ((depth item <? maxDepth cfg) && (0 <? List.length (links page))%nat)
      eqn:Hdeep.
    + apply andb_true_iff in Hdeep as [Hd _]. apply Z.ltb_lt in Hd.
      destruct (preFilterLinks URL_parse (links page) _) as [| |filtered] eqn:Hpre;
        cbn [bind] in Hrun; try discriminate Hrun.
      destruct (rank_page chatCompletion fuel cfg _ filtered)
        as [| |[ranked calls']] eqn:Hrank; cbn [bind] in Hrun; try discriminate Hrun.
      inversion Hrun; subst st'; clear Hrun.
      cbn [calls] in Hrank.
      eapply Followed; cbn [visited queue pages allRankedLinks errors reports sleeps calls];
        try reflexivity; eauto.
    + inversion Hrun; subst st'; clear Hrun.
      eapply Kept; cbn [visited queue pages allRankedLinks errors reports sleeps calls];
        try reflexivity; eauto.
      apply andb_false_iff in Hdeep as [Hd | Hl].
      * left. now apply Z.ltb_ge.
      * right. destruct (links page); [reflexivity | discriminate].
  - inversion Hrun; subst st'; clear Hrun.
    eapply Failed; cbn [visited queue pages allRankedLinks errors reports sleeps calls];
      try reflexivity; eauto.
Qed.

Lemma guarded_outcome fuel st st' :
  loop_guard cfg st = true -> step fuel st = Done st' ->
  exists item rest,
    sort_desc score_or_zero (queue st) = item :: rest
    /\ outcome fuel st st' item rest.
Proof.
  intros Hg Hrun.
  destruct (sort_desc score_or_zero (queue st)) as [|item rest] eqn:Hsort.
  { exfalso. apply (loop_guard_queue cfg st Hg). apply Permutation_nil.
    rewrite <- Hsort. apply sort_desc_perm. }
  exists item, rest. split; [reflexivity |]. now apply crawl_iteration_outcome.
Qed.

Lemma slept_length st st' :
  slept cfg st st' -> (List.length (sleeps st') <= S (List.length (sleeps st)))%nat.
Proof.
  unfold slept. intros ->. destruct (0 <? _)%nat; [| lia].
  rewrite length_app. cbn. lia.
Qed.

Lemma accounted_step fuel st st' :
  accounted st -> loop_guard cfg st = true -> step fuel st = Done st' -> accounted st'.
Proof.
  intros (Hperm & Herr & Hsl) Hg Hrun.
  destruct (guarded_outcome fuel st st' Hg Hrun) as (item & rest & _ & Hout).
  unfold accounted.
  destruct Hout as [Hv Hq Hp Ha He Hr Hs Hc
                   | r Hfresh Hsite Hfetch Hv Hq Hp Ha He Hr Hu Hs Hc
                   | r page Hfresh Hsite Hfetch Hshallow Hv Hq Hp Ha He Hr Hu Hs Hc
                   | r page filtered ranked Hfresh Hsite Hfetch Hd Hpre Hrank
                       Hv Hq Hp Ha He Hr Hu Hs].
  - rewrite Hp, He, Hr, Hs. auto.
  - rewrite Hp, He, Hr, Hs, !map_app. cbn [map fst]. split; [| split].
    + rewrite Hu, app_assoc. now apply Permutation_app_tail.
    + apply Forall_app. split; [assumption | now repeat constructor].
    + assumption.
  - rewrite Hp, He, Hr, !map_app. cbn [map]. split; [| split].
    + rewrite Hu, (extractLinksFromUrl_url fetchPage _ _ Hfetch).
      rewrite Hperm. rewrite <- !app_assoc. apply Permutation_app_head.
      apply Permutation_app_comm.
    + assumption.
    + apply slept_length in Hs. rewrite length_app. cbn. lia.
  - rewrite Hp, He, Hr, !map_app. cbn [map]. split; [| split].
    + rewrite Hu, (extractLinksFromUrl_url fetchPage _ _ Hfetch).
      rewrite Hperm. rewrite <- !app_assoc. apply Permutation_app_head.
      apply Permutation_app_comm.
    + assumption.
    + apply slept_length in Hs. rewrite length_app. cbn. lia.
Qed.

Lemma fenced_step fuel st st' :
  sameDomainOnly cfg = true ->
  fenced URL_parse seedDomain st -> loop_guard cfg st = true ->
  step fuel st = Done st' -> fenced URL_parse seedDomain st'.
Proof.
  intros Hsd Hf Hg Hrun.
  destruct (guarded_outcome fuel st st' Hg Hrun) as (item & rest & _ & Hout).
  unfold fenced in *.
  destruct Hout as [Hv Hq Hp Ha He Hr Hs Hc
                   | r Hfresh Hsite Hfetch Hv Hq Hp Ha He Hr Hu Hs Hc
                   | r page Hfresh Hsite Hfetch Hshallow Hv Hq Hp Ha He Hr Hu Hs Hc
                   | r page filtered ranked Hfresh Hsite Hfetch Hd Hpre Hrank
                       Hv Hq Hp Ha He Hr Hu Hs];
    rewrite Hr; [assumption | | |];
    (apply Forall_app; split; [assumption |]; constructor; [| constructor];
     rewrite Hu; exact (Hsite Hsd)).
Qed.

Lemma rank_page_sound fuel calls0 filtered ranked calls' :
  rank_page chatCompletion fuel cfg calls0 filtered = Done (ranked, calls') ->
  Forall (fun r => In (link r) (heuristicRank filtered)) ranked.
Proof.
  unfold rank_page. destruct (useLlmRanking cfg).
  - destruct (0 <? List.length (heuristicRank filtered))%nat.
    + unfold rankLinks. destruct (List.length (heuristicRank filtered) =? 0)%nat.
      * intros H. inversion H. constructor.
      * intros H. eapply RankerMore.rankLinks_loop_links; [exact H | constructor].
    + intros H. inversion H. constructor.
  - intros H. inversion H; subst. apply List.Forall_forall. intros r Hr.
    apply in_map_iff in Hr as (l & <- & Hl). exact Hl.
Qed.

Lemma preFilterLinks_sound ls base filtered l :
  preFilterLinks URL_parse ls base = Done filtered -> In l filtered ->
  In l ls /\ URL_parse (url l) <> None.
Proof.
  unfold preFilterLinks. destruct (URL_parse base) as [b|]; [| discriminate].
  intros H Hl. inversion H; subst. apply filter_In in Hl as [Hin Hkeep].
  split; [assumption |]. unfold keep_link in Hkeep.
  destruct (URL_parse (url l)); [discriminate | discriminate].
Qed.

Lemma ranked_from_pages_step fuel st st' :
  ranked_from_pages URL_parse st -> loop_guard cfg st = true ->
  step fuel st = Done st' -> ranked_from_pages URL_parse st'.
Proof.
  intros Hinv Hg Hrun.
  destruct (guarded_outcome fuel st st' Hg Hrun) as (item & rest & _ & Hout).
  unfold ranked_from_pages in *.
  assert (Hold : forall page, pages st' = pages st ++ page ->
            Forall (fun r => exists p, In p (pages st') /\ In (link r) (links p)
                       /\ URL_parse (url (link r)) <> None
                       /\ (0 < heuristicScore (link r))%Q) (allRankedLinks st)).
  { intros page Hp. eapply List.Forall_impl; [| exact Hinv]. cbv beta.
    intros r (p & Hin & Hrest). exists p. split; [| exact Hrest].
    rewrite Hp. apply in_or_app. now left. }
  destruct Hout as [Hv Hq Hp Ha He Hr Hs Hc
                   | r Hfresh Hsite Hfetch Hv Hq Hp Ha He Hr Hu Hs Hc
                   | r page Hfresh Hsite Hfetch Hshallow Hv Hq Hp Ha He Hr Hu Hs Hc
                   | r page filtered ranked Hfresh Hsite Hfetch Hd Hpre Hrank
                       Hv Hq Hp Ha He Hr Hu Hs];
    rewrite Ha.
  - apply (Hold []). now rewrite app_nil_r.
  - apply (Hold []). now rewrite app_nil_r.
  - now apply (Hold [page]).
  - apply Forall_app. split; [now apply (Hold [page]) |].
    apply rank_page_sound in Hrank.
    eapply List.Forall_impl; [| exact Hrank]. cbv beta. intros r0 Hr0.
    pose proof (RankerTools.heuristicRank_survivor _ _ Hr0) as Hpos.
    apply (Permutation_in _ (RankerTools.heuristicRank_perm filtered)) in Hr0.
    apply filter_In in Hr0 as [Hr0 _].
    destruct (preFilterLinks_sound _ _ _ _ Hpre Hr0) as [Hin Hparse].
    exists page. split; [rewrite Hp; apply in_or_app; right; now left |].
    split; [assumption |]. split; [assumption |]. now apply Qltb_lt.
Qed.

Lemma frontier_earned_step seed fuel st st' :
  frontier_earned cfg seed st -> loop_guard cfg st = true ->
  step fuel st = Done st' -> frontier_earned cfg seed st'.
Proof.
  intros Hinv Hg Hrun.
  destruct (guarded_outcome fuel st st' Hg Hrun) as (item & rest & Hsort & Hout).
  unfold frontier_earned in *.
  assert (Hperm : Permutation (queue st) (item :: rest)).
  { rewrite <- Hsort. symmetry. apply sort_desc_perm. }
  apply (Permutation_Forall Hperm) in Hinv.
  apply Forall_inv_tail in Hinv.
  assert (Hold : forall page ranked,
            pages st' = pages st ++ page ->
            allRankedLinks st' = allRankedLinks st ++ ranked ->
            Forall (fun it =>
              it = seed
              \/ exists r p,
                   In r (allRankedLinks st') /\ In p (pages st')
                   /\ q_url it = url (link r)
                   /\ score it = Some (relevanceScore r)
                   /\ (minScoreToFollow cfg <= relevanceScore r)%Q
                   /\ parentUrl it = Some (page_url p)
                   /\ In (link r) (links p)) rest).
  { intros page ranked Hp Ha. eapply List.Forall_impl; [| exact Hinv]. cbv beta.
    intros it [-> | (r & p & Hr & Hpin & Hrest)]; [now left | right].
    exists r, p. rewrite Hp, Ha. split; [apply in_or_app; now left |].
    split; [apply in_or_app; now left | exact Hrest]. }
  destruct Hout as [Hv Hq Hp Ha He Hr Hs Hc
                   | r Hfresh Hsite Hfetch Hv Hq Hp Ha He Hr Hu Hs Hc
                   | r page Hfresh Hsite Hfetch Hshallow Hv Hq Hp Ha He Hr Hu Hs Hc
                   | r page filtered ranked Hfresh Hsite Hfetch Hd Hpre Hrank
                       Hv Hq Hp Ha He Hr Hu Hs];
    rewrite Hq.
  - apply (Hold [] []); now rewrite ?app_nil_r.
  - apply (Hold [] []); now rewrite ?app_nil_r.
  - apply (Hold [page] []); now rewrite ?app_nil_r.
  - apply Forall_app. split; [now apply (Hold [page] ranked) |].
    apply List.Forall_forall. intros it Hit. right.
    unfold new_items in Hit. apply in_map_iff in Hit as (r0 & <- & Hr0).
    apply filter_In in Hr0 as [Hr0 _].
    unfold filterByScore in Hr0. apply filter_In in Hr0 as [Hr0 Hscore].
    apply Qle_bool_iff in Hscore.
    pose proof (rank_page_sound _ _ _ _ _ Hrank) as Hsound.
    rewrite List.Forall_forall in Hsound. pose proof (Hsound r0 Hr0) as Hl.
    apply (Permutation_in _ (RankerTools.heuristicRank_perm filtered)) in Hl.
    apply filter_In in Hl as [Hl _].
    destruct (preFilterLinks_sound _ _ _ _ Hpre Hl) as [Hin _].
    exists r0, page. cbn [q_url score parentUrl].
    rewrite Hp, Ha, (extractLinksFromUrl_url fetchPage _ _ Hfetch).
    repeat split; auto; apply in_or_app; right; auto. now left.
Qed.

(** The item taken from the queue has the greatest score of the queue. *)
Lemma dequeues_best st item :
  dequeues cfg st item ->
  forall it, In it (queue st) -> (score_or_zero it <= score_or_zero item)%Q.
Proof.
  intros [_ [rest Hsort]] it Hit.
  pose proof (sort_desc_sorted score_or_zero (queue st)) as Hsorted.
  apply (Permutation_in _ (Permutation_sym (sort_desc_perm score_or_zero (queue st))))
    in Hit.
  rewrite Hsort in Hsorted, Hit. inversion Hsorted as [|? ? _ Hall]; subst.
  destruct Hit as [<- | Hit]; [apply Qle_refl |].
  rewrite List.Forall_forall in Hall. now apply Hall.
Qed.

(** When no iteration finds a link worth following, the queue never grows. *)
Lemma seed_only_step fuel st st' :
  (forall item filtered ranked calls',
      depth item = 0 -> depth item < maxDepth cfg ->
      rank_page chatCompletion fuel cfg (calls st) filtered = Done (ranked, calls') ->
      filterByScore ranked (minScoreToFollow cfg) = []) ->
  seed_only st -> loop_guard cfg st = true ->
  step fuel st = Done st' -> seed_only st'.
Proof.
  intros Hnone [Hlen Hdepth] Hg Hrun.
  destruct (guarded_outcome fuel st st' Hg Hrun) as (item & rest & Hsort & Hout).
  assert (Hperm : Permutation (queue st) (item :: rest)).
  { rewrite <- Hsort. symmetry. apply sort_desc_perm. }
  apply (Permutation_Forall Hperm) in Hdepth.
  apply Permutation_length in Hperm. cbn [List.length] in Hperm.
  inversion Hdepth as [|? ? Hitem Hrest]; subst.
  unfold seed_only.
  destruct Hout as [Hv Hq Hp Ha He Hr Hs Hc
                   | r Hfresh Hsite Hfetch Hv Hq Hp Ha He Hr Hu Hs Hc
                   | r page Hfresh Hsite Hfetch Hshallow Hv Hq Hp Ha He Hr Hu Hs Hc
                   | r page filtered ranked Hfresh Hsite Hfetch Hd Hpre Hrank
                       Hv Hq Hp Ha He Hr Hu Hs];
    rewrite Hq, Hr, ?length_app; cbn [List.length].
  - split; [lia | assumption].
  - split; [lia | assumption].
  - split; [lia | assumption].
  - rewrite (Hnone item filtered ranked (calls st') Hitem Hd Hrank).
    unfold new_items. cbn [List.filter map List.length]. rewrite app_nil_r.
    split; [lia | assumption].
Qed.
Lemma ranked_all_step (P : RankedLink -> Prop) fuel st st' :
  (forall calls0 filtered ranked calls',
      rank_page chatCompletion fuel cfg calls0 filtered = Done (ranked, calls') ->
      Forall P ranked) ->
  Forall P (allRankedLinks st) -> loop_guard cfg st = true ->
  step fuel st = Done st' -> Forall P (allRankedLinks st').
Proof.
  intros Hrank0 Hinv Hg Hrun.
  destruct (guarded_outcome fuel st st' Hg Hrun) as (item & rest & _ & Hout).
  destruct Hout as [Hv Hq Hp Ha He Hr Hs Hc
                   | r Hfresh Hsite Hfetch Hv Hq Hp Ha He Hr Hu Hs Hc
                   | r page Hfresh Hsite Hfetch Hshallow Hv Hq Hp Ha He Hr Hu Hs Hc
                   | r page filtered ranked Hfresh Hsite Hfetch Hd Hpre Hrank
                       Hv Hq Hp Ha He Hr Hu Hs];
    rewrite Ha; try assumption.
  apply Forall_app. split; [assumption | eauto].
Qed.

Lemma rank_page_heuristic fuel calls0 filtered ranked calls' :
  useLlmRanking cfg = false ->
  rank_page chatCompletion fuel cfg calls0 filtered = Done (ranked, calls') ->
  calls' = calls0
  /\ Forall (fun r => relevanceScore r = 5 # 10 /\ category r = other
                      /\ rationale r = "Heuristic match") ranked.
Proof.
  unfold rank_page. intros ->. intros H. inversion H; subst. split; [reflexivity |].
  apply List.Forall_forall. intros r Hr. apply in_map_iff in Hr as (l & <- & _).
  repeat split.
Qed.

Lemma calls_heuristic_step fuel st st' :
  useLlmRanking cfg = false -> loop_guard cfg st = true ->
  step fuel st = Done st' -> calls st' = calls st.
Proof.
  intros Hllm Hg Hrun.
  destruct (guarded_outcome fuel st st' Hg Hrun) as (item & rest & _ & Hout).
  destruct Hout as [Hv Hq Hp Ha He Hr Hs Hc
                   | r Hfresh Hsite Hfetch Hv Hq Hp Ha He Hr Hu Hs Hc
                   | r page Hfresh Hsite Hfetch Hshallow Hv Hq Hp Ha He Hr Hu Hs Hc
                   | r page filtered ranked Hfresh Hsite Hfetch Hd Hpre Hrank
                       Hv Hq Hp Ha He Hr Hu Hs]; try assumption.
  now destruct (rank_page_heuristic _ _ _ _ _ Hllm Hrank).
Qed.

Lemma filterByScore_below (P : RankedLink -> Prop) (s : Q) ranked :
  (forall r, P r -> (relevanceScore r < s)%Q) ->
  Forall P ranked -> filterByScore ranked s = [].
Proof.
  intros Hlow Hall. unfold filterByScore.
  induction Hall as [|r rs Hr _ IH]; [reflexivity |]. cbn [List.filter].
  destruct (Qle_bool s (relevanceScore r)) eqn:E; [| exact IH].
  apply Qle_bool_iff in E. apply Hlow in Hr.
  exfalso. exact (Qlt_not_le _ _ Hr E).
Qed.

Lemma shallow_step fuel st st' :
  maxDepth cfg <= 0 ->
  seed_only st /\ allRankedLinks st = [] /\ calls st = O ->
  loop_guard cfg st = true -> step fuel st = Done st' ->
  seed_only st' /\ allRankedLinks st' = [] /\ calls st' = O.
Proof.
  intros Hmax (Hseed & Hranked & Hcalls) Hg Hrun. split.
  - eapply seed_only_step; [| exact Hseed | exact Hg | exact Hrun].
    intros item filtered ranked calls' H0 Hlt. lia.
  - destruct Hseed as [_ Hdepth].
    destruct (guarded_outcome fuel st st' Hg Hrun) as (item & rest & Hsort & Hout).
    assert (Hperm : Permutation (queue st) (item :: rest)).
    { rewrite <- Hsort. symmetry. apply sort_desc_perm. }
    apply (Permutation_Forall Hperm) in Hdepth. apply Forall_inv in Hdepth.
    destruct Hout as [Hv Hq Hp Ha He Hr Hs Hc
                     | r Hfresh Hsite Hfetch Hv Hq Hp Ha He Hr Hu Hs Hc
                     | r page Hfresh Hsite Hfetch Hshallow Hv Hq Hp Ha He Hr Hu Hs Hc
                     | r page filtered ranked Hfresh Hsite Hfetch Hd Hpre Hrank
                         Hv Hq Hp Ha He Hr Hu Hs];
      try (split; congruence).
    lia.
Qed.
End Trace.

Lemma seed_only_initial s : seed_only (initial_state s).
Proof. split; [cbn; lia | repeat constructor]. Qed.

(** A run that returns went from the initial state through the loop, on
    the host of the normalized seed. *)
Lemma crawl_run_reaches URL_parse fetchPage chatCompletion fuel seedUrl config st :
  crawl_run URL_parse fetchPage chatCompletion fuel seedUrl config = Done st ->
  exists seed,
    URL_parse (normalizeUrl URL_parse seedUrl) = Some seed
    /\ reaches URL_parse fetchPage chatCompletion (with_defaults config) (hostname seed)
               (initial_state (normalizeUrl URL_parse seedUrl)) st.
Proof.
  unfold crawl_run. intros Hrun.
  destruct (URL_parse (normalizeUrl URL_parse seedUrl)) as [u|]; [| discriminate].
  exists u. split; [reflexivity |]. now apply crawl_loop_reaches in Hrun.
Qed.

Lemma rankLinks_loop_dead chatCompletion ls rcfg :
  (forall n c b, chatCompletion n c b = None) ->
  forall fuel i acc calls0 out calls',
    rankLinks_loop chatCompletion fuel ls rcfg i acc calls0 = Done (out, calls') ->
    Forall (fun r => relevanceScore r = 1 # 10 /\ category r = other) acc ->
    Forall (fun r => relevanceScore r = 1 # 10 /\ category r = other) out.
Proof.
  intros Hdead. induction fuel as [|fuel IH]; intros i acc calls0 out calls' Hrun Hacc;
    [discriminate |].
  cbn [rankLinks_loop] in Hrun. destruct (i <? Z.of_nat (List.length ls)).
  - eapply IH; [exact Hrun |]. apply Forall_app. split; [assumption |].
    rewrite (RankerFacts.rankBatch_default chatCompletion Hdead).
    apply List.Forall_forall. intros r Hr. apply in_map_iff in Hr as (l & <- & _).
    split; reflexivity.
  - inversion Hrun; subst.
    apply (Permutation_Forall (Permutation_sym (sort_desc_perm relevanceScore acc))).
    assumption.
Qed.

Lemma rank_page_dead chatCompletion cfg fuel calls0 filtered ranked calls' :
  (forall n c b, chatCompletion n c b = None) ->
  useLlmRanking cfg = true ->
  rank_page chatCompletion fuel cfg calls0 filtered = Done (ranked, calls') ->
  Forall (fun r => relevanceScore r = 1 # 10 /\ category r = other) ranked.
Proof.
  intros Hdead Hllm. unfold rank_page. rewrite Hllm.
  destruct (0 <? List.length (heuristicRank filtered))%nat.
  - unfold rankLinks. destruct (List.length (heuristicRank filtered) =? 0)%nat.
    + intros H. inversion H. constructor.
    + intros H. eapply rankLinks_loop_dead; [exact Hdead | exact H | constructor].
  - intros H. inversion H. constructor.
Qed.

(** X8.  In a crawl that returns, every fetch attempt ends as exactly one
    page or one error: the URLs reported to [onProgress] are, up to order,
    the URLs of the pages together with the URLs of the errors, no URL
    occurs twice among them (a URL that failed is not a page), every
    error carries the message of a failed fetch, the crawler sleeps at
    most once per page, and the statistics add up. *)
Theorem crawl_accounts_for_every_fetch URL_parse fetchPage chatCompletion
    (fuel : nat) (seedUrl : string) (config : CrawlerOverrides) (st : CrawlState) :
  crawl_run URL_parse fetchPage chatCompletion fuel seedUrl config = Done st ->
  Permutation (map currentUrl (reports st))
              (map page_url (pages st) ++ map fst (errors st))
  /\ List.NoDup (map page_url (pages st) ++ map fst (errors st))
  /\ Forall (fun e => snd e = "Failed to fetch") (errors st)
  /\ (List.length (sleeps st) <= List.length (pages st))%nat
  /\ (totalPagesProcessed (stats (result_of st))
      + List.length (stat_errors (stats (result_of st)))
      = List.length (reports st))%nat.
Proof.
  intros Hrun. destruct (crawl_run_reaches _ _ _ _ _ _ _ Hrun) as (seed & _ & Hreach).
  assert (Hacc : accounted st).
  { eapply reaches_invariant; [| | exact Hreach].
    - intros f a b. apply accounted_step.
    - unfold accounted. cbn. repeat split; constructor. }
  assert (Honce : fetch_once URL_parse st).
  { eapply reaches_invariant; [| apply fetch_once_initial | exact Hreach].
    intros f a b. apply fetch_once_step. }
  destruct Hacc as (Hperm & Herr & Hsl). destruct Honce as (_ & Hnd & _).
  split; [assumption |]. split; [| split; [assumption | split; [assumption |]]].
  - eapply Permutation_NoDup; eassumption.
  - cbn [result_of stats totalPagesProcessed stat_errors].
    apply Permutation_length in Hperm.
    rewrite length_app, !length_map in Hperm. lia.
Qed.

Lemma crawl_accounts_for_every_fetch_witness :
  let st := final_state
              (crawl_run parse_reference cycle_web approving_classifier 10
                 "http://a.com/missing" no_config) in
  Permutation (map currentUrl (reports st))
              (map page_url (pages st) ++ map fst (errors st))
  /\ List.NoDup (map page_url (pages st) ++ map fst (errors st))
  /\ Forall (fun e => snd e = "Failed to fetch") (errors st)
  /\ (List.length (sleeps st) <= List.length (pages st))%nat
  /\ (totalPagesProcessed (stats (result_of st))
      + List.length (stat_errors (stats (result_of st)))
      = List.length (reports st))%nat.
Proof.
  apply (crawl_accounts_for_every_fetch parse_reference cycle_web approving_classifier
           10 "http://a.com/missing" no_config).
  vm_compute. reflexivity.
Defined.

(** X9.  With [sameDomainOnly] (the default), a crawl that returns has
    only fetched URLs that parse and whose host is, for [isSameDomain],
    on the domain of the normalized seed; this holds for every fetch
    attempt and so for every page. *)
Theorem crawl_stays_on_site URL_parse fetchPage chatCompletion
    (fuel : nat) (seedUrl : string) (config : CrawlerOverrides) (st : CrawlState) :
  sameDomainOnly (with_defaults config) = true ->
  crawl_run URL_parse fetchPage chatCompletion fuel seedUrl config = Done st ->
  exists seed,
    URL_parse (normalizeUrl URL_parse seedUrl) = Some seed
    /\ Forall (fun r => exists u, URL_parse (currentUrl r) = Some u
                 /\ isSameDomain (hostname seed) (hostname u) = true) (reports st)
    /\ Forall (fun p => exists u, URL_parse (page_url p) = Some u
                 /\ isSameDomain (hostname seed) (hostname u) = true) (pages st).
Proof.
  intros Hsd Hrun.
  destruct (crawl_run_reaches _ _ _ _ _ _ _ Hrun) as (seed & Hseed & Hreach).
  exists seed. split; [assumption |].
  assert (Hf : fenced URL_parse (hostname seed) st).
  { eapply reaches_invariant; [| | exact Hreach].
    - intros f a b. now apply fenced_step.
    - constructor. }
  assert (Hacc : accounted st).
  { eapply reaches_invariant; [| | exact Hreach].
    - intros f a b. apply accounted_step.
    - unfold accounted. cbn. repeat split; constructor. }
  split; [exact Hf |]. destruct Hacc as (Hperm & _).
  apply List.Forall_forall. intros p Hp.
  assert (Hin : In (page_url p) (map currentUrl (reports st))).
  { apply (Permutation_in _ (Permutation_sym Hperm)). apply in_or_app. left.
    now apply in_map. }
  apply in_map_iff in Hin as (r & Hu & Hr).
  unfold fenced in Hf. rewrite List.Forall_forall in Hf.
  rewrite <- Hu. now apply Hf.
Qed.

Lemma crawl_stays_on_site_witness :
  let st := final_state
              (crawl_run parse_reference cycle_web approving_classifier 10
                 "http://a.com" no_config) in
  exists seed,
    parse_reference (normalizeUrl parse_reference "http://a.com") = Some seed
    /\ Forall (fun r => exists u, parse_reference (currentUrl r) = Some u
                 /\ isSameDomain (hostname seed) (hostname u) = true) (reports st)
    /\ Forall (fun p => exists u, parse_reference (page_url p) = Some u
                 /\ isSameDomain (hostname seed) (hostname u) = true) (pages st).
Proof.
  apply (crawl_stays_on_site parse_reference cycle_web approving_classifier
           10 "http://a.com" no_config).
  - reflexivity.
  - vm_compute. reflexivity.
Defined.

(** X10.  Every ranked link that [crawl] returns is a link of one of the
    pages it returns, has a URL that parses, and has a positive heuristic
    score: whatever the classifier answers, a link that matches no pattern
    of the heuristic table is never ranked. *)
Theorem crawl_ranked_links_provenance URL_parse fetchPage chatCompletion
    (fuel : nat) (seedUrl : string) (config : CrawlerOverrides) (res : CrawlResult) :
  crawl URL_parse fetchPage chatCompletion fuel seedUrl config = Done res ->
  Forall (fun r => exists p,
            In p (result_pages res) /\ In (link r) (links p)
            /\ URL_parse (url (link r)) <> None
            /\ (0 < heuristicScore (link r))%Q)
         (rankedLinks res).
Proof.
  unfold crawl. intros Hrun.
  destruct (crawl_run URL_parse fetchPage chatCompletion fuel seedUrl config)
    as [| |st] eqn:Hst; cbn [bind] in Hrun; try discriminate Hrun.
  inversion Hrun; subst res; clear Hrun. cbn [result_of result_pages rankedLinks].
  destruct (crawl_run_reaches _ _ _ _ _ _ _ Hst) as (seed & _ & Hreach).
  eapply (reaches_invariant _ _ _ _ _ (ranked_from_pages URL_parse));
    [| | exact Hreach].
  - intros f a b. apply ranked_from_pages_step.
  - constructor.
Qed.

Lemma crawl_ranked_links_provenance_witness :
  exists res,
    crawl parse_reference cycle_web approving_classifier 10 "http://a.com" no_config
    = Done res
    /\ List.length (rankedLinks res) = 2%nat
    /\ Forall (fun r => exists p,
            In p (result_pages res) /\ In (link r) (links p)
            /\ parse_reference (url (link r)) <> None
            /\ (0 < heuristicScore (link r))%Q)
         (rankedLinks res).
Proof.
  eexists. split; [vm_compute; reflexivity |]. split; [reflexivity |].
  apply (crawl_ranked_links_provenance parse_reference cycle_web approving_classifier
           10 "http://a.com" no_config).
  vm_compute. reflexivity.
Defined.


(** X11.  The crawl is best-first over a frontier that was earned: in
    every state the loop goes through, the item it takes from the queue
    has the greatest score of the queue (a missing score counting as 0),
    and it is the seed or comes from a ranked link of a fetched page whose
    score is at least [minScoreToFollow], with that page as its parent. *)
Theorem crawl_takes_best_earned_item URL_parse fetchPage chatCompletion
    (cfg : CrawlerConfig) (seedDomain normalizedSeed : string)
    (st : CrawlState) (item : QueueItem) :
  reaches URL_parse fetchPage chatCompletion cfg seedDomain
          (initial_state normalizedSeed) st ->
  dequeues cfg st item ->
  (forall it, In it (queue st) -> (score_or_zero it <= score_or_zero item)%Q)
  /\ (In item (queue (initial_state normalizedSeed))
      \/ exists r p,
           In r (allRankedLinks st) /\ In p (pages st)
           /\ q_url item = url (link r)
           /\ score item = Some (relevanceScore r)
           /\ (minScoreToFollow cfg <= relevanceScore r)%Q
           /\ parentUrl item = Some (page_url p)
           /\ In (link r) (links p)).
Proof.
  intros Hreach Hdeq. split; [exact (dequeues_best cfg st item Hdeq) |].
  set (seed := {| q_url := normalizedSeed; depth := 0; parentUrl := None;
                  score := None |}).
  assert (Hinv : frontier_earned cfg seed st).
  { eapply reaches_invariant; [| | exact Hreach].
    - intros f a b. apply frontier_earned_step.
    - constructor; [now left | constructor]. }
  destruct Hdeq as [_ [rest Hsort]].
  assert (Hin : In item (queue st)).
  { apply (Permutation_in _ (sort_desc_perm score_or_zero (queue st))).
    rewrite Hsort. now left. }
  unfold frontier_earned in Hinv. rewrite List.Forall_forall in Hinv.
  destruct (Hinv item Hin) as [-> | Hearned]; [left; now left | now right].
Qed.

Lemma crawl_takes_best_earned_item_witness :
  let cfg := with_defaults no_config in
  let st := final_state
              (crawl_iteration parse_reference cycle_web approving_classifier 10 cfg
                 "a.com" (initial_state "http://a.com/")) in
  let item := {| q_url := "http://a.com/budget"; depth := 1;
                 parentUrl := Some "http://a.com/"; score := Some (9 # 10) |} in
  (forall it, In it (queue st) -> (score_or_zero it <= score_or_zero item)%Q)
  /\ (In item (queue (initial_state "http://a.com/"))
      \/ exists r p,
           In r (allRankedLinks st) /\ In p (pages st)
           /\ q_url item = url (link r)
           /\ score item = Some (relevanceScore r)
           /\ (minScoreToFollow cfg <= relevanceScore r)%Q
           /\ parentUrl item = Some (page_url p)
           /\ In (link r) (links p)).
Proof.
  intros cfg st item.
  apply (crawl_takes_best_earned_item parse_reference cycle_web approving_classifier
           cfg "a.com" "http://a.com/" st item).
  - eapply reaches_step with (fuel := 10%nat);
      [apply reaches_refl | vm_compute; reflexivity | vm_compute; reflexivity].
  - split; [vm_compute; reflexivity |]. exists []. vm_compute. reflexivity.
Defined.

(** X12.  With [maxDepth <= 0] a crawl that returns has fetched at most
    one URL, the seed (normalized once more when it is taken from the
    queue); it has ranked no link and has not called the classifier. *)
Theorem crawl_maxDepth_zero_fetches_seed_only URL_parse fetchPage chatCompletion
    (fuel : nat) (seedUrl : string) (config : CrawlerOverrides) (st : CrawlState) :
  maxDepth (with_defaults config) <= 0 ->
  crawl_run URL_parse fetchPage chatCompletion fuel seedUrl config = Done st ->
  (List.length (reports st) <= 1)%nat
  /\ (List.length (pages st) <= 1)%nat
  /\ Forall (fun r => currentUrl r
                      = normalizeUrl URL_parse (normalizeUrl URL_parse seedUrl))
            (reports st)
  /\ allRankedLinks st = []
  /\ calls st = O.
Proof.
  intros Hmax Hrun.
  destruct (crawl_run_reaches _ _ _ _ _ _ _ Hrun) as (seed & _ & Hreach).
  assert (Hinv : seed_only st /\ allRankedLinks st = [] /\ calls st = O).
  { eapply (reaches_invariant _ _ _ _ _
              (fun s => seed_only s /\ allRankedLinks s = [] /\ calls s = O));
      [| | exact Hreach].
    - intros f a b. now apply shallow_step.
    - split; [apply seed_only_initial | split; reflexivity]. }
  assert (Hacc : accounted st).
  { eapply reaches_invariant; [| | exact Hreach].
    - intros f a b. apply accounted_step.
    - unfold accounted. cbn. repeat split; constructor. }
  assert (Hurl : Forall (fun it => q_url it = normalizeUrl URL_parse seedUrl) (queue st)
                 /\ Forall (fun r => currentUrl r
                      = normalizeUrl URL_parse (normalizeUrl URL_parse seedUrl))
                      (reports st)).
  { eapply (reaches_invariant _ _ _ _ _
              (fun s => (seed_only s /\ allRankedLinks s = [] /\ calls s = O)
                        /\ Forall (fun it => q_url it = normalizeUrl URL_parse seedUrl)
                                  (queue s)
                        /\ Forall (fun r => currentUrl r
                             = normalizeUrl URL_parse (normalizeUrl URL_parse seedUrl))
                             (reports s)));
      [| | exact Hreach].
    - intros f a b (Hshallow & Hq & Hr) Hg Hstep.
      split; [eapply shallow_step; eassumption |].
      destruct Hshallow as ([_ Hdepth] & _).
      destruct (guarded_outcome _ _ _ _ _ f a b Hg Hstep)
        as (item & rest & Hsort & Hout).
      assert (Hperm : Permutation (queue a) (item :: rest)).
      { rewrite <- Hsort. symmetry. apply sort_desc_perm. }
      apply (Permutation_Forall Hperm) in Hq.
      apply (Permutation_Forall Hperm) in Hdepth. apply Forall_inv in Hdepth.
      inversion Hq as [|? ? Hitem Hrest]; subst.
      destruct Hout as [Hv Hq' Hp Ha He Hr' Hs Hc
                       | r Hfresh Hsite Hfetch Hv Hq' Hp Ha He Hr' Hu Hs Hc
                       | r page Hfresh Hsite Hfetch Hshallow Hv Hq' Hp Ha He Hr' Hu Hs Hc
                       | r page filtered ranked Hfresh Hsite Hfetch Hd Hpre Hrank
                           Hv Hq' Hp Ha He Hr' Hu Hs];
        try lia; rewrite Hq', Hr'; (split; [assumption |]);
        try assumption;
        (apply Forall_app; split; [assumption |]; constructor; [| constructor];
         now rewrite Hu, Hitem).
    - split; [split; [apply seed_only_initial | split; reflexivity] |].
      split; repeat constructor. }
  destruct Hinv as ([Hlen _] & Hranked & Hcalls). destruct Hacc as (Hperm & _).
  apply Permutation_length in Hperm. rewrite length_app, !length_map in Hperm.
  repeat split; try assumption; try lia. exact (proj2 Hurl).
Qed.

Lemma crawl_maxDepth_zero_fetches_seed_only_witness :
  let st := final_state
              (crawl_run parse_reference cycle_web approving_classifier 10
                 "http://a.com" (with_maxDepth 0)) in
  (List.length (reports st) <= 1)%nat
  /\ (List.length (pages st) <= 1)%nat
  /\ Forall (fun r => currentUrl r
                      = normalizeUrl parse_reference
                          (normalizeUrl parse_reference "http://a.com"))
            (reports st)
  /\ allRankedLinks st = []
  /\ calls st = O.
Proof.
  apply (crawl_maxDepth_zero_fetches_seed_only parse_reference cycle_web
           approving_classifier 10 "http://a.com" (with_maxDepth 0)).
  - vm_compute. discriminate.
  - vm_compute. reflexivity.
Defined.

(** X13.  With [useLlmRanking] off, a crawl that returns has never called
    the classifier; every ranked link has the score 0.5, the category
    [other] and the rationale of a heuristic match; and when
    [minScoreToFollow] is above 0.5 nothing but the seed is fetched. *)
Theorem crawl_heuristic_only URL_parse fetchPage chatCompletion
    (fuel : nat) (seedUrl : string) (config : CrawlerOverrides) (st : CrawlState) :
  useLlmRanking (with_defaults config) = false ->
  crawl_run URL_parse fetchPage chatCompletion fuel seedUrl config = Done st ->
  calls st = O
  /\ Forall (fun r => relevanceScore r = 5 # 10 /\ category r = other
                      /\ rationale r = "Heuristic match") (allRankedLinks st)
  /\ ((5 # 10 < minScoreToFollow (with_defaults config))%Q ->
      (List.length (reports st) <= 1)%nat).
Proof.
  intros Hllm Hrun.
  destruct (crawl_run_reaches _ _ _ _ _ _ _ Hrun) as (seed & _ & Hreach).
  split; [| split].
  - eapply (reaches_invariant _ _ _ _ _ (fun s => calls s = O)); [| | exact Hreach].
    + intros f a b Ha Hg Hstep.
      rewrite (calls_heuristic_step _ _ _ _ _ f a b Hllm Hg Hstep). exact Ha.
    + reflexivity.
  - eapply (reaches_invariant _ _ _ _ _
              (fun s => Forall (fun r => relevanceScore r = 5 # 10 /\ category r = other
                                  /\ rationale r = "Heuristic match")
                               (allRankedLinks s))); [| | exact Hreach].
    + intros f a b Ha Hg Hstep.
      eapply ranked_all_step; [| exact Ha | exact Hg | exact Hstep].
      intros c0 filtered ranked c' Hrank.
      now destruct (rank_page_heuristic _ _ _ _ _ _ _ Hllm Hrank).
    + constructor.
  - intros Hmin.
    assert (Hinv : seed_only st).
    { eapply reaches_invariant; [| apply seed_only_initial | exact Hreach].
      intros f a b Ha Hg Hstep.
      eapply seed_only_step; [| exact Ha | exact Hg | exact Hstep].
      intros item filtered ranked c' _ _ Hrank.
      destruct (rank_page_heuristic _ _ _ _ _ _ _ Hllm Hrank) as [_ Hall].
      eapply filterByScore_below; [| exact Hall]. cbv beta.
      intros r (-> & _). exact Hmin. }
    destruct Hinv as [Hlen _]. lia.
Qed.

Lemma crawl_heuristic_only_witness :
  let st := final_state
              (crawl_run parse_reference cycle_web approving_classifier 10
                 "http://a.com" heuristic_only) in
  calls st = O
  /\ Forall (fun r => relevanceScore r = 5 # 10 /\ category r = other
                      /\ rationale r = "Heuristic match") (allRankedLinks st)
  /\ ((5 # 10 < minScoreToFollow (with_defaults heuristic_only))%Q ->
      (List.length (reports st) <= 1)%nat).
Proof.
  apply (crawl_heuristic_only parse_reference cycle_web approving_classifier
           10 "http://a.com" heuristic_only).
  - reflexivity.
  - vm_compute. reflexivity.
Defined.

(** X14.  When every call of the classifier fails and [minScoreToFollow]
    is above 0.1 (the default is 0.5), a crawl with LLM ranking still
    returns normally but fetches nothing beyond the seed: every ranked
    link has the fallback score 0.1 and the category [other], so none is
    followed. *)
Theorem crawl_with_failing_classifier URL_parse fetchPage chatCompletion
    (fuel : nat) (seedUrl : string) (config : CrawlerOverrides) (st : CrawlState) :
  (forall n c b, chatCompletion n c b = None) ->
  useLlmRanking (with_defaults config) = true ->
  (1 # 10 < minScoreToFollow (with_defaults config))%Q ->
  crawl_run URL_parse fetchPage chatCompletion fuel seedUrl config = Done st ->
  (List.length (reports st) <= 1)%nat
  /\ (List.length (pages st) <= 1)%nat
  /\ Forall (fun r => relevanceScore r = 1 # 10 /\ category r = other)
            (allRankedLinks st).
Proof.
  intros Hdead Hllm Hmin Hrun.
  destruct (crawl_run_reaches _ _ _ _ _ _ _ Hrun) as (seed & _ & Hreach).
  assert (Hinv : seed_only st).
  { eapply reaches_invariant; [| apply seed_only_initial | exact Hreach].
    intros f a b Ha Hg Hstep.
    eapply seed_only_step; [| exact Ha | exact Hg | exact Hstep].
    intros item filtered ranked c' _ _ Hrank.
    pose proof (rank_page_dead _ _ _ _ _ _ _ Hdead Hllm Hrank) as Hall.
    eapply filterByScore_below; [| exact Hall]. cbv beta.
    intros r (-> & _). exact Hmin. }
  assert (Hacc : accounted st).
  { eapply reaches_invariant; [| | exact Hreach].
    - intros f a b. apply accounted_step.
    - unfold accounted. cbn. repeat split; constructor. }
  destruct Hinv as [Hlen _]. destruct Hacc as (Hperm & _).
  apply Permutation_length in Hperm. rewrite length_app, !length_map in Hperm.
  split; [lia | split; [lia |]].
  eapply (reaches_invariant _ _ _ _ _
            (fun s => Forall (fun r => relevanceScore r = 1 # 10 /\ category r = other)
                             (allRankedLinks s))); [| | exact Hreach].
  - intros f a b Ha Hg Hstep.
    eapply ranked_all_step; [| exact Ha | exact Hg | exact Hstep].
    intros c0 filtered ranked c' Hrank.
    exact (rank_page_dead _ _ _ _ _ _ _ Hdead Hllm Hrank).
  - constructor.
Qed.

Lemma crawl_with_failing_classifier_witness :
  let st := final_state
              (crawl_run parse_reference cycle_web failing_classifier 10
                 "http://a.com" no_config) in
  (List.length (reports st) <= 1)%nat
  /\ (List.length (pages st) <= 1)%nat
  /\ Forall (fun r => relevanceScore r = 1 # 10 /\ category r = other)
            (allRankedLinks st).
Proof.
  apply (crawl_with_failing_classifier parse_reference cycle_web failing_classifier
           10 "http://a.com" no_config).
  - reflexivity.
  - reflexivity.
  - reflexivity.
  - vm_compute. reflexivity.
Defined.

End CrawlerMore.

(** ** Strings *)

Module StringFacts.
Import JsString.

Lemma app_cons c (a b : string) : String c a +:+ b = String c (a +:+ b).
Proof. reflexivity. Qed.

Lemma app_empty (b : string) : "" +:+ b = b.
Proof. reflexivity. Qed.

Lemma app_empty_r (a : string) : a +:+ "" = a.
Proof.
  induction a as [|c a IH]; [reflexivity |]. rewrite app_cons. now f_equal.
Qed.

Lemma chars_str l : chars (str l) = l.
Proof. apply list_ascii_of_string_of_list_ascii. Qed.

Lemma str_chars s : str (chars s) = s.
Proof. apply string_of_list_ascii_of_string. Qed.

Lemma chars_app a b : chars (a +:+ b) = chars a ++ chars b.
Proof.
  unfold chars. induction a as [|c a IH]; [reflexivity |].
  rewrite app_cons. cbn [list_ascii_of_string app]. now f_equal.
Qed.

Lemma str_app a b : str (a ++ b) = str a +:+ str b.
Proof.
  unfold str. induction a as [|c a IH]; [reflexivity |].
  cbn [string_of_list_ascii app]. rewrite app_cons. now f_equal.
Qed.

Lemma prefix_app p s : String.prefix p (p +:+ s) = true.
Proof.
  induction p as [|c p IH]; [now destruct s |].
  rewrite app_cons. cbn [String.prefix].
  destruct (ascii_dec c c); [exact IH | congruence].
Qed.

Lemma prefix_split p s :
  String.prefix p s = true -> s = p +:+ str (skipn (String.length p) (chars s)).
Proof.
  revert s. induction p as [|c p IH]; intros s H.
  - rewrite app_empty. symmetry. apply str_chars.
  - destruct s as [|d s]; [discriminate |]. cbn [String.prefix] in H.
    destruct (ascii_dec c d) as [-> | ]; [| discriminate].
    rewrite app_cons. f_equal. now apply IH.
Qed.

Lemma endsWith_app p s : endsWith (p +:+ s) s = true.
Proof.
  unfold endsWith. rewrite chars_app, rev_app_distr, str_app. apply prefix_app.
Qed.

Lemma app_assoc_string (a b c : string) : (a +:+ b) +:+ c = a +:+ (b +:+ c).
Proof.
  induction a as [|x a IH]; [reflexivity |]. rewrite !app_cons. now f_equal.
Qed.
End StringFacts.

(** ** Domains and robots.txt *)

Module ScraperMore.
Import JsString Url Score Extractor Ranker Run Crawler Scraper RobotsLines
       StringFacts Scenarios.

Lemma strip_www_cases d : strip_www d = d \/ d = "www." +:+ strip_www d.
Proof.
  unfold strip_www, startsWith. destruct (String.prefix "www." d) eqn:E; [| now left].
  right. unfold slice_from. now apply prefix_split in E.
Qed.

Lemma isSameDomain_suffix d1 d2 p :
  strip_www d2 = p +:+ "." +:+ strip_www d1 -> isSameDomain d1 d2 = true.
Proof.
  intros H. unfold isSameDomain.
  destruct (String.eqb d1 d2); [reflexivity |].
  destruct (String.eqb (strip_www d1) (strip_www d2)); [reflexivity |].
  rewrite H. change (p +:+ "." +:+ strip_www d1) with (p +:+ ("." +:+ strip_www d1)).
  now rewrite endsWith_app.
Qed.

Lemma isSameDomain_same_stripped d1 d2 :
  strip_www d1 = strip_www d2 -> isSameDomain d1 d2 = true.
Proof.
  intros H. unfold isSameDomain. destruct (String.eqb d1 d2); [reflexivity |].
  now rewrite H, String.eqb_refl.
Qed.

(** X15.  [isSameDomain] does not depend on the order of its arguments,
    accepts a host against itself, and accepts every host against each of
    its subdomains ([www.] included), whether or not either name starts
    with [www.]. *)
Theorem isSameDomain_symmetric_subdomains (a b sub : string) :
  isSameDomain a b = isSameDomain b a
  /\ isSameDomain a a = true
  /\ isSameDomain a (sub +:+ "." +:+ a) = true.
Proof.
  split; [| split].
  - unfold isSameDomain. rewrite (String.eqb_sym b a).
    destruct (String.eqb a b); [reflexivity |].
    rewrite (String.eqb_sym (strip_www b) (strip_www a)).
    destruct (String.eqb (strip_www a) (strip_www b)); [reflexivity |].
    apply orb_comm.
  - unfold isSameDomain. now rewrite String.eqb_refl.
  - set (b' := sub +:+ "." +:+ a).
    assert (Hb' : sub +:+ "." +:+ a = b') by reflexivity. clearbody b'.
    destruct (strip_www_cases a) as [Ha | Ha];
      destruct (strip_www_cases b') as [Hb | Hb].
    + (* neither name starts with www. *)
      apply (isSameDomain_suffix _ _ sub). rewrite Hb, Ha. now symmetry.
    + (* the subdomain starts with www.: look at the first characters of [sub] *)
      rewrite Hb in Hb'.
      destruct sub as [|c1 [|c2 [|c3 [|c4 sub']]]];
        rewrite ?app_cons, ?app_empty in Hb'; try (inversion Hb'; fail).
      * inversion Hb' as [[H1 H2 H3 Hrest]].
        apply isSameDomain_same_stripped. congruence.
      * inversion Hb' as [[H1 H2 H3 H4 Hrest]].
        apply (isSameDomain_suffix _ _ sub'). rewrite <- Hrest, Ha. reflexivity.
    + (* the host starts with www. *)
      apply (isSameDomain_suffix _ _ (sub +:+ ".www")).
      rewrite Hb, <- Hb'. rewrite Ha at 1. rewrite app_assoc_string. reflexivity.
    + (* both do *)
      rewrite Hb in Hb'.
      destruct sub as [|c1 [|c2 [|c3 [|c4 sub']]]];
        rewrite ?app_cons, ?app_empty in Hb'; try (inversion Hb'; fail).
      * inversion Hb' as [[H1 H2 H3 Hrest]].
        apply (isSameDomain_suffix _ _ "www"). rewrite <- Hrest. rewrite Ha at 1. reflexivity.
      * inversion Hb' as [[H1 H2 H3 H4 Hrest]].
        apply (isSameDomain_suffix _ _ (sub' +:+ ".www")).
        rewrite <- Hrest. rewrite Ha at 1. rewrite app_assoc_string. reflexivity.
Qed.

(** *** robots.txt *)

Lemma lower_char_lowered c : lowered (lower_char c).
Proof.
  unfold lowered.
  destruct c as [[] [] [] [] [] [] [] []]; vm_compute; reflexivity.
Qed.

Lemma toLowerCase_lowered s : Forall lowered (chars (toLowerCase s)).
Proof.
  induction s as [|c s IH]; cbn; constructor; [apply lower_char_lowered | exact IH].
Qed.

Lemma lowered_toLowerCase s : Forall lowered (chars s) -> toLowerCase s = s.
Proof.
  induction s as [|c s IH]; cbn; [reflexivity |].
  intros H. inversion H as [|? ? Hc Hs]; subst. unfold lowered in Hc.
  now rewrite Hc, IH.
Qed.

Lemma drop_spaces_keeps (P : ascii -> Prop) l : Forall P l -> Forall P (drop_spaces l).
Proof.
  induction 1 as [|c l Hc Hl IH]; cbn; [constructor |].
  destruct (is_space c); [exact IH | now constructor].
Qed.

Lemma Forall_rev_list {A} (P : A -> Prop) l : Forall P l -> Forall P (rev l).
Proof.
  intros H. apply List.Forall_forall. intros x Hx. apply in_rev in Hx.
  rewrite List.Forall_forall in H. now apply H.
Qed.

Lemma trim_keeps (P : ascii -> Prop) s : Forall P (chars s) -> Forall P (chars (trim s)).
Proof.
  intros H. unfold trim. rewrite chars_str.
  now apply Forall_rev_list, drop_spaces_keeps, Forall_rev_list, drop_spaces_keeps.
Qed.

Lemma strip_prefix_keeps (P : ascii -> Prop) s p :
  Forall P (chars s) -> Forall P (chars (strip_prefix s p)).
Proof.
  intros H. unfold strip_prefix, slice_from. rewrite chars_str.
  rewrite <- (firstn_skipn (String.length p) (chars s)) in H.
  now apply Forall_app in H.
Qed.

Lemma robots_line_rules st l :
  Forall (fun rule => rule <> "" /\ toLowerCase rule = rule) (scan_disallowed st) ->
  Forall (fun rule => rule <> "" /\ toLowerCase rule = rule)
         (scan_disallowed (robots_line st l)).
Proof.
  intros H. unfold robots_line.
  destruct (startsWith _ "user-agent:"); [exact H |].
  destruct (inUserAgentAll st); [| exact H].
  destruct (startsWith _ "crawl-delay:").
  - destruct (parseInt _); exact H.
  - destruct (startsWith _ "disallow:"); [| exact H].
    destruct (truthy _) eqn:Hpath; [| exact H].
    cbn [scan_disallowed]. apply Forall_app. split; [exact H |].
    constructor; [| constructor]. split.
    + intros Heq. rewrite Heq in Hpath. discriminate.
    + apply lowered_toLowerCase, trim_keeps, strip_prefix_keeps, toLowerCase_lowered.
Qed.

Lemma robots_line_outside st l :
  star_agent l = false ->
  inUserAgentAll st = false ->
  inUserAgentAll (robots_line st l) = false
  /\ scan_crawlDelay (robots_line st l) = scan_crawlDelay st
  /\ scan_disallowed (robots_line st l) = scan_disallowed st.
Proof.
  unfold star_agent, robots_line. intros Hl Hst.
  destruct (startsWith _ "user-agent:").
  - cbn [andb] in Hl. cbn. auto.
  - rewrite Hst. auto.
Qed.

(** X16.  What [getRobotsInfo] makes of a robots.txt: every rule it
    returns is non-empty and in lower case (the line is lower-cased before
    the path is cut out of it); and when no line opens the block of every
    agent with [User-agent: *], it returns no crawl delay and no rule,
    whatever the blocks of other agents say. *)
Theorem parse_robots_star_block_only (text : string) :
  Forall (fun rule => rule <> "" /\ toLowerCase rule = rule)
         (disallowed (parse_robots text))
  /\ (Forall (fun l => star_agent l = false) (split_char LF text) ->
      parse_robots text = {| crawlDelay := None; disallowed := [] |}).
Proof.
  unfold parse_robots, scan_lines. split.
  - cbn [disallowed].
    assert (H : forall lines st,
               Forall (fun rule => rule <> "" /\ toLowerCase rule = rule)
                      (scan_disallowed st) ->
               Forall (fun rule => rule <> "" /\ toLowerCase rule = rule)
                      (scan_disallowed (fold_left robots_line lines st))).
    { induction lines as [|l lines IH]; intros st Hst; [exact Hst |].
      cbn [fold_left]. apply IH. now apply robots_line_rules. }
    apply H. constructor.
  - intros Hlines.
    assert (H : forall lines st,
               Forall (fun l => star_agent l = false) lines ->
               inUserAgentAll st = false ->
               scan_crawlDelay (fold_left robots_line lines st) = scan_crawlDelay st
               /\ scan_disallowed (fold_left robots_line lines st) = scan_disallowed st).
    { induction lines as [|l lines IH]; intros st Hall Hst; [split; reflexivity |].
      inversion Hall as [|? ? Hl Hrest]; subst. cbn [fold_left].
      destruct (robots_line_outside st l Hl Hst) as (Hin & Hd & Hr).
      destruct (IH (robots_line st l) Hrest Hin) as [Hd' Hr'].
      split; congruence. }
    destruct (H (split_char LF text) scan_start Hlines eq_refl) as [Hd Hr].
    now rewrite Hd, Hr.
Qed.

Lemma parse_robots_star_block_only_witness :
  parse_robots ("User-agent: googlebot" +:+ newline +:+ "Disallow: /Private"
                +:+ newline +:+ "Crawl-delay: 9")
  = {| crawlDelay := None; disallowed := [] |}.
Proof.
  apply (proj2 (parse_robots_star_block_only _)). vm_compute.
  repeat constructor.
Defined.

(** X17.  The [Disallow] rules of robots.txt have no effect on a scrape:
    two robots.txt answers with the same crawl delay give the same run,
    page for page, so a site that disallows everything is crawled like a
    site without robots.txt. *)
Theorem scrape_ignores_disallow_rules URL_parse fetchPage chatCompletion
    (robots1 robots2 : string -> option string)
    (fuel : nat) (seedUrl : string) (config : CrawlerOverrides) :
  crawlDelay (getRobotsInfo robots1 seedUrl) = crawlDelay (getRobotsInfo robots2 seedUrl) ->
  scrape URL_parse fetchPage chatCompletion robots1 fuel seedUrl config
  = scrape URL_parse fetchPage chatCompletion robots2 fuel seedUrl config.
Proof.
  intros H. unfold scrape, scrape_run, scrape_config, apply_robots. now rewrite H.
Qed.

Lemma scrape_ignores_disallow_rules_witness :
  disallowed (getRobotsInfo forbidding_robots "http://a.com") = ["/"]
  /\ isUrlAllowed parse_reference "http://a.com/budget"
       (disallowed (getRobotsInfo forbidding_robots "http://a.com")) = false
  /\ scrape parse_reference cycle_web approving_classifier forbidding_robots
            10 "http://a.com" no_config
     = scrape parse_reference cycle_web approving_classifier no_robots
              10 "http://a.com" no_config.
Proof.
  split; [vm_compute; reflexivity |]. split; [vm_compute; reflexivity |].
  apply scrape_ignores_disallow_rules. vm_compute. reflexivity.
Defined.
End ScraperMore.

(** ** Query strings and URL normalization *)

Module UrlFacts.
Import JsString Url Crawler QueryPairs StringFacts Scenarios.

Lemma encode_byte_plain c :
  forallb (fun x => negb (Ascii.eqb x "&"%char) && negb (Ascii.eqb x "="%char))
          (encode_byte c) = true.
Proof. destruct c as [[] [] [] [] [] [] [] []]; reflexivity. Qed.

Lemma decode_encode_byte c rest :
  percent_decode (map plus_to_space (encode_byte c ++ rest))
  = c :: percent_decode (map plus_to_space rest).
Proof. destruct c as [[] [] [] [] [] [] [] []]; reflexivity. Qed.

Lemma decode_encode_bytes l :
  percent_decode (map plus_to_space (flat_map encode_byte l)) = l.
Proof.
  induction l as [|c l IH]; [reflexivity |].
  cbn [flat_map]. now rewrite decode_encode_byte, IH.
Qed.

(** *** UTF-8 decoding *)

Lemma utf8_decode_cons b rest :
  utf8_decode (b :: rest)
  = match utf8_first b with
    | Single => b :: utf8_decode rest
    | Stray => replacement ++ utf8_decode rest
    | Lead needed lower upper =>
        match rest with
        | [] => replacement
        | c1 :: r1 =>
            if in_range lower upper c1 then
              match needed with
              | 1%nat => b :: c1 :: utf8_decode r1
              | _ =>
                  match r1 with
                  | [] => replacement
                  | c2 :: r2 =>
                      if in_range 128 191 c2 then
                        match needed with
                        | 2%nat => b :: c1 :: c2 :: utf8_decode r2
                        | _ =>
                            match r2 with
                            | [] => replacement
                            | c3 :: r3 =>
                                if in_range 128 191 c3
                                then b :: c1 :: c2 :: c3 :: utf8_decode r3
                                else replacement ++ utf8_decode r2
                            end
                        end
                      else replacement ++ utf8_decode r1
                  end
              end
            else replacement ++ utf8_decode rest
        end
    end.
Proof. reflexivity. Qed.

Lemma utf8_decode_replacement m :
  utf8_decode (replacement ++ m) = replacement ++ utf8_decode m.
Proof. reflexivity. Qed.

Lemma utf8_decode_replacement_only : utf8_decode replacement = replacement.
Proof. reflexivity. Qed.

Lemma utf8_first_needed b needed lower upper :
  utf8_first b = Lead needed lower upper ->
  needed = 1%nat \/ needed = 2%nat \/ needed = 3%nat.
Proof.
  unfold utf8_first.
  destruct (nat_of_ascii b <=? 127)%nat; [discriminate |].
  destruct (in_range 194 223 b); [intros H; inversion H; auto |].
  destruct (in_range 224 239 b); [intros H; inversion H; auto |].
  destruct (in_range 240 244 b); [intros H; inversion H; auto | discriminate].
Qed.

(** What the decoder returns is well-formed: decoding it again changes
    nothing. *)
Lemma utf8_decode_twice n :
  forall l, (List.length l <= n)%nat -> utf8_decode (utf8_decode l) = utf8_decode l.
Proof.
  induction n as [|n IH]; intros l Hlen.
  - destruct l; [reflexivity | cbn in Hlen; lia].
  - destruct l as [|b rest]; [reflexivity |]. cbn [List.length] in Hlen.
    assert (Hrest : utf8_decode (replacement ++ utf8_decode rest)
                    = replacement ++ utf8_decode rest).
    { rewrite utf8_decode_replacement, IH by lia. reflexivity. }
    rewrite (utf8_decode_cons b rest).
    destruct (utf8_first b) as [|needed lower upper|] eqn:Hb.
    + rewrite utf8_decode_cons, Hb, IH by lia. reflexivity.
    + destruct rest as [|c1 r1]; [reflexivity |]. cbn [List.length] in Hlen.
      destruct (in_range lower upper c1) eqn:H1; [| exact Hrest].
      assert (Hr1 : utf8_decode (replacement ++ utf8_decode r1)
                    = replacement ++ utf8_decode r1).
      { rewrite utf8_decode_replacement, IH by lia. reflexivity. }
      destruct (utf8_first_needed _ _ _ _ Hb) as [-> | [-> | ->]].
      * rewrite utf8_decode_cons, Hb, H1, IH by lia. reflexivity.
      * destruct r1 as [|c2 r2]; [reflexivity |]. cbn [List.length] in Hlen.
        destruct (in_range 128 191 c2) eqn:H2; [| exact Hr1].
        rewrite utf8_decode_cons, Hb, H1, H2, IH by lia. reflexivity.
      * destruct r1 as [|c2 r2]; [reflexivity |]. cbn [List.length] in Hlen.
        destruct (in_range 128 191 c2) eqn:H2; [| exact Hr1].
        assert (Hr2 : utf8_decode (replacement ++ utf8_decode r2)
                      = replacement ++ utf8_decode r2).
        { rewrite utf8_decode_replacement, IH by lia. reflexivity. }
        destruct r2 as [|c3 r3]; [reflexivity |]. cbn [List.length] in Hlen.
        destruct (in_range 128 191 c3) eqn:H3; [| exact Hr2].
        rewrite utf8_decode_cons, Hb, H1, H2, H3, IH by lia. reflexivity.
    + exact Hrest.
Qed.

Lemma utf8_decode_idempotent l : utf8_decode (utf8_decode l) = utf8_decode l.
Proof. apply (utf8_decode_twice (List.length l)). apply Nat.le_refl. Qed.

Lemma decode_component_well_formed l : well_formed (decode_component l).
Proof.
  unfold well_formed, decode_component. rewrite chars_str.
  apply utf8_decode_idempotent.
Qed.

Lemma decode_encode s :
  well_formed s -> decode_component (chars (encode_component s)) = s.
Proof.
  unfold well_formed, decode_component, encode_component. intros Hs.
  now rewrite chars_str, decode_encode_bytes, Hs, str_chars.
Qed.

Lemma encode_component_plain s :
  Forall (fun x => Ascii.eqb x "&"%char = false /\ Ascii.eqb x "="%char = false)
         (chars (encode_component s)).
Proof.
  unfold encode_component. rewrite chars_str.
  induction (chars s) as [|c l IH]; [constructor |].
  cbn [flat_map]. apply Forall_app. split; [| exact IH].
  pose proof (encode_byte_plain c) as H. rewrite forallb_forall in H.
  apply List.Forall_forall. intros x Hx. apply H in Hx.
  apply andb_true_iff in Hx as [H1 H2].
  now rewrite negb_true_iff in H1, H2.
Qed.

Lemma break_at_first c l r :
  Forall (fun x => Ascii.eqb x c = false) l ->
  break_at c (l ++ c :: r) = (l, Some r).
Proof.
  induction 1 as [|x l Hx _ IH]; cbn [break_at app].
  - now rewrite Ascii.eqb_refl.
  - now rewrite Hx, IH.
Qed.

Lemma parse_encode_pair p : well_formed_pair p -> parse_pair (encode_pair p) = p.
Proof.
  destruct p as [n v]. unfold well_formed_pair, parse_pair, encode_pair.
  cbn [fst snd]. intros [Hn Hv].
  rewrite chars_app, app_cons, app_empty.
  change (chars (String "=" (encode_component v)))
    with ("="%char :: chars (encode_component v)).
  rewrite break_at_first.
  - now rewrite !decode_encode.
  - eapply List.Forall_impl; [| apply encode_component_plain]. cbv beta. tauto.
Qed.

Lemma parse_pair_well_formed piece : well_formed_pair (parse_pair piece).
Proof.
  unfold well_formed_pair, parse_pair.
  destruct (break_at "="%char (chars piece)) as [name value]. cbn [fst snd].
  split; apply decode_component_well_formed.
Qed.

Lemma parse_urlencoded_well_formed q : Forall well_formed_pair (parse_urlencoded q).
Proof.
  unfold parse_urlencoded. apply List.Forall_forall. intros p Hp.
  apply in_map_iff in Hp as (piece & <- & _). apply parse_pair_well_formed.
Qed.

Lemma encode_pair_plain p :
  Forall (fun x => Ascii.eqb x "&"%char = false) (chars (encode_pair p)).
Proof.
  unfold encode_pair. rewrite chars_app, app_cons, app_empty.
  apply Forall_app. split.
  - eapply List.Forall_impl; [| apply encode_component_plain]. cbv beta. tauto.
  - constructor; [reflexivity |].
    eapply List.Forall_impl; [| apply encode_component_plain]. cbv beta. tauto.
Qed.

Lemma encode_pair_truthy p : truthy (encode_pair p) = true.
Proof.
  unfold encode_pair. destruct (encode_component (fst p)); reflexivity.
Qed.

Lemma split_char_go_run sep l rest cur :
  Forall (fun x => Ascii.eqb x sep = false) l ->
  split_char_go sep (l ++ rest) cur = split_char_go sep rest (rev l ++ cur).
Proof.
  intros H. revert cur. induction H as [|x l Hx _ IH]; intros cur; [reflexivity |].
  cbn [app split_char_go]. rewrite Hx, IH. cbn [rev]. now rewrite <- app_assoc.
Qed.

Lemma split_join sep (x : string) (l : list string) :
  Forall (fun s => Forall (fun c => Ascii.eqb c sep = false) (chars s)) (x :: l) ->
  split_char sep (join (String sep "") (x :: l)) = x :: l.
Proof.
  unfold split_char, join. revert x. induction l as [|y l IH]; intros x H.
  - inversion H as [|? ? Hx _]; subst. cbn [String.concat].
    rewrite <- (app_nil_r (chars x)), split_char_go_run by assumption.
    cbn [split_char_go]. now rewrite app_nil_r, rev_involutive, str_chars.
  - inversion H as [|? ? Hx Hrest]; subst.
    change (String.concat (String sep "") (x :: y :: l))
      with (x +:+ String sep "" +:+ String.concat (String sep "") (y :: l)).
    rewrite chars_app, app_cons, app_empty.
    change (chars (String sep (String.concat (String sep "") (y :: l))))
      with (sep :: chars (String.concat (String sep "") (y :: l))).
    rewrite split_char_go_run by assumption.
    cbn [split_char_go]. rewrite Ascii.eqb_refl.
    now rewrite app_nil_r, rev_involutive, str_chars, IH.
Qed.

(** Parsing a serialized list of pairs gives the list back. *)
Lemma parse_serialize (l : list (string * string)) :
  Forall well_formed_pair l ->
  parse_urlencoded (serialize_urlencoded l) = l.
Proof.
  intros Hwf.
  unfold parse_urlencoded, serialize_urlencoded.
  replace (map (fun '(n, v) => encode_component n +:+ "=" +:+ encode_component v) l)
    with (map encode_pair l)
    by (apply map_ext; now intros [n v]).
  destruct l as [|p l]; [reflexivity |].
  change "&"%string with (String "&"%char "").
  cbn [map]. rewrite split_join.
  - rewrite forallb_filter_id.
    + change (encode_pair p :: map encode_pair l) with (map encode_pair (p :: l)).
      rewrite map_map. rewrite <- (map_id (p :: l)) at 2.
      apply map_ext_in. intros q Hq. apply parse_encode_pair.
      rewrite List.Forall_forall in Hwf. now apply Hwf.
    + apply forallb_forall. intros s [<- | Hs]; [apply encode_pair_truthy |].
      apply in_map_iff in Hs as (q & <- & _). apply encode_pair_truthy.
  - apply List.Forall_forall. intros s [<- | Hs]; [apply encode_pair_plain |].
    apply in_map_iff in Hs as (q & <- & _). apply encode_pair_plain.
Qed.

Lemma delete_all_filter (names : list string) (l : list (string * string)) :
  fold_left (fun l name => List.filter (fun '(n, _) => negb (String.eqb n name)) l)
            names l
  = List.filter (fun '(n, _) => negb (existsb (String.eqb n) names)) l.
Proof.
  revert l. induction names as [|name names IH]; intros l; cbn [fold_left existsb].
  - induction l as [|[n v] l IHl]; [reflexivity |]. cbn [List.filter negb]. now f_equal.
  - rewrite IH. induction l as [|[n v] l IHl]; [reflexivity |].
    cbn [List.filter]. destruct (String.eqb n name); cbn [negb orb List.filter].
    + exact IHl.
    + destruct (existsb (String.eqb n) names); cbn [negb]; now rewrite IHl.
Qed.

Lemma filter_well_formed (f : string * string -> bool) l :
  Forall well_formed_pair l -> Forall well_formed_pair (List.filter f l).
Proof.
  intros H. apply List.Forall_forall. intros p Hp. apply filter_In in Hp as [Hp _].
  rewrite List.Forall_forall in H. now apply H.
Qed.

(** X18.  On a URL that parses, [normalizeUrl] drops the fragment and the
    tracking parameters (utm_source, utm_medium, utm_campaign, fbclid,
    gclid) and nothing else of the query.  With [cleaned] the URL after
    the deletions: the result is the serialization of [cleaned], less its
    last character when it ends in a slash and the path is not the root;
    that serialization is scheme and host, path and query of [cleaned],
    with no fragment part; the query of [cleaned] parses to exactly the
    parameters of the given URL whose name is not a tracking name, in
    their order and with their values, and it is absent when none is
    left; scheme, host and path are those of the given URL. *)
Theorem normalizeUrl_drops_tracking_params (URL_parse : string -> option URL)
    (s : string) (u : URL) :
  URL_parse s = Some u ->
  let cleaned := searchParams_delete_all tracking_params (clear_hash u) in
  let kept :=
    List.filter (fun '(n, _) => negb (existsb (String.eqb n) tracking_params))
      (parse_urlencoded (match query u with Some q => q | None => "" end)) in
  normalizeUrl URL_parse s
  = (if endsWith (href cleaned) "/" && negb (String.eqb (pathname u) "/")
     then drop_last (href cleaned) else href cleaned)
  /\ href cleaned
     = site u +:+ pathname u
       +:+ match query cleaned with Some q => "?" +:+ q | None => "" end
  /\ parse_urlencoded (match query cleaned with Some q => q | None => "" end) = kept
  /\ (query cleaned = None <-> kept = [])
  /\ (forall n v, In (n, v) kept -> ~ In n tracking_params).
Proof.
  intros Hparse cleaned kept.
  assert (Hquery : query cleaned
                   = if truthy (serialize_urlencoded kept)
                     then Some (serialize_urlencoded kept) else None).
  { subst cleaned kept. unfold searchParams_delete_all.
    cbn [query clear_hash tracking_params]. rewrite delete_all_filter. reflexivity. }
  assert (Hwf : Forall well_formed_pair kept).
  { subst kept. apply filter_well_formed, parse_urlencoded_well_formed. }
  split; [| split; [| split; [| split]]].
  - unfold normalizeUrl. rewrite Hparse. fold cleaned. reflexivity.
  - unfold href. cbn [site pathname fragment cleaned searchParams_delete_all clear_hash].
    fold cleaned. now rewrite app_empty_r.
  - rewrite Hquery.
    destruct (serialize_urlencoded kept) as [|c q] eqn:Hs; cbn [truthy];
      rewrite <- Hs; now apply parse_serialize.
  - rewrite Hquery. split.
    + destruct (serialize_urlencoded kept) as [|c q] eqn:Hs; cbn [truthy];
        [intros _ | discriminate].
      rewrite <- (parse_serialize kept Hwf), Hs. reflexivity.
    + intros ->. reflexivity.
  - intros n v Hin Htrack. subst kept. apply filter_In in Hin as [_ Hkeep].
    apply negb_true_iff in Hkeep.
    assert (Hex : existsb (String.eqb n) tracking_params = true).
    { apply existsb_exists. exists n. split; [assumption | apply String.eqb_refl]. }
    congruence.
Qed.

Lemma normalizeUrl_drops_tracking_params_witness :
  normalizeUrl parse_reference "http://a.com/docs/?utm_source=mail&id=7&fbclid=x&page=2#top"
  = "http://a.com/docs/?id=7&page=2"
  /\ normalizeUrl parse_reference "http://a.com/p?x=%FF&gclid=1"
     = "http://a.com/p?x=%EF%BF%BD"
  /\ exists u, parse_reference "http://a.com/docs/?utm_source=mail&id=7&fbclid=x&page=2#top"
               = Some u
     /\ parse_urlencoded
          (match query (searchParams_delete_all tracking_params (clear_hash u)) with
           | Some q => q
           | None => ""
           end)
        = List.filter (fun '(n, _) => negb (existsb (String.eqb n) tracking_params))
            (parse_urlencoded (match query u with Some q => q | None => "" end)).
Proof.
  split; [vm_compute; reflexivity |]. split; [vm_compute; reflexivity |].
  eexists. split; [vm_compute; reflexivity |].
  exact (proj1 (proj2 (proj2
           (normalizeUrl_drops_tracking_params parse_reference
              "http://a.com/docs/?utm_source=mail&id=7&fbclid=x&page=2#top" _ eq_refl)))).
Defined.
End UrlFacts.

(** ** Chunker: sections, words and titles *)

Module ChunkerMore.
Import JsString Chunker ChunkGroups StringFacts Scenarios.

Lemma join_cons2 sep (x y : string) l :
  join sep (x :: y :: l) = x +:+ sep +:+ join sep (y :: l).
Proof. reflexivity. Qed.

Lemma join_app sep (a b : list string) :
  a <> [] -> b <> [] -> join sep (a ++ b) = join sep a +:+ sep +:+ join sep b.
Proof.
  intros Ha Hb. induction a as [|x a IH]; [congruence |].
  destruct a as [|x' a].
  - destruct b as [|y b]; [congruence | reflexivity].
  - change ((x :: x' :: a) ++ b) with (x :: x' :: (a ++ b)).
    rewrite !join_cons2. change (x' :: a ++ b) with ((x' :: a) ++ b).
    rewrite IH by discriminate. now rewrite !app_assoc_string.
Qed.

Lemma join_snoc sep (a : list string) (x : string) :
  a <> [] -> join sep (a ++ [x]) = join sep a +:+ sep +:+ x.
Proof. intros Ha. now rewrite join_app by (assumption || discriminate). Qed.

Lemma join_joined sep (groups : list (list string)) :
  Forall (fun g => g <> []) groups ->
  join sep (map (join sep) groups) = join sep (List.concat groups).
Proof.
  induction 1 as [|g groups Hg Hrest IH]; [reflexivity |].
  destruct groups as [|g' groups].
  - cbn [map List.concat]. now rewrite app_nil_r.
  - cbn [map] in *. rewrite join_cons2, IH.
    change (List.concat (g :: g' :: groups)) with (g ++ List.concat (g' :: groups)).
    rewrite join_app; [reflexivity | assumption |].
    inversion Hrest; subst. cbn [List.concat]. destruct g'; [congruence | discriminate].
Qed.

Section AnyTokenizer.
Variable countTokens : string -> nat.

(** *** mergeSmallSections *)

Lemma merge_group_extend g s :
  {| title := title (merge_group g);
     body := body (merge_group g) +:+ blank_line +:+ body s |}
  = merge_group (fst g, snd g ++ [s]).
Proof.
  unfold merge_group, group_sections. cbn [title body fst snd]. f_equal.
  change (fst g :: snd g ++ [s]) with ((fst g :: snd g) ++ [s]).
  rewrite map_app. cbn [map]. now rewrite join_snoc by discriminate.
Qed.

Lemma flat_map_snoc {A B} (f : A -> list B) l x :
  flat_map f (l ++ [x]) = flat_map f l ++ f x.
Proof. rewrite flat_map_app. cbn. now rewrite app_nil_r. Qed.

Lemma mergeSmallSections_loop_groups sections :
  forall groups merged seen,
    merged = map merge_group groups ->
    flat_map group_sections groups = seen ->
    Forall (fun g => Forall (small countTokens) (snd g)) groups ->
    Forall (fun g => ~ small countTokens (fst g)) (tl groups) ->
    exists groups',
      flat_map group_sections groups' = seen ++ sections
      /\ mergeSmallSections_loop countTokens sections merged
         = map merge_group groups'
      /\ Forall (fun g => Forall (small countTokens) (snd g)) groups'
      /\ Forall (fun g => ~ small countTokens (fst g)) (tl groups').
Proof.
  induction sections as [|s rest IH]; intros groups merged seen Hm Hflat Hsmall Hbig.
  - exists groups. rewrite app_nil_r. cbn [mergeSmallSections_loop]. auto.
  - cbn [mergeSmallSections_loop].
    replace (seen ++ s :: rest) with ((seen ++ [s]) ++ rest)
      by (now rewrite <- app_assoc).
    destruct (Nat.ltb_spec (countTokens (body s)) MIN_CHUNK_TOKENS) as [Hs | Hs].
    + destruct groups as [|g0 groups0] eqn:Hgroups.
      * (* nothing to merge into: the section opens the first group *)
        subst merged. cbn [map List.length Nat.ltb Nat.leb andb app].
        apply (IH [(s, [])]).
        -- destruct s; reflexivity.
        -- now subst.
        -- repeat constructor.
        -- constructor.
      * rewrite <- Hgroups in *.
        assert (Hne : groups <> []) by (subst groups; discriminate).
        destruct (exists_last Hne) as (before & g & Hlast).
        subst merged.
        replace (0 <? List.length (map merge_group groups))%nat with true
          by (rewrite Hgroups; reflexivity).
        cbn [andb]. rewrite Hlast, map_app. cbn [map].
        rewrite rev_app_distr. cbn [rev app]. rewrite rev_involutive.
        rewrite merge_group_extend.
        apply (IH (before ++ [(fst g, snd g ++ [s])])).
        -- now rewrite map_app.
        -- rewrite <- Hflat, Hlast, !flat_map_snoc. unfold group_sections.
           cbn [fst snd]. now rewrite <- !app_assoc.
        -- rewrite Hlast in Hsmall. apply Forall_app in Hsmall as [Hb Hg].
           apply Forall_app. split; [assumption |]. constructor; [| constructor].
           cbn [snd]. apply Forall_app. split; [now inversion Hg |].
           constructor; [exact Hs | constructor].
        -- rewrite Hlast in Hbig. destruct before as [|b before]; [constructor |].
           cbn [tl app] in *. apply Forall_app in Hbig as [Hb Hg].
           apply Forall_app. split; [assumption |]. constructor; [| constructor].
           cbn [fst]. now inversion Hg.
    + cbn [andb]. apply (IH (groups ++ [(s, [])])).
      * rewrite map_app, Hm. cbn [map]. f_equal. destruct s; reflexivity.
      * rewrite flat_map_snoc, Hflat. reflexivity.
      * apply Forall_app. split; [assumption | repeat constructor].
      * destruct groups as [|g0 groups0]; [constructor |].
        cbn [tl app]. apply Forall_app. split; [assumption |].
        constructor; [| constructor]. unfold small. cbn [fst]. lia.
Qed.

(** X19.  [mergeSmallSections] cuts its input into consecutive groups: a
    section followed by the small sections (fewer than 100 tokens) that
    come right after it.  Every group but the first starts with a section
    that is not small (the first section opens a group whatever its size);
    each group becomes one section with the title of its first section and
    the bodies joined by blank lines.  So no text is lost: the bodies of
    the result, joined by blank lines, are the bodies of the input joined
    by blank lines. *)
Theorem mergeSmallSections_groups (sections : list MdSection) :
  exists groups,
    flat_map group_sections groups = sections
    /\ mergeSmallSections countTokens sections = map merge_group groups
    /\ Forall (fun g => Forall (small countTokens) (snd g)) groups
    /\ Forall (fun g => ~ small countTokens (fst g)) (tl groups)
    /\ join blank_line (map body (mergeSmallSections countTokens sections))
       = join blank_line (map body sections).
Proof.
  destruct (mergeSmallSections_loop_groups sections [] [] [] eq_refl eq_refl)
    as (groups & Hflat & Hrun & Hsmall & Hbig); [constructor | constructor |].
  exists groups. cbn [app] in Hflat. unfold mergeSmallSections. rewrite Hrun.
  repeat split; try assumption.
  rewrite map_map. unfold merge_group at 1. cbn [body].
  rewrite <- (map_map (fun g => map body (group_sections g)) (join blank_line)).
  rewrite join_joined.
  - rewrite <- Hflat. f_equal. clear. induction groups as [|g groups IH]; [reflexivity |].
    cbn [map List.concat flat_map]. now rewrite map_app, IH.
  - apply List.Forall_forall. intros l Hl. apply in_map_iff in Hl as (g & <- & _).
    discriminate.
Qed.

(** *** splitByTokenCount *)

Lemma estimate_snoc g word :
  estimate countTokens (g ++ [word])
  = (estimate countTokens g + countTokens (word +:+ " "))%nat.
Proof.
  unfold estimate. rewrite map_app, list_sum_app. cbn. lia.
Qed.

Lemma splitByTokenCount_loop_groups words :
  forall groups cur toks chunks' cur',
    splitByTokenCount_loop countTokens words (map (join " ") groups) cur toks
      = (chunks', cur') ->
    toks = estimate countTokens cur ->
    Forall (fits countTokens) groups ->
    (cur = [] \/ fits countTokens cur) ->
    exists groups',
      chunks' = map (join " ") groups'
      /\ List.concat groups' ++ cur' = List.concat groups ++ cur ++ words
      /\ Forall (fits countTokens) groups'
      /\ (cur' = [] \/ fits countTokens cur').
Proof.
  induction words as [|word rest IH]; intros groups cur toks chunks' cur' Hrun Htoks Hg Hcur.
  - inversion Hrun; subst. exists groups. rewrite app_nil_r. auto.
  - cbn [splitByTokenCount_loop] in Hrun.
    destruct ((MAX_CHUNK_TOKENS <? toks + countTokens (word +:+ " "))%nat
              && (0 <? List.length cur)%nat) eqn:Hfull.
    + apply andb_true_iff in Hfull as [_ Hne].
      assert (Hcur' : fits countTokens cur).
      { destruct Hcur as [-> | H]; [discriminate | exact H]. }
      change (map (join " ") groups ++ [join " " cur])
        with (map (join " ") groups ++ map (join " ") [cur]) in Hrun.
      rewrite <- map_app in Hrun.
      apply IH in Hrun as (groups' & Hc & Hcat & Hfit & Hlast).
      * exists groups'. split; [assumption |]. split; [| auto].
        rewrite Hcat, concat_app. cbn [List.concat]. rewrite app_nil_r.
        now rewrite <- !app_assoc.
      * unfold estimate. cbn. lia.
      * apply Forall_app. split; [assumption |]. constructor; [exact Hcur' | constructor].
      * right. split; [discriminate | now right].
    + apply IH in Hrun as (groups' & Hc & Hcat & Hfit & Hlast).
      * exists groups'. split; [assumption |]. split; [| auto].
        rewrite Hcat. now rewrite <- !app_assoc.
      * subst toks. now rewrite estimate_snoc.
      * assumption.
      * right. split; [now destruct cur |].
        apply andb_false_iff in Hfull as [Hsmall | Hempty].
        -- left. apply Nat.ltb_ge in Hsmall. subst toks. now rewrite estimate_snoc.
        -- right. destruct cur; [reflexivity | discriminate].
Qed.

(** X20.  [splitByTokenCount] deals the words of the text, in order and
    without losing one, into groups and returns each group joined by
    single spaces.  No group is empty, and the estimated size of a group
    (each word counted with a space after it) is at most 1000 tokens
    unless the group is a single word.  Joined by spaces, the pieces are
    the words of the text joined by spaces. *)
Theorem splitByTokenCount_groups (text : string) :
  exists groups,
    List.concat groups = split_whitespace text
    /\ splitByTokenCount countTokens text = map (join " ") groups
    /\ Forall (fits countTokens) groups
    /\ join " " (splitByTokenCount countTokens text) = join " " (split_whitespace text).
Proof.
  unfold splitByTokenCount.
  destruct (splitByTokenCount_loop countTokens (split_whitespace text) [] [] 0)
    as [chunks cur] eqn:Hrun.
  change (@nil string) with (map (join " ") []) in Hrun at 1.
  apply splitByTokenCount_loop_groups in Hrun
    as (groups & Hc & Hcat & Hfit & Hlast);
    [| reflexivity | constructor | now left].
  cbn [List.concat app] in Hcat.
  assert (Hspec : exists groups',
             List.concat groups' = split_whitespace text
             /\ (if (0 <? List.length cur)%nat then chunks ++ [join " " cur] else chunks)
                = map (join " ") groups'
             /\ Forall (fits countTokens) groups').
  { destruct cur as [|w cur].
    - exists groups. rewrite app_nil_r in Hcat. cbn. auto.
    - exists (groups ++ [w :: cur]). cbn [List.length Nat.ltb Nat.leb].
      rewrite concat_app, map_app. cbn [List.concat map]. rewrite app_nil_r.
      split; [assumption |]. split; [now subst |].
      apply Forall_app. split; [assumption |].
      destruct Hlast as [H | H]; [discriminate |]. constructor; [exact H | constructor]. }
  destruct Hspec as (groups' & Hcat' & Hout & Hfit').
  exists groups'. rewrite Hout. repeat split; try assumption.
  rewrite join_joined, Hcat'; [reflexivity |].
  eapply List.Forall_impl; [| exact Hfit']. cbv beta. now intros g [Hg _].
Qed.

(** *** splitLargeSection *)

Lemma splitLargeSection_loop_titles title start paras :
  forall chunks cur toks num chunks' cur' num',
    splitLargeSection_loop countTokens title start paras chunks cur toks num
      = (chunks', cur', num') ->
    map sectionTitle chunks = map (chunk_title title) (seq 0 num) ->
    map sectionTitle chunks' = map (chunk_title title) (seq 0 num').
Proof.
  induction paras as [|para rest IH]; cbn [splitLargeSection_loop];
    intros chunks cur toks num chunks' cur' num' Hrun Ht.
  - inversion Hrun; subst. assumption.
  - destruct ((MAX_CHUNK_TOKENS <? toks + countTokens para)%nat && truthy cur).
    + eapply IH; [exact Hrun |].
      rewrite map_app, seq_S, map_app, Ht. reflexivity.
    + eapply IH; eassumption.
Qed.

Lemma continued_titles title k n :
  map (chunk_title title) (seq (S k) n) = repeat (title +:+ " (continued)") n.
Proof.
  revert k. induction n as [|n IH]; intros k; [reflexivity |].
  cbn [seq map repeat]. now rewrite IH.
Qed.

(** X21.  The chunks that [splitLargeSection] makes of one section are
    titled with the title of the section for the first chunk and with the
    title followed by " (continued)" for every later chunk. *)
Theorem splitLargeSection_titles (title content : string) (startIndex : nat) :
  map sectionTitle (splitLargeSection countTokens title content startIndex)
  = match List.length (splitLargeSection countTokens title content startIndex) with
    | O => []
    | S k => title :: repeat (title +:+ " (continued)") k
    end.
Proof.
  assert (H : map sectionTitle (splitLargeSection countTokens title content startIndex)
              = map (chunk_title title)
                    (seq 0 (List.length
                              (splitLargeSection countTokens title content startIndex)))).
  { unfold splitLargeSection.
    destruct (splitLargeSection_loop countTokens title startIndex
                (expandParagraphs countTokens (splitByParagraphs content)) [] "" 0 0)
      as [[chunks cur] num] eqn:Hrun.
    pose proof (splitLargeSection_loop_titles _ _ _ _ _ _ _ _ _ _ Hrun eq_refl) as Ht.
    assert (Hnum : num = List.length chunks).
    { rewrite <- (length_map sectionTitle), Ht, length_map, length_seq. reflexivity. }
    destruct (truthy (trim cur)).
    - rewrite length_app, Nat.add_1_r, seq_S, !map_app, Ht. cbn [map sectionTitle].
      now rewrite <- Hnum.
    - now rewrite <- Hnum. }
  rewrite H. destruct (List.length _) as [|k]; [reflexivity |].
  cbn [seq map]. now rewrite continued_titles.
Qed.

(** X22.  The small cases of [chunkDocument]: a markdown that is empty or
    blank gives no chunk; a markdown without [##] or [###] header whose
    trimmed text is within 1000 tokens gives one chunk, titled "Document",
    with the trimmed text, its token count and the index 0. *)
Theorem chunkDocument_small_documents (markdown : string) :
  (trim markdown = "" -> chunkDocument countTokens markdown = [])
  /\ (trim markdown <> "" -> header_matches markdown = [] ->
      (countTokens (trim markdown) <= MAX_CHUNK_TOKENS)%nat ->
      chunkDocument countTokens markdown
      = [{| sectionTitle := "Document"; content := trim markdown;
            tokenCount := countTokens (trim markdown); chunkIndex := 0 |}]).
Proof.
  unfold chunkDocument. split.
  - intros ->. cbn. now rewrite orb_true_r.
  - intros Htrim Hheaders Htokens.
    assert (Hmd : truthy markdown = true).
    { destruct markdown; [exfalso; apply Htrim; reflexivity | reflexivity]. }
    rewrite Hmd. cbn [negb orb].
    destruct (trim markdown) as [|c t] eqn:Ht; [congruence |].
    cbn [String.length Nat.eqb].
    unfold splitByHeaders. rewrite Hheaders, Ht.
    unfold mergeSmallSections. cbn [mergeSmallSections_loop List.length Nat.ltb Nat.leb].
    rewrite andb_false_r. cbn [app chunkDocument_loop body title].
    apply Nat.ltb_ge in Htokens. now rewrite Htokens.
Qed.
End AnyTokenizer.

Lemma chunkDocument_small_documents_witness :
  chunkDocument wordTokens "  Budget for the year  "
  = [{| sectionTitle := "Document"; content := "Budget for the year";
        tokenCount := 4; chunkIndex := 0 |}].
Proof.
  apply (proj2 (chunkDocument_small_documents wordTokens "  Budget for the year  "));
    vm_compute; [discriminate | reflexivity | lia].
Defined.
End ChunkerMore.

(** ** Command line *)

Module CliFacts.
Import JsString Url Crawler Scraper Cli CliLimits Scenarios.

Lemma int_or_nonzero v d : d <> 0 -> int_or v d <> 0.
Proof.
  intros Hd. unfold int_or. destruct v as [v|]; [| assumption].
  destruct (parseInt v) as [n|]; [| assumption].
  destruct (Z.eqb_spec n 0); assumption.
Qed.

Section AnyPlatform.
Variable URL_parse : string -> option URL.
Variable parseFloat : string -> option Q.

Lemma float_or_nonzero v d : ~ (d == 0)%Q -> ~ (float_or parseFloat v d == 0)%Q.
Proof.
  intros Hd. unfold float_or. destruct v as [v|]; [| assumption].
  destruct (parseFloat v) as [q|]; [| assumption].
  destruct (Qeq_bool q 0) eqn:E; [assumption |]. now apply Qeq_bool_neq.
Qed.

Lemma first_some_off (b : option bool) (old : option bool) :
  b <> Some true -> old <> Some true -> first_some b old <> Some true.
Proof. destruct b; auto. Qed.

Lemma switch_modest arg : case_modest (switch parseFloat arg).
Proof.
  unfold switch.
  repeat match goal with
         | |- context [if ?b then _ else _] => destruct b
         end;
    cbn [case_modest flag]; try exact I;
    try (intros v c (H1 & H2 & H3 & H4 & H5 & H6 & H7 & H8 & H9 & H10);
         unfold modest;
         cbn [set_maxDepth set_maxPages set_orgId set_minScore set_delay
              cli_maxDepth cli_maxPages cli_requestDelayMs cli_minScoreToFollow
              cli_useLlmRanking cli_storeInDb cli_extractProjects
              cli_generateEmbeddings cli_sameDomainOnly cli_verbose];
         repeat split; try assumption;
         try (intros Heq; inversion Heq as [Hz];
              revert Hz; apply int_or_nonzero; discriminate);
         try (intros q Heq; inversion Heq; subst q;
              apply float_or_nonzero; discriminate);
         fail);
    try (intros c visible (H1 & H2 & H3 & H4 & H5 & H6 & H7 & H8 & H9 & H10);
         unfold modest;
         cbn [fst set_flags
              cli_maxDepth cli_maxPages cli_requestDelayMs cli_minScoreToFollow
              cli_useLlmRanking cli_storeInDb cli_extractProjects
              cli_generateEmbeddings cli_sameDomainOnly cli_verbose];
         repeat split; try assumption;
         try (apply first_some_off; [discriminate | assumption]);
         fail).
Qed.

Lemma parse_options_modest n :
  forall args c visible c' visible',
    (List.length args <= n)%nat ->
    modest c ->
    parse_options parseFloat args c visible = Some (c', visible') ->
    modest c'.
Proof.
  induction n as [|n IH]; intros args c visible c' visible' Hlen Hc Hrun.
  - destruct args; [| cbn in Hlen; lia]. cbn in Hrun. now inversion Hrun; subst.
  - destruct args as [|arg rest]; [cbn in Hrun; now inversion Hrun; subst |].
    cbn [parse_options] in Hrun. cbn [List.length] in Hlen.
    pose proof (switch_modest arg) as Hcase.
    destruct (switch parseFloat arg) as [set | set | |]; cbn [case_modest] in Hcase.
    + destruct rest as [|value rest'].
      * inversion Hrun; subst. now apply Hcase.
      * eapply (IH rest'); [cbn [List.length] in Hlen; lia | | exact Hrun].
        now apply Hcase.
    + specialize (Hcase c visible Hc).
      destruct (set (c, visible)) as [c1 v1]. cbn [fst] in Hcase.
      eapply (IH rest); [lia | exact Hcase | exact Hrun].
    + discriminate.
    + eapply (IH rest); [lia | exact Hc | exact Hrun].
Qed.

(** X23.  What [parseArgs] can hand to [scrape]: the URL is the first
    argument and parses; a depth, page count or delay given on the command
    line is never 0 and a minimum score is never 0 (a value of 0, like a
    value that is not a number or is missing, silently becomes the default
    2, 20, 1000 or 0.5); the switches can only turn a feature off; and
    the organization id is always set. *)
Theorem parseArgs_limits (args : list string) (url : string) (config : CliConfig)
    (visible : bool) :
  parseArgs URL_parse parseFloat args = Parsed url config visible ->
  hd_error args = Some url
  /\ URL_parse url <> None
  /\ cli_maxDepth config <> Some 0
  /\ cli_maxPages config <> Some 0
  /\ cli_requestDelayMs config <> Some 0
  /\ (forall q, cli_minScoreToFollow config = Some q -> ~ (q == 0)%Q)
  /\ cli_useLlmRanking config <> Some true
  /\ cli_storeInDb config <> Some true
  /\ cli_extractProjects config <> Some true
  /\ cli_generateEmbeddings config <> Some true
  /\ cli_sameDomainOnly config <> Some true
  /\ cli_verbose config <> Some true
  /\ cli_orgId config <> None.
Proof.
  unfold parseArgs. destruct args as [|first options]; [discriminate |].
  destruct (one_of first ["--help"; "-h"]); [discriminate |].
  destruct (URL_parse first) as [parsed|] eqn:Hurl; [| discriminate].
  destruct (parse_options parseFloat options empty_config false)
    as [[c v]|] eqn:Hopts; [| discriminate].
  intros H. inversion H; subst url config visible; clear H.
  assert (Hc : modest c).
  { eapply (parse_options_modest (List.length options));
      [apply Nat.le_refl | | exact Hopts].
    unfold modest, empty_config. cbn. repeat split; discriminate. }
  split; [reflexivity |]. split; [congruence |].
  destruct Hc as (H1 & H2 & H3 & H4 & H5 & H6 & H7 & H8 & H9 & H10).
  destruct (cli_orgId c) as [[|ch id]|] eqn:Hid;
    cbn [set_orgId cli_maxDepth cli_maxPages cli_requestDelayMs cli_minScoreToFollow
         cli_useLlmRanking cli_storeInDb cli_extractProjects
         cli_generateEmbeddings cli_sameDomainOnly cli_verbose cli_orgId];
    repeat split; try assumption; try discriminate.
  rewrite Hid. discriminate.
Qed.
End AnyPlatform.

Lemma parseArgs_limits_witness :
  exists config,
    parseArgs parse_reference parseFloat_integers
      ["http://www.a.com"; "--depth"; "0"; "--delay"; "--no-llm"]
    = Parsed "http://www.a.com" config false
    /\ cli_maxDepth config = Some 2
    /\ cli_requestDelayMs config = Some 1000
    /\ cli_useLlmRanking config = None
    /\ cli_orgId config = Some "a-com"
    /\ cli_maxPages config <> Some 0.
Proof.
  eexists. split; [vm_compute; reflexivity |].
  do 4 (split; [reflexivity |]).
  eapply (parseArgs_limits parse_reference parseFloat_integers
            ["http://www.a.com"; "--depth"; "0"; "--delay"; "--no-llm"]).
  vm_compute. reflexivity.
Defined.
End CliFacts.

(** ** Ranker: the number of classifier calls *)

Module RankerCost.
Import JsString Score Extractor Ranker Run Scenarios.

Lemma batches_step (len i bs : Z) :
  0 < bs -> 0 <= i -> i < len ->
  (len - i + bs - 1) / bs
  = 1 + (if i + bs <? len then (len - (i + bs) + bs - 1) / bs else 0).
Proof.
  intros Hbs Hi Hlt. destruct (Z.ltb_spec (i + bs) len) as [Hmore | Hlast].
  - replace (len - i + bs - 1) with ((len - (i + bs) + bs - 1) + 1 * bs) by lia.
    rewrite Z.div_add by lia. lia.
  - symmetry. apply (Z.div_unique_pos _ _ 1 (len - i - 1)); lia.
Qed.

Lemma rankLinks_loop_calls chatCompletion ls cfg :
  0 < batchSize cfg ->
  forall fuel i acc calls0 out calls',
    0 <= i ->
    rankLinks_loop chatCompletion fuel ls cfg i acc calls0 = Done (out, calls') ->
    Z.of_nat calls'
    = Z.of_nat calls0
      + (if i <? Z.of_nat (List.length ls)
         then (Z.of_nat (List.length ls) - i + batchSize cfg - 1) / batchSize cfg
         else 0).
Proof.
  intros Hbs. induction fuel as [|fuel IH]; intros i acc calls0 out calls' Hi Hrun;
    [discriminate |].
  cbn [rankLinks_loop] in Hrun.
  destruct (Z.ltb_spec i (Z.of_nat (List.length ls))) as [Hlt | Hge].
  - apply IH in Hrun; [| lia]. rewrite Hrun, (batches_step _ i _ Hbs Hi Hlt). lia.
  - inversion Hrun; subst. lia.
Qed.

(** X24.  With a batch size of at least one, a call of [rankLinks] that
    returns has called the classifier once per batch: the number of links
    divided by the batch size, rounded up -- and not at all for an empty
    list. *)
Theorem rankLinks_call_count
    (chatCompletion : nat -> RankerConfig -> list ExtractedLink -> option (list Ranking))
    (ls : list ExtractedLink) (config : RankerOverrides) (fuel calls0 : nat)
    (out : list RankedLink) (calls' : nat) :
  0 < batchSize (merge_ranker_config config) ->
  rankLinks chatCompletion fuel calls0 ls config = Done (out, calls') ->
  Z.of_nat calls'
  = Z.of_nat calls0
    + (Z.of_nat (List.length ls) + batchSize (merge_ranker_config config) - 1)
      / batchSize (merge_ranker_config config).
Proof.
  intros Hbs. unfold rankLinks. destruct ls as [|l ls].
  - cbn [List.length Nat.eqb]. intros H. inversion H; subst.
    change (Z.of_nat 0) with 0. rewrite Z.div_small; lia.
  - cbn [List.length Nat.eqb]. intros H.
    apply rankLinks_loop_calls in H; [| assumption | lia].
    rewrite H. cbn [List.length].
    destruct (Z.ltb_spec 0 (Z.of_nat (S (List.length ls)))) as [_ | Hneg]; [| lia].
    now rewrite Z.sub_0_r.
Qed.

Lemma rankLinks_call_count_witness :
  let ls := [sample_link "http://a.com/budget" "Budget" "";
             sample_link "http://a.com/bids" "Bids" "";
             sample_link "http://a.com/rfp" "RFP" ""] in
  let config := {| o_priorityKeywords := None; o_minRelevanceScore := None;
                   o_batchSize := Some 2 |} in
  exists out calls',
    rankLinks approving_classifier 5 0 ls config = Done (out, calls')
    /\ calls' = 2%nat
    /\ Z.of_nat calls'
       = Z.of_nat 0
         + (Z.of_nat (List.length ls) + batchSize (merge_ranker_config config) - 1)
           / batchSize (merge_ranker_config config).
Proof.
  intros ls config. do 2 eexists.
  split; [vm_compute; reflexivity |]. split; [reflexivity |].
  eapply (rankLinks_call_count approving_classifier ls config 5 0);
    [reflexivity | vm_compute; reflexivity].
Defined.
End RankerCost.

(** ** Crawler: what can make a crawl throw *)

Module CrawlerRobust.
Import JsString Url Score Extractor Ranker Run Crawler CrawlEffects ScoreFacts
       CrawlerFacts Scenarios.

Section NoThrow.
Variable URL_parse : string -> option URL.
Variable fetchPage : string -> option (string * string * list ExtractedLink).
Variable chatCompletion : nat -> RankerConfig -> list ExtractedLink -> option (list Ranking).
Variable initBrowser : option string.
Variable openPage : string -> option string.
Variable closePage : string -> option string.
Variable onProgress : CrawlProgress -> option string.
Variable closeBrowser : option string.
Variable cfg : CrawlerConfig.
Variable seedDomain : string.

Abbreviation collaborator :=
  (from_collaborator initBrowser openPage closePage onProgress closeBrowser).
Abbreviation all_quiet :=
  (quiet initBrowser openPage closePage onProgress closeBrowser).

Lemma rankLinks_loop_no_throw ls rcfg :
  forall fuel i acc calls0 e,
    rankLinks_loop chatCompletion fuel ls rcfg i acc calls0 <> Threw e.
Proof.
  induction fuel as [|fuel IH]; intros i acc calls0 e; [discriminate |].
  cbn [rankLinks_loop]. destruct (i <? Z.of_nat (List.length ls)); [apply IH | discriminate].
Qed.

Lemma rank_page_no_throw fuel calls0 filtered e :
  rank_page chatCompletion fuel cfg calls0 filtered <> Threw e.
Proof.
  unfold rank_page. destruct (useLlmRanking cfg); [| discriminate].
  destruct (0 <? List.length (heuristicRank filtered))%nat; [| discriminate].
  unfold rankLinks. destruct (List.length (heuristicRank filtered) =? 0)%nat;
    [discriminate | apply rankLinks_loop_no_throw].
Qed.

(** After a page was fetched under a URL that parses, the rest of the
    loop body does not throw. *)
Lemma process_page_no_throw fuel item n u page st e :
  URL_parse n = Some u ->
  process_page URL_parse chatCompletion fuel cfg item n page st <> Threw e.
Proof.
  intros Hparse. unfold process_page.
  destruct ((depth item <? maxDepth cfg) && (0 <? List.length (links page))%nat);
    [| discriminate].
  unfold preFilterLinks. rewrite Hparse. cbn [bind].
  destruct (rank_page chatCompletion fuel cfg _ _) as [| e' |[ranked calls']] eqn:Hrank;
    cbn [bind]; try discriminate.
  exfalso. exact (rank_page_no_throw _ _ _ _ Hrank).
Qed.

Lemma crawl_iteration_full_throws fuel st e :
  sameDomainOnly cfg = true ->
  crawl_iteration_full URL_parse fetchPage chatCompletion openPage closePage onProgress
    fuel cfg seedDomain st = Threw e ->
  collaborator e.
Proof.
  intros Hsd. unfold crawl_iteration_full.
  destruct (sort_desc score_or_zero (queue st)) as [|item rest]; [discriminate |].
  destruct (bool_decide _); [discriminate |].
  rewrite Hsd. cbn [andb].
  destruct (URL_parse (normalizeUrl URL_parse (q_url item))) as [u|] eqn:Hparse;
    [| discriminate].
  destruct (negb (isSameDomain seedDomain (hostname u))); [discriminate |].
  unfold raise_or at 1.
  destruct (onProgress _) as [e1|] eqn:Hprogress.
  { intros H. inversion H; subst. do 4 right. eauto. }
  unfold extractLinksFromUrl_full, raise_or.
  destruct (openPage _) as [e2|] eqn:Hopen; cbn [bind].
  { intros H. inversion H; subst. do 2 right. left. eauto. }
  destruct (closePage _) as [e3|] eqn:Hclose; cbn [bind].
  { intros H. inversion H; subst. do 3 right. left. eauto. }
  destruct (extractLinksFromUrl fetchPage _) as [page|]; [| discriminate].
  intros H. exfalso. exact (process_page_no_throw _ _ _ _ _ _ _ Hparse H).
Qed.

Lemma crawl_loop_full_throws fuel :
  sameDomainOnly cfg = true ->
  forall st e,
    crawl_loop_full URL_parse fetchPage chatCompletion openPage closePage onProgress
      fuel cfg seedDomain st = Threw e ->
    collaborator e.
Proof.
  intros Hsd. induction fuel as [|fuel IH]; intros st e; [discriminate |].
  cbn [crawl_loop_full]. destruct (loop_guard cfg st); [| discriminate].
  destruct (crawl_iteration_full URL_parse fetchPage chatCompletion openPage closePage
              onProgress fuel cfg seedDomain st) as [| e' | st1] eqn:Hit; cbn [bind].
  - discriminate.
  - intros H. inversion H; subst. eapply crawl_iteration_full_throws; eassumption.
  - apply IH.
Qed.

Lemma crawl_iteration_full_quiet fuel st :
  all_quiet ->
  crawl_iteration_full URL_parse fetchPage chatCompletion openPage closePage onProgress
    fuel cfg seedDomain st
  = crawl_iteration URL_parse fetchPage chatCompletion fuel cfg seedDomain st.
Proof.
  intros (_ & _ & Hopen & Hclose & Hprogress).
  unfold crawl_iteration_full, crawl_iteration, extractLinksFromUrl_full.
  destruct (sort_desc score_or_zero (queue st)) as [|item rest]; [reflexivity |].
  destruct (bool_decide _); [reflexivity |].
  destruct (sameDomainOnly cfg && _); [reflexivity |].
  rewrite Hprogress, Hopen, Hclose. cbn [raise_or bind].
  destruct (extractLinksFromUrl fetchPage _); reflexivity.
Qed.

Lemma crawl_loop_full_quiet fuel :
  all_quiet ->
  forall st,
    crawl_loop_full URL_parse fetchPage chatCompletion openPage closePage onProgress
      fuel cfg seedDomain st
    = crawl_loop URL_parse fetchPage chatCompletion fuel cfg seedDomain st.
Proof.
  intros Hq. induction fuel as [|fuel IH]; intros st; [reflexivity |].
  cbn [crawl_loop_full crawl_loop]. destruct (loop_guard cfg st); [| reflexivity].
  rewrite crawl_iteration_full_quiet by assumption.
  destruct (crawl_iteration URL_parse fetchPage chatCompletion fuel cfg seedDomain st);
    cbn [bind]; [reflexivity | reflexivity | apply IH].
Qed.
End NoThrow.

(** X25.  What can make [crawl] throw.  With [sameDomainOnly] (the
    default), an exception that [crawl] ends with is the "Invalid URL" of
    a seed that does not parse, or it was thrown by a collaborator:
    [initBrowser], the opening or the closing of the browser page in
    [extractLinksFromUrl], the [onProgress] callback or [closeBrowser].
    Nothing else does: not a page that fails to load or to be read, not
    the links of a page, not an answer or a failure of the classifier.
    And when no collaborator throws, [crawl] is the function [crawl] of
    the model without them. *)
Theorem crawl_exception_sources URL_parse fetchPage chatCompletion
    (initBrowser : option string) (openPage closePage : string -> option string)
    (onProgress : CrawlProgress -> option string) (closeBrowser : option string)
    (fuel : nat) (seedUrl : string) (config : CrawlerOverrides) :
  (sameDomainOnly (with_defaults config) = true ->
   forall e,
     crawl_full URL_parse fetchPage chatCompletion initBrowser openPage closePage
       onProgress closeBrowser fuel seedUrl config = Threw e ->
     (URL_parse (normalizeUrl URL_parse seedUrl) = None /\ e = "Invalid URL")
     \/ from_collaborator initBrowser openPage closePage onProgress closeBrowser e)
  /\ (quiet initBrowser openPage closePage onProgress closeBrowser ->
      crawl_full URL_parse fetchPage chatCompletion initBrowser openPage closePage
        onProgress closeBrowser fuel seedUrl config
      = crawl URL_parse fetchPage chatCompletion fuel seedUrl config).
Proof.
  split.
  - intros Hsd e. unfold crawl_full, raise_or.
    destruct initBrowser as [e0|] eqn:Hinit.
    { intros H. inversion H; subst. right. now left. }
    destruct (URL_parse (normalizeUrl URL_parse seedUrl)) as [u|] eqn:Hseed.
    + destruct (crawl_loop_full URL_parse fetchPage chatCompletion openPage closePage
                  onProgress fuel (with_defaults config) (hostname u)
                  (initial_state (normalizeUrl URL_parse seedUrl)))
        as [| e' | st] eqn:Hloop; cbn [bind].
      * discriminate.
      * intros H. inversion H; subst. right.
        pose proof (crawl_loop_full_throws URL_parse fetchPage chatCompletion None
                      openPage closePage onProgress closeBrowser _ _ fuel Hsd _ _ Hloop)
          as Hc.
        destruct Hc as [Hc | Hc]; [discriminate | right; exact Hc].
      * destruct closeBrowser as [e1|] eqn:Hclose; [| discriminate].
        intros H. inversion H; subst. right. right. now left.
    + intros H. inversion H; subst. left. auto.
  - intros Hq. pose proof Hq as (Hinit & Hclose & _).
    unfold crawl_full, crawl, crawl_run. rewrite Hinit, Hclose. cbn [raise_or].
    destruct (URL_parse (normalizeUrl URL_parse seedUrl)) as [u|]; [| reflexivity].
    now rewrite (crawl_loop_full_quiet URL_parse fetchPage chatCompletion _ _ _ _ _ _ _
                   fuel Hq).
Qed.

Lemma crawl_exception_sources_witness :
  crawl_full parse_reference cycle_web approving_classifier None budget_page_fails
    never_throws never_throws None 10 "http://a.com" no_config
  = Threw "browser has been closed"
  /\ ((parse_reference (normalizeUrl parse_reference "http://a.com") = None
       /\ "browser has been closed" = "Invalid URL")
      \/ from_collaborator None budget_page_fails never_throws never_throws None
           "browser has been closed")
  /\ crawl_full parse_reference cycle_web approving_classifier None never_throws
       never_throws never_throws None 10 "http://a.com" no_config
     = crawl parse_reference cycle_web approving_classifier 10 "http://a.com" no_config.
Proof.
  split; [vm_compute; reflexivity |]. split.
  - apply (proj1 (crawl_exception_sources parse_reference cycle_web approving_classifier
                    None budget_page_fails never_throws never_throws None
                    10 "http://a.com" no_config)).
    + reflexivity.
    + vm_compute. reflexivity.
  - apply (proj2 (crawl_exception_sources parse_reference cycle_web approving_classifier
                    None never_throws never_throws never_throws None
                    10 "http://a.com" no_config)).
    repeat split.
Defined.
End CrawlerRobust.
